(** * devfrnd: the MongoDB batch migration engine

    A shallow embedding of [devfrnd/db_migration_utils/db_migrator.py]
    ([_safe_close], [_migrate]) and of the command in
    [devfrnd/router/db_migration_service.py] ([migrate]).

    The Python code is sequential and talks to three outside parties: the
    pymongo driver (two clients, a cursor, bulk inserts), the logger and the
    progress display, and the operating system (SIGINT).  The embedding is
    a state-and-exception monad that also records every outside call in a
    trace.  What the outside answers is fixed by records of oracles
    ([deployment], [collection]); the theorems quantify over them.

    The imports of [devfrnd/app.py] with the two SIGINT handlers (module
    [Process]) and the Flask command of
    [devfrnd/router/flask_helper_service.py] and
    [devfrnd/flask_helper_utils/app_endpoints_fetcher.py] (module [Flask])
    follow the engine. *)

From Stdlib Require Import ZArith Lia Bool Ascii String.
From Stdlib Require Import Floats.SpecFloat.
From stdpp Require Import base option list gmap strings.

Open Scope Z_scope.

(** ** Python floats

    [percentage / 100.0] and [total_docs * (...)] are IEEE 754 binary64
    operations; [SpecFloat] is the executable specification of that format. *)

Module PyFloat.

Definition prec : Z := 53.
Definition emax : Z := 1024.

(** Exceptions that the arithmetic of line 114 can raise. *)
Inductive arith_error := OverflowError | ValueError.

(** [float(n)] for a Python int: round to nearest even; an int that rounds
    beyond the largest finite double raises [OverflowError]. *)
Definition of_int (n : Z) : arith_error + spec_float :=
  match binary_normalize prec emax n 0 false with
  | S754_infinity _ => inl OverflowError
  | f => inr f
  end.

Definition mul : spec_float -> spec_float -> spec_float := SFmul prec emax.
Definition div : spec_float -> spec_float -> spec_float := SFdiv prec emax.

(** [math.ceil(x)]: the least integer not below [x]. *)
Definition ceil (x : spec_float) : arith_error + Z :=
  match x with
  | S754_zero _ => inr 0
  | S754_finite s m e =>
      let v := if s then Z.neg m else Z.pos m in
      inr (if 0 <=? e then v * 2 ^ e else - ((- v) / 2 ^ (- e)))
  | S754_infinity _ => inl OverflowError
  | S754_nan => inl ValueError
  end.

End PyFloat.

(** [math.ceil(total_docs * (percentage / 100.0))], line 114. *)
Definition num_to_migrate (total_docs percentage : Z) : PyFloat.arith_error + Z :=
  match PyFloat.of_int percentage, PyFloat.of_int 100, PyFloat.of_int total_docs with
  | inr p, inr h, inr t => PyFloat.ceil (PyFloat.mul t (PyFloat.div p h))
  | inl e, _, _ => inl e
  | _, inl e, _ => inl e
  | _, _, inl e => inl e
  end.

(** The ceiling of the exact rational [n * p / 100]. *)
Definition exact_ceiling (n p : Z) : Z := - ((- (n * p)) / 100).

(** ** Data model *)

(** A document: its [_id] and an opaque payload. *)
Record document := Document { doc_id : Z; doc_body : Z }.

#[global] Instance document_eq_dec : EqDecision document.
Proof. solve_decision. Defined.

Inductive side := Source | Target.

#[global] Instance side_eq_dec : EqDecision side.
Proof. solve_decision. Defined.

(** Exceptions (all of them subclasses of Python's [Exception]).
    [BulkWriteError] carries the codes of [details["writeErrors"]]. *)
Inductive exn :=
| ConfigurationError
| ConnectionFailure
| OperationFailure
| BulkWriteError (codes : list Z)
| PyMongoError
| StopIteration
| TypeError
| ArithError (e : PyFloat.arith_error)
| OtherError.

(** The pymongo class hierarchy: what [except PyMongoError] catches. *)
Definition is_PyMongoError (e : exn) : bool :=
  match e with
  | ConfigurationError | ConnectionFailure | OperationFailure
  | BulkWriteError _ | PyMongoError => true
  | _ => false
  end.

Definition is_BulkWriteError (e : exn) : bool :=
  match e with BulkWriteError _ => true | _ => false end.

Definition duplicate_key : Z := 11000.

Inductive level := Info | Warning | Error.

(** The log lines of the two modules, by call site. *)
Inductive message :=
| MsgSeparator
| MsgConnectionError
| MsgDatabaseError
| MsgStarting
| MsgListError
| MsgNoCollections
| MsgAccessError (c : string)
| MsgCountError (c : string)
| MsgCreatedEmpty (c : string)
| MsgPlan (c : string) (num total : Z)
| MsgCursorError (c : string)
| MsgFetchError (c : string)
| MsgDuplicate (c : string)
| MsgWriteError (c : string)
| MsgBulkWriteError (c : string)
| MsgUnexpectedWrite (c : string)
| MsgMigrateError (c : string)
| MsgCursorCloseError (c : string)
| MsgCompleted (c : string) (migrated total : Z)
| MsgComplete
| MsgMigrationFailed
| MsgCloseError (s : side)
| MsgInterrupted
| MsgPercentage
| MsgUnknownDirection
| MsgSuccess
| MsgUnexpected.

(** Every call that leaves the process, in the order issued. *)
Inductive event :=
| EvMongoClient (s : side) (ok : bool)      (* MongoClient(uri) *)
| EvPing (s : side)
| EvDatabase                                (* client[db_name], both sides *)
| EvListCollections (s : side)
| EvAccess (c : string)                     (* db[coll_name], both sides *)
| EvCount (c : string)
| EvCreateCollection (c : string)
| EvFind (c : string) (ok : bool)
| EvNext (c : string)
| EvInsertMany (c : string) (docs : list document)
| EvCursorClose (c : string)
| EvClientClose (s : side)
| EvAddTask (c : string) (total : Z)
| EvAdvanceOverall
| EvUpdateTask (c : string) (advance : Z)
| EvLog (l : level) (m : message)           (* logger.info/warning/error *)
| EvLogFile (l : level) (m : message)       (* logger.log_to_file *)
| EvCollection (c : string)                 (* the collection loop enters its body *)
| EvSigint.                                 (* handle_sigint runs *)

(** ** The outside world *)

(** One source collection, with what the driver answers for it. *)
Record collection := Collection {
  coll_name : string;
  access_fault : option exn;                (* db[coll_name] raises *)
  estimated_document_count : exn + Z;
  find_fault : option exn;                  (* find(...) raises *)
  stream : list (exn + document);           (* answers of next(cursor); then StopIteration *)
  cursor_close_fault : option exn;
  list_target_fault : option exn;           (* target_db.list_collection_names() raises *)
  create_fault : option exn;                (* target_db.create_collection raises *)
  rejects : document -> option Z;           (* write error code the target gives a document *)
  write_fault : list document -> option exn;(* insert_many fails as a whole *)
  update_fault : Z -> option exn            (* progress.update raises *)
}.

(** The two servers, the database and the interrupt. *)
Record deployment := Deployment {
  client_fault : side -> option exn;        (* MongoClient(uri) raises *)
  ping_fault : side -> option exn;
  database_fault : option exn;              (* client[db_name] raises *)
  list_source : exn + list collection;      (* source_db.list_collection_names() *)
  close_fault : side -> option exn;         (* client.close() raises *)
  sigint : nat -> bool                      (* SIGINT arrives during the n-th call *)
}.

(** ** Program state *)

Record state := State {
  _stop : bool;                             (* the module global *)
  clock : nat;                              (* calls issued so far *)
  source_client : option side;              (* locals of _migrate *)
  target_client : option side;
  migrated_count : Z;
  cursor : list (exn + document);           (* what the live cursor still holds *)
  overall : nat;                            (* completed units of overall_task *)
  target_db : gmap string (list document)   (* contents of the target database *)
}.

Definition set_stop (b : bool) (st : state) : state :=
  State b (clock st) (source_client st) (target_client st) (migrated_count st)
        (cursor st) (overall st) (target_db st).
Definition set_clock (n : nat) (st : state) : state :=
  State (_stop st) n (source_client st) (target_client st) (migrated_count st)
        (cursor st) (overall st) (target_db st).
Definition set_source_client (c : option side) (st : state) : state :=
  State (_stop st) (clock st) c (target_client st) (migrated_count st)
        (cursor st) (overall st) (target_db st).
Definition set_target_client (c : option side) (st : state) : state :=
  State (_stop st) (clock st) (source_client st) c (migrated_count st)
        (cursor st) (overall st) (target_db st).
Definition set_migrated_count (n : Z) (st : state) : state :=
  State (_stop st) (clock st) (source_client st) (target_client st) n
        (cursor st) (overall st) (target_db st).
Definition set_cursor (c : list (exn + document)) (st : state) : state :=
  State (_stop st) (clock st) (source_client st) (target_client st) (migrated_count st)
        c (overall st) (target_db st).
Definition set_overall (n : nat) (st : state) : state :=
  State (_stop st) (clock st) (source_client st) (target_client st) (migrated_count st)
        (cursor st) n (target_db st).
Definition set_target_db (db : gmap string (list document)) (st : state) : state :=
  State (_stop st) (clock st) (source_client st) (target_client st) (migrated_count st)
        (cursor st) (overall st) db.

(** A process that has just imported the module. *)
Definition initial_state (db : gmap string (list document)) : state :=
  State false 0 None None 0 [] 0 db.

(** ** The monad: state, exceptions, trace *)

Inductive outcome (A : Type) :=
| Normal (a : A)
| Raised (e : exn).
Arguments Normal {A} a.
Arguments Raised {A} e.

Definition M (A : Type) : Type := state -> outcome A * state * list event.

Definition ret {A} (a : A) : M A := fun st => (Normal a, st, []).
Definition raise {A} (e : exn) : M A := fun st => (Raised e, st, []).

Definition bind {A B} (m : M A) (f : A -> M B) : M B :=
  fun st =>
    match m st with
    | (Normal a, st1, ev1) =>
        let '(r, st2, ev2) := f a st1 in (r, st2, ev1 ++ ev2)
    | (Raised e, st1, ev1) => (Raised e, st1, ev1)
    end.

Notation "x <- m ;; k" := (bind m (fun x => k))
  (at level 100, m at next level, right associativity, only parsing).
Notation "m ;; k" := (bind m (fun _ => k))
  (at level 100, right associativity, only parsing).

(** [try: m  except <classes>: h]; [h e = None] when no clause matches. *)
Definition try_except {A} (m : M A) (h : exn -> option (M A)) : M A :=
  fun st =>
    match m st with
    | (Raised e, st1, ev1) =>
        match h e with
        | Some k => let '(r, st2, ev2) := k st1 in (r, st2, ev1 ++ ev2)
        | None => (Raised e, st1, ev1)
        end
    | res => res
    end.

(** [try: m  finally: f]; an exception of [f] replaces the outcome of [m]. *)
Definition try_finally {A} (m : M A) (f : M unit) : M A :=
  fun st =>
    let '(r, st1, ev1) := m st in
    let '(r2, st2, ev2) := f st1 in
    (match r2 with Raised e => Raised e | Normal _ => r end, st2, ev1 ++ ev2).

Definition get {A} (f : state -> A) : M A := fun st => (Normal (f st), st, []).
Definition modify (f : state -> state) : M unit := fun st => (Normal tt, f st, []).

Definition events {A} (r : outcome A * state * list event) : list event := snd r.
Definition final {A} (r : outcome A * state * list event) : state := snd (fst r).
Definition result {A} (r : outcome A * state * list event) : outcome A := fst (fst r).

(** ** The driver

    pymongo and the server are not part of the repository; this is the
    behaviour the engine relies on.  [bulk_insert ordered rej present docs]
    is [insert_many(docs, ordered=...)] on a collection holding [present]:
    a document whose [_id] is already there gets the duplicate-key code, one
    the server refuses gets the code of [rej]; an unordered insert goes on
    with the rest of the batch, an ordered one stops at the first error. *)

Definition has_id (i : Z) (l : list document) : bool :=
  existsb (fun y => doc_id y =? i) l.

Fixpoint bulk_insert (ordered : bool) (rej : document -> option Z)
    (present docs : list document) : list document * list Z :=
  match docs with
  | [] => (present, [])
  | x :: rest =>
      match (if has_id (doc_id x) present then Some duplicate_key else rej x) with
      | None => bulk_insert ordered rej (present ++ [x]) rest
      | Some code =>
          if ordered then (present, [code])
          else let '(now, errs) := bulk_insert ordered rej present rest in
               (now, code :: errs)
      end
  end.

Definition lift {A} (r : PyFloat.arith_error + A) : M A :=
  match r with
  | inl e => raise (ArithError e)
  | inr a => ret a
  end.

Definition lower_ascii (a : ascii) : ascii :=
  let n := nat_of_ascii a in
  if ((65 <=? n) && (n <=? 90))%nat then ascii_of_nat (n + 32) else a.

(** [str.lower()], on ASCII. *)
Fixpoint lower (s : string) : string :=
  match s with
  | EmptyString => EmptyString
  | String a r => String (lower_ascii a) (lower r)
  end.

Inductive loop_end := Finished | OutOfFuel.

(** How the command leaves the process. *)
Inductive exit := Returns | SystemExit (code : Z).

Definition exit_status (x : exit) : Z :=
  match x with
  | Returns => 0
  | SystemExit code => code
  end.

(** ** Classes of events *)

(** Log lines and the interrupt: events that touch neither database. *)
Definition is_chatter (e : event) : bool :=
  match e with
  | EvLog _ _ | EvLogFile _ _ | EvSigint => true
  | _ => false
  end.

Definition is_insert (e : event) : bool :=
  match e with EvInsertMany _ _ => true | _ => false end.

Definition is_next (e : event) : bool :=
  match e with EvNext _ => true | _ => false end.

Definition is_collection (e : event) : bool :=
  match e with EvCollection _ => true | _ => false end.

(** [true] unless [insert_many] fails with something that is not a
    [BulkWriteError]: the value of [written] after lines 148-162. *)
Definition write_outcome (c : collection) (docs : list document) : bool :=
  match write_fault c docs with
  | Some e => is_BulkWriteError e
  | None => true
  end.

Section Engine.

Variable d : deployment.

(** One call to the outside.  SIGINT may arrive while it runs; the handler
    of lines 24-28 then sets [_stop] and logs. *)
Definition call (e : event) : M unit :=
  fun st =>
    let n := S (clock st) in
    if sigint d n
    then (Normal tt, set_stop true (set_clock n st),
          [e; EvSigint; EvLog Error MsgInterrupted])
    else (Normal tt, set_clock n st, [e]).

Definition answer {A} (fault : option exn) (a : A) : M A :=
  match fault with
  | Some e => raise e
  | None => ret a
  end.

Definition logger_info (m : message) : M unit := call (EvLog Info m).
Definition logger_warning (m : message) : M unit := call (EvLog Warning m).
Definition logger_error (m : message) : M unit := call (EvLog Error m).
Definition log_to_file (l : level) (m : message) : M unit := call (EvLogFile l m).

(** [logger.log_to_file(text)], lines 110 and 143: [log_to_file(self, level,
    message)] is given one argument, so the call itself raises. *)
Definition log_to_file_text {A} : M A := raise TypeError.

Definition progress_advance : M unit :=
  call EvAdvanceOverall;;
  n <- get overall;;
  modify (set_overall (S n)).

Definition MongoClient (s : side) : M side :=
  call (EvMongoClient s (bool_decide (client_fault d s = None)));;
  answer (client_fault d s) s.

Definition ping (s : side) : M unit :=
  call (EvPing s);; answer (ping_fault d s) tt.

Definition client_close (s : side) : M unit :=
  call (EvClientClose s);; answer (close_fault d s) tt.

(** Lines 32-37. *)
Definition _safe_close (client : option side) (name : side) : M unit :=
  try_except
    (match client with
     | Some c => client_close c
     | None => ret tt
     end)
    (fun _ => Some (logger_error (MsgCloseError name))).

Definition list_collection_names_target (c : collection) : M (list string) :=
  call (EvListCollections Target);;
  answer (list_target_fault c) tt;;
  db <- get target_db;;
  ret (elements (dom db)).

Definition create_collection (c : collection) : M unit :=
  call (EvCreateCollection (coll_name c));;
  answer (create_fault c) tt;;
  db <- get target_db;;
  match db !! coll_name c with
  | Some _ => raise OperationFailure
  | None => modify (set_target_db (<[coll_name c := []]> db))
  end.

(** [source_coll.find({}, no_cursor_timeout=True).batch_size(batch_size)]. *)
Definition find (c : collection) (batch_size : Z) : M unit :=
  let fault := if batch_size <? 0 then Some OtherError else find_fault c in
  call (EvFind (coll_name c) (bool_decide (fault = None)));;
  answer fault tt;;
  modify (set_cursor (stream c)).

(** [next(cursor)]. *)
Definition next (c : collection) : M document :=
  call (EvNext (coll_name c));;
  cur <- get cursor;;
  match cur with
  | [] => raise StopIteration
  | inl e :: rest => modify (set_cursor rest);; raise e
  | inr x :: rest => modify (set_cursor rest);; ret x
  end.

Definition cursor_close (c : collection) : M unit :=
  call (EvCursorClose (coll_name c));; answer (cursor_close_fault c) tt.

(** [target_coll.insert_many(docs, ordered=...)]. *)
Definition insert_many (c : collection) (docs : list document) (ordered : bool) : M unit :=
  call (EvInsertMany (coll_name c) docs);;
  answer (write_fault c docs) tt;;
  db <- get target_db;;
  let '(now, errs) :=
    bulk_insert ordered (rejects c) (default [] (db !! coll_name c)) docs in
  modify (set_target_db (<[coll_name c := now]> db));;
  match errs with
  | [] => ret tt
  | _ => raise (BulkWriteError errs)
  end.

Definition progress_update (c : collection) (advance : Z) : M unit :=
  call (EvUpdateTask (coll_name c) advance);;
  mc <- get migrated_count;;
  answer (update_fault c mc) tt.

(** ** The batch copier, lines 127-165 *)

Section Collection.

Variable c : collection.
Variable batch_size : Z.
Variable num_to_migrate : Z.

(** Lines 131-141: the [for _ in range(batch_size)] loop that fills [docs]. *)
Fixpoint fetch (n : nat) (docs : list document) : M (list document) :=
  match n with
  | O => ret docs
  | S n' =>
      mc <- get migrated_count;;
      if num_to_migrate <=? mc then ret docs
      else
        r <- try_except (x <- next c;; ret (Some (docs ++ [x])))
               (fun e =>
                  match e with
                  | StopIteration => Some (ret (Some docs))
                  | _ => Some (logger_error (MsgFetchError (coll_name c));; ret None)
                  end);;
        match r with
        | Some docs' => fetch n' docs'
        | None => ret docs
        end
  end.

(** Lines 151-156: one log line per write error, then the summary. *)
Fixpoint log_write_errors (codes : list Z) : M unit :=
  match codes with
  | [] => ret tt
  | code :: rest =>
      (if code =? duplicate_key
       then logger_warning (MsgDuplicate (coll_name c))
       else logger_error (MsgWriteError (coll_name c)));;
      log_write_errors rest
  end.

(** Lines 148-162: the write of one batch with its handlers; [false] is
    [break]. *)
Definition write_batch (docs : list document) : M bool :=
  try_except (insert_many c docs false;; ret true)
    (fun e =>
       match e with
       | BulkWriteError codes =>
           Some (log_write_errors codes;;
                 logger_warning (MsgBulkWriteError (coll_name c));;
                 ret true)
       | _ =>
           if is_PyMongoError e
           then Some (logger_error (MsgWriteError (coll_name c));; ret false)
           else Some (logger_error (MsgUnexpectedWrite (coll_name c));; ret false)
       end).

(** Lines 129-165: the body of the [while]; [false] is [break]. *)
Definition batch_iteration : M bool :=
  docs <- try_except (fetch (Z.to_nat batch_size) [])
            (fun _ => Some log_to_file_text);;
  match docs with
  | [] => ret false
  | _ =>
      written <- write_batch docs;;
      if written : bool then
        mc <- get migrated_count;;
        modify (set_migrated_count (mc + Z.of_nat (length docs)));;
        progress_update c (Z.of_nat (length docs));;
        ret true
      else ret false
  end.

(** Line 128: [while migrated_count < num_to_migrate and not _stop]. *)
Fixpoint batch_loop (fuel : nat) : M loop_end :=
  mc <- get migrated_count;;
  stop <- get _stop;;
  if (mc <? num_to_migrate) && negb stop then
    match fuel with
    | O => ret OutOfFuel
    | S fuel' =>
        go <- batch_iteration;;
        if go : bool then batch_loop fuel' else ret Finished
    end
  else ret Finished.

End Collection.

(** Lines 104-112: the source collection is empty. *)
Definition ensure_collection (c : collection) : M unit :=
  try_except
    (names <- list_collection_names_target c;;
     (if bool_decide (coll_name c ∈ names) then ret tt else create_collection c);;
     log_to_file Info (MsgCreatedEmpty (coll_name c)))
    (fun _ => Some log_to_file_text);;
  progress_advance.

(** Lines 127-172: the [try] around the [while], with its [finally]. *)
Definition copy_documents (batch_size num : Z) (c : collection) : M loop_end :=
  try_finally
    (try_except (batch_loop c batch_size num (Z.to_nat num))
       (fun _ => Some (logger_error (MsgMigrateError (coll_name c));; ret Finished)))
    (try_except (cursor_close c)
       (fun _ => Some (logger_error (MsgCursorCloseError (coll_name c))))).

(** Lines 114-175: a collection that has documents. *)
Definition migrate_collection (percentage batch_size total_docs : Z) (c : collection) : M unit :=
  num <- lift (num_to_migrate total_docs percentage);;
  log_to_file Info (MsgPlan (coll_name c) num total_docs);;
  call (EvAddTask (coll_name c) num);;
  modify (set_migrated_count 0);;
  ok <- try_except (find c batch_size;; ret true)
          (fun _ => Some (logger_error (MsgCursorError (coll_name c));;
                          progress_advance;; ret false));;
  if negb ok then ret tt else
  copy_documents batch_size num c;;
  progress_advance;;
  mc <- get migrated_count;;
  log_to_file Info (MsgCompleted (coll_name c) mc total_docs).

(** Lines 89-102: the handles of the collection and its estimated size;
    [None] is [continue]. *)
Definition count_documents (c : collection) : M (option Z) :=
  ok <- try_except (call (EvAccess (coll_name c));; answer (access_fault c) true)
          (fun _ => Some (logger_error (MsgAccessError (coll_name c));;
                          progress_advance;; ret false));;
  if negb ok then ret None else
  try_except
    (call (EvCount (coll_name c));;
     match estimated_document_count c with
     | inl e => raise e
     | inr n => ret (Some n)
     end)
    (fun _ => Some (logger_error (MsgCountError (coll_name c));;
                    progress_advance;; ret None)).

(** Lines 89-175: the body of [for coll_name in collections]. *)
Definition process_collection (percentage batch_size : Z) (c : collection) : M unit :=
  total <- count_documents c;;
  match total with
  | None => ret tt
  | Some total_docs =>
      if total_docs =? 0 then ensure_collection c
      else migrate_collection percentage batch_size total_docs c
  end.

(** Lines 85-174: [for coll_name in collections], with the poll of [_stop]. *)
Fixpoint collections_loop (percentage batch_size : Z) (cs : list collection) : M unit :=
  match cs with
  | [] => ret tt
  | c :: rest =>
      stop <- get _stop;;
      if stop : bool then ret tt
      else
        call (EvCollection (coll_name c));;
        process_collection percentage batch_size c;;
        collections_loop percentage batch_size rest
  end.

(** Lines 47-51. *)
Definition connect : M unit :=
  s <- MongoClient Source;;
  modify (set_source_client (Some s));;
  t <- MongoClient Target;;
  modify (set_target_client (Some t));;
  ping Source;;
  ping Target.

(** Lines 46-178: the body of the outer [try]; an early [return] ends it. *)
Definition migrate_body (percentage batch_size : Z) : M unit :=
  ok <- try_except (connect;; ret true)
          (fun e => if is_PyMongoError e
                    then Some (logger_error MsgConnectionError;; ret false)
                    else None);;
  if negb ok then ret tt else
  ok <- try_except (call EvDatabase;; answer (database_fault d) true)
          (fun _ => Some (logger_error MsgDatabaseError;; ret false));;
  if negb ok then ret tt else
  logger_info MsgStarting;;
  cs <- try_except
          (call (EvListCollections Source);;
           match list_source d with
           | inl e => raise e
           | inr l => ret (Some l)
           end)
          (fun _ => Some (logger_error MsgListError;; ret None));;
  match cs with
  | None => ret tt
  | Some [] => logger_warning MsgNoCollections
  | Some collections =>
      call (EvAddTask "Overall Migration" (Z.of_nat (length collections)));;
      modify (set_overall 0);;
      collections_loop percentage batch_size collections;;
      stop <- get _stop;;
      if stop : bool then ret tt else logger_info MsgComplete
  end.

(** Lines 183-185: the [finally] of [_migrate]. *)
Definition cleanup : M unit :=
  sc <- get source_client;;
  _safe_close sc Source;;
  tc <- get target_client;;
  _safe_close tc Target;;
  log_to_file Info MsgSeparator.

(** Lines 39-185. *)
Definition _migrate (percentage batch_size : Z) : M unit :=
  modify (set_source_client None);;
  modify (set_target_client None);;
  log_to_file Info MsgSeparator;;
  try_finally
    (try_except (migrate_body percentage batch_size)
       (fun _ => Some (logger_error MsgMigrationFailed)))
    cleanup.

(** [migrate] of db_migration_service.py, lines 31-58.  [sys.exit] raises
    [SystemExit], which no [except Exception] catches: it is the value the
    command ends with. *)
Definition migrate (direction : string) (percentage batch_size : Z) : M exit :=
  try_except
    (if negb ((1 <=? percentage) && (percentage <=? 100)) then
       logger_error MsgPercentage;; ret (SystemExit 1)
     else if String.eqb (lower direction) "to_local" then
       try_except
         (_migrate percentage batch_size;;
          logger_info MsgSuccess;;
          ret Returns)
         (fun _ => Some (logger_error MsgMigrationFailed;; ret (SystemExit 1)))
     else
       logger_error MsgUnknownDirection;; ret (SystemExit 1))
    (fun _ => Some (logger_error MsgUnexpected;; ret (SystemExit 1))).

End Engine.

(** * Vocabulary of the proofs *)

(** ** Relations between the state before, the events and the state after
    that compose along a run. *)

Definition run_relation := state -> list event -> state -> Prop.

Class Chain (R : run_relation) : Prop := {
  chain_nil : forall st, R st [] st;
  chain_app : forall s1 e1 s2 e2 s3, R s1 e1 s2 -> R s2 e2 s3 -> R s1 (e1 ++ e2) s3
}.

Definition obeys {A} (R : run_relation) (m : M A) : Prop :=
  forall st, R st (events (m st)) (final (m st)).

(** A projection of the state is left as it was. *)
Definition keeps {A} (f : state -> A) : run_relation :=
  fun st _ st' => f st' = f st.

(** Every event satisfies [P]. *)
Definition only (P : event -> Prop) : run_relation :=
  fun _ ev _ => Forall P ev.

Definition is_sigint (e : event) : bool :=
  match e with EvSigint => true | _ => false end.

(** [_stop] is set by the handler and by nothing else. *)
Definition stop_tracks : run_relation :=
  fun st ev st' => _stop st' = _stop st || existsb is_sigint ev.

Definition both (R1 R2 : run_relation) : run_relation :=
  fun st ev st' => R1 st ev st' /\ R2 st ev st'.

(** A computation that cannot raise. *)
Definition never_raises {A} (m : M A) : Prop :=
  forall st, exists a, result (m st) = Normal a.

(** The measure of the [while]: documents still to be counted. *)
Definition remaining (num : Z) (st : state) : nat := Z.to_nat (num - migrated_count st).

(** What a call leaves untouched. *)
Definition same_data (st st' : state) : Prop :=
  migrated_count st' = migrated_count st /\ target_db st' = target_db st /\
  overall st' = overall st /\ cursor st' = cursor st /\
  source_client st' = source_client st /\ target_client st' = target_client st.

(** What a call adds to the trace after its own event: nothing, or the
    handler of SIGINT. *)
Definition interrupted (tail : list event) : Prop :=
  tail = [] \/ tail = [EvSigint; EvLog Error MsgInterrupted].

Definition is_find (e : event) : bool :=
  match e with EvFind _ _ => true | _ => false end.

(** An event that reads the source or writes documents to the target. *)
Definition moves_documents (e : event) : bool :=
  is_find e || is_next e || is_insert e.

(** ** Concrete deployments *)

Module Demo.

Definition doc (i : Z) : document := Document i 0.

(** A cursor over [n] documents with the ids [0 .. n-1]. *)
Definition documents (n : nat) : list (exn + document) :=
  map (fun i => inr (doc (Z.of_nat i))) (seq 0 n).

(** A collection of [n] documents on servers that never fail. *)
Definition plain (name : string) (n : nat) : collection :=
  Collection name None (inr (Z.of_nat n)) None (documents n) None None None
    (fun _ => None) (fun _ => None) (fun _ => None).

(** Two reachable servers, no interrupt. *)
Definition servers (cs : list collection) : deployment :=
  Deployment (fun _ => None) (fun _ => None) None (inr cs) (fun _ => None)
    (fun _ => false).

(** An empty source collection that the target refuses to create. *)
Definition refused : collection :=
  Collection "empty" None (inr 0) None [] None None (Some OperationFailure)
    (fun _ => None) (fun _ => None) (fun _ => None).

End Demo.

(** ** Monitors: automata that read a trace *)

Definition scan {S} (step : S -> event -> S) (s : S) (ev : list event) : S :=
  fold_left step ev s.

(** Is a cursor open?  [find] opens one, [cursor.close()] releases it. *)
Definition cursor_step (open : bool) (e : event) : bool :=
  match e with
  | EvFind _ true => true
  | EvCursorClose _ => false
  | _ => open
  end.

(** No cursor is left open by the events of a run that started with none. *)
Definition releases_cursor : run_relation :=
  fun _ ev _ => scan cursor_step false ev = false.

(** The local variable of [_migrate] that holds the client of a side. *)
Definition handle (s : side) (st : state) : option side :=
  match s with
  | Source => source_client st
  | Target => target_client st
  end.

(** A client that was opened is in its local variable. *)
Definition remembers (s : side) : run_relation :=
  fun st ev st' =>
    handle s st = Some s \/ In (EvMongoClient s true) ev -> handle s st' = Some s.

(** [num_to_migrate] minus the exact ceiling. *)
Definition ceiling_gap (total p : Z) : option Z :=
  match num_to_migrate total p with
  | inr k => Some (k - exact_ceiling total p)
  | inl _ => None
  end.

(** The percentages from 1 to 100 at which [num_to_migrate] is one above
    the exact ceiling, for a collection of [total] documents. *)
Definition overshooting_percentages (total : Z) : list Z :=
  filter (fun p => ceiling_gap total p = Some 1) (map Z.of_nat (seq 1 100)).

(** The batches written, by collection and size, and the counts reported at
    the end of each collection (line 175). *)
Definition batches (ev : list event) : list (string * nat) :=
  flat_map (fun e => match e with
                     | EvInsertMany c docs => [(c, length docs)]
                     | _ => []
                     end) ev.

Definition reports (ev : list event) : list (string * Z * Z) :=
  flat_map (fun e => match e with
                     | EvLogFile _ (MsgCompleted c migrated total) => [(c, migrated, total)]
                     | _ => []
                     end) ev.

(** The copy of one collection, seen from its trace: batches are being
    copied; a write has failed with something that is not a
    [BulkWriteError]; that failure has been logged; or, after such a
    failure, the copy has nevertheless gone on with a fetch or a write. *)
Inductive copy_state := Copying | Failed | Logged | Resumed.

Definition is_write_error (m : message) : bool :=
  match m with
  | MsgWriteError _ | MsgUnexpectedWrite _ => true
  | _ => false
  end.

Definition abort_step (c : collection) (s : copy_state) (e : event) : copy_state :=
  match e with
  | EvInsertMany _ docs =>
      match s with
      | Copying => if write_outcome c docs then Copying else Failed
      | _ => Resumed
      end
  | EvNext _ =>
      match s with
      | Copying => Copying
      | _ => Resumed
      end
  | EvLog Error m =>
      match s with
      | Failed => if is_write_error m then Logged else Failed
      | _ => s
      end
  | _ => s
  end.

(** The copy is going on, or has been stopped by a logged failure. *)
Definition settled (s : copy_state) : Prop := s = Copying \/ s = Logged.

(** The messages logged at level [Error]. *)
Definition errors (ev : list event) : list message :=
  flat_map (fun e => match e with EvLog Error m => [m] | _ => [] end) ev.

Module Faulty.

(** Four documents; the validator of the target refuses the one with
    [_id] 0, with code 121 (document validation failure). *)
Definition strict : collection :=
  Collection "users" None (inr 4) None (Demo.documents 4) None None None
    (fun x => if doc_id x =? 0 then Some 121 else None)
    (fun _ => None) (fun _ => None).

(** Six documents; the connection to the target fails on the batch that
    holds the document with [_id] 2. *)
Definition flaky : collection :=
  Collection "users" None (inr 6) None (Demo.documents 6) None None None
    (fun _ => None)
    (fun docs => if has_id 2 docs then Some ConnectionFailure else None)
    (fun _ => None).

End Faulty.

(** ** The interrupt *)

(** The number of bulk inserts in a trace. *)
Definition inserts (ev : list event) : nat :=
  length (filter (fun e => is_insert e = true) ev).

(** What may follow the interrupt: at most one more batch written, and no
    collection begun. *)
Definition winds_down (post : list event) : Prop :=
  (inserts post <= 1)%nat /\ Forall (fun e => is_collection e = false) post.

(** Neither a write nor the start of a collection. *)
Definition silent (ev : list event) : Prop :=
  Forall (fun e => is_insert e = false /\ is_collection e = false) ev.

(** How a block of the program respects [_stop]: started after the flag was
    set it writes nothing and begins no collection; if the interrupt arrives
    while it runs, what it does afterwards winds down. *)
Definition heeds_stop : run_relation :=
  fun st ev st' =>
    stop_tracks st ev st' /\
    (_stop st = true -> silent ev) /\
    (forall pre post, ev = pre ++ EvSigint :: post -> winds_down post).

(** The same deployment with no interrupt. *)
Definition without_sigint (d : deployment) : deployment :=
  Deployment (client_fault d) (ping_fault d) (database_fault d) (list_source d)
    (close_fault d) (fun _ => false).

Module Interrupt.

(** Two reachable servers; SIGINT arrives during the call number [n]. *)
Definition servers (cs : list collection) (n : nat) : deployment :=
  Deployment (fun _ => None) (fun _ => None) None (inr cs) (fun _ => None)
    (fun k => Nat.eqb k n).

End Interrupt.

(** ** What the batches hold *)

(** The documents handed to [insert_many], batch after batch. *)
Definition handed (ev : list event) : list document :=
  flat_map (fun e => match e with EvInsertMany _ docs => docs | _ => [] end) ev.

(** The documents that a cursor still has to yield. *)
Definition yields (cur : list (exn + document)) : list document :=
  omap (fun a => match a with inr x => Some x | inl _ => None end) cur.

(** Every document taken from the cursor is handed to [insert_many], in the
    order of the cursor. *)
Definition follows_cursor : run_relation :=
  fun st ev st' => yields (cursor st) = handed ev ++ yields (cursor st').

(** A batch is not empty and not longer than [batch_size]. *)
Definition batch_sized (b : Z) (e : event) : Prop :=
  match e with
  | EvInsertMany _ docs => docs <> [] /\ Z.of_nat (length docs) <= b
  | _ => True
  end.

(** ** What the target keeps *)

(** The target only grows: what a collection held is still there, in front
    of what has been added. *)
Definition grows : run_relation :=
  fun st _ st' =>
    forall name l, target_db st !! name = Some l ->
      exists more, target_db st' !! name = Some (l ++ more).

(** ** A flag that is never cleared *)

(** The events of the work on a collection, and the line that reports the
    completion of the run. *)
Definition is_work (e : event) : bool :=
  match e with
  | EvCollection _ | EvAccess _ | EvCount _ | EvCreateCollection _
  | EvFind _ _ | EvNext _ | EvInsertMany _ _ | EvCursorClose _
  | EvAdvanceOverall | EvUpdateTask _ _ => true
  | EvLog Info MsgComplete => true
  | _ => false
  end.

(** A block started with [_stop] set leaves it set, leaves the target as it
    is and does no work. *)
Definition stays_stopped : run_relation :=
  fun st ev st' =>
    _stop st = true ->
    _stop st' = true /\ target_db st' = target_db st /\
    Forall (fun e => is_work e = false) ev.

(** ** A server that cannot be reached *)

(** The first failure of lines 48-51, if there is one. *)
Definition connect_fault (d : deployment) : option exn :=
  match client_fault d Source with
  | Some e => Some e
  | None =>
      match client_fault d Target with
      | Some e => Some e
      | None =>
          match ping_fault d Source with
          | Some e => Some e
          | None => ping_fault d Target
          end
      end
  end.

(** An event that uses a database of either server. *)
Definition uses_database (e : event) : bool :=
  match e with
  | EvDatabase | EvListCollections _ | EvAddTask _ _ => true
  | _ => is_work e
  end.

(** ** The overall progress *)

Definition is_advance (e : event) : bool :=
  match e with EvAdvanceOverall => true | _ => false end.

(** How many times [progress.advance(overall_task)] is called. *)
Definition advances (ev : list event) : nat :=
  length (filter (fun e => is_advance e = true) ev).

(** ** The copy when nothing fails *)

(** The plan rounded up to whole batches. *)
Definition rounded_up (num b : Z) : Z := b * ((num + b - 1) / b).

(** A collection whose cursor yields [docs], and on which no write and no
    progress update fails in a way that ends the loop. *)
Definition steady (c : collection) (docs : list document) : Prop :=
  access_fault c = None /\ find_fault c = None /\
  stream c = map inr docs /\
  (forall batch, write_outcome c batch = true) /\
  (forall n, update_fault c n = None).

(** ** Where the batches end up *)

(** The documents of the target collection of [c]. *)
Definition content (c : collection) (st : state) : list document :=
  default [] (target_db st !! coll_name c).

(** A target that takes every write: [insert_many] does not fail and no
    document is refused. *)
Definition accepts_all (c : collection) : Prop :=
  (forall batch, write_fault c batch = None) /\ (forall x, rejects c x = None).

(** Batches whose [_id]s are new are appended to the target collection. *)
Definition appends (c : collection) : run_relation :=
  fun st ev st' =>
    NoDup (map doc_id (content c st ++ handed ev)) ->
    content c st' = content c st ++ handed ev.

(** * The process: imports and the SIGINT handler

    [db_migrator.py] (line 30) and [app_endpoints_fetcher.py] (line 28) each
    end their module body with [signal.signal(signal.SIGINT, handle_sigint)],
    each for its own [handle_sigint] and its own global [_stop].  What the
    process does on SIGINT depends on the order in which the modules are
    imported. *)

Module Process.

Inductive py_module :=
| app
| db_migration_service
| db_migrator
| flask_helper_service
| app_endpoints_fetcher
| logger_utils.

#[global] Instance py_module_eq_dec : EqDecision py_module.
Proof. solve_decision. Defined.

(** What [signal.getsignal(signal.SIGINT)] is. *)
Inductive disposition :=
| default_int_handler                       (* raises KeyboardInterrupt *)
| migrator_handle_sigint                    (* db_migrator.handle_sigint *)
| fetcher_handle_sigint.                    (* app_endpoints_fetcher.handle_sigint *)

Record process := Process {
  sys_modules : py_module -> bool;          (* the modules already imported *)
  on_sigint : disposition;
  migrator_stop : bool;                     (* db_migrator._stop *)
  fetcher_stop : bool                       (* app_endpoints_fetcher._stop *)
}.

(** The modules of the package that a module imports, in the order of its
    import statements. *)
Definition imports (m : py_module) : list py_module :=
  match m with
  | app => [db_migration_service; flask_helper_service]
  | db_migration_service => [db_migrator; logger_utils]
  | db_migrator => [logger_utils]
  | flask_helper_service => [app_endpoints_fetcher; logger_utils]
  | app_endpoints_fetcher => [logger_utils]
  | logger_utils => []
  end.

(** The rest of the module body: [_stop = False] and [signal.signal]. *)
Definition body (m : py_module) (p : process) : process :=
  match m with
  | db_migrator => Process (sys_modules p) migrator_handle_sigint false (fetcher_stop p)
  | app_endpoints_fetcher => Process (sys_modules p) fetcher_handle_sigint (migrator_stop p) false
  | _ => p
  end.

Definition enter (m : py_module) (p : process) : process :=
  Process (fun x => if decide (x = m) then true else sys_modules p x)
    (on_sigint p) (migrator_stop p) (fetcher_stop p).

(** [import m]: nothing if [m] is in [sys.modules]; otherwise the module is
    entered there and its body runs.  [depth] bounds the nesting of imports
    (3 in this package). *)
Fixpoint import_module (depth : nat) (m : py_module) (p : process) : process :=
  if sys_modules p m then p
  else
    match depth with
    | O => p
    | S depth' =>
        body m (fold_left (fun q m' => import_module depth' m' q) (imports m) (enter m p))
    end.

(** The interpreter starts [devfrnd] by importing [app.py]. *)
Definition start : process -> process := import_module 4 app.

(** Ctrl+C: the installed handler runs (lines 24-28 of either module). *)
Definition deliver_sigint (p : process) : process :=
  match on_sigint p with
  | default_int_handler => p
  | migrator_handle_sigint => Process (sys_modules p) (on_sigint p) true (fetcher_stop p)
  | fetcher_handle_sigint => Process (sys_modules p) (on_sigint p) (migrator_stop p) true
  end.

End Process.

(** * The Flask command

    [flask_endpoint_fetcher] of [flask_helper_utils/app_endpoints_fetcher.py]
    and the command [flask_endpoints] of [router/flask_helper_service.py].
    The code is sequential; its state is the flag [_stop] of the module and
    [sys.path].  Every call to the outside (logger, progress bar, importlib,
    pandas, json, the console) is recorded in a trace, and SIGINT may arrive
    during any of them. *)

Module Flask.

Inductive exn :=
| ImportError
| ValueError                                (* too many values to unpack *)
| TypeError                                 (* 'NoneType' object is not iterable *)
| AttributeError
| OtherError.

(** A rule of [app.url_map]. *)
Record rule := Rule {
  endpoint : string;                        (* rule.endpoint *)
  blueprint : option string;                (* rule.blueprint, if the attribute exists *)
  methods : option (list string);           (* rule.methods, in iteration order; or None *)
  url : string                              (* str(rule) *)
}.

(** An element of [endpoints] (lines 93-98). *)
Record row := Row {
  row_blueprint : string;
  row_endpoint : string;
  row_method : string;
  row_url : string
}.

(** What [getattr(module, app_attr, None)] gives when it is not [None]. *)
Record application := Application {
  truth : exn + bool;                       (* bool(app) *)
  iter_rules : exn + list rule              (* list(app.url_map.iter_rules()) *)
}.

(** The log lines of the two modules, by call site. *)
Inductive message :=
| MsgStarting
| MsgAllowed (allowed : list string)
| MsgTotalRules (n : nat)
| MsgFetching (blueprint_name : string) (allowed : list string)
| MsgProcessing (idx total : nat) (r : string)
| MsgPartial
| MsgSkipBlueprint (e : string)
| MsgSkipStatic
| MsgRuleMethods (e : string) (ms : list string)
| MsgCollected (n : nat)
| MsgWritingExcel
| MsgDumped
| MsgNoEndpoints
| MsgPrinting
| MsgDumpingJson
| MsgUnknownOutput (output : string)
| MsgFetchFailed
| MsgInterrupted
| MsgCwd (cwd : string)
| MsgFormat
| MsgImported (module_name : string)
| MsgImportFailed (module_name : string)
| MsgRetrieved (app_attr module_name : string)
| MsgNoAttribute (app_attr module_name : string)
| MsgNotApp
| MsgRetrieveFailed
| MsgFetcherFailed
| MsgUnexpected.

Inductive event :=
| Log (l : level) (m : message)             (* logger.info/success/warning/error *)
| LogFile (l : level) (m : message)         (* logger.log_to_file *)
| Getcwd
| ImportModule (module_name : string)
| Getattr (module_name app_attr : string)
| PrintApp                                   (* print(app_obj) *)
| IterRules
| AddTask (total : nat)
| Advance
| WriteExcel (rows : list row)              (* lines 106-116, pandas and xlsxwriter *)
| PrintConsole (rows : list row)            (* lines 122-125 *)
| WriteJson (rows : list row)               (* lines 129-130 *)
| Sigint.                                   (* handle_sigint runs *)

(** The outside. *)
Record env := Env {
  sigint : nat -> bool;                     (* SIGINT arrives during the n-th call *)
  getcwd : string;
  import_module : string -> exn + (string -> option application);
  excel_fault : option exn;
  json_fault : option exn
}.

Record world := World {
  _stop : bool;                             (* the module global *)
  clock : nat;                              (* calls issued so far *)
  sys_path : list string;
  trace : list event
}.

Section Program.

Variable E : env.

(** One call to the outside; SIGINT may arrive while it runs (lines 22-26). *)
Definition call (e : event) (w : world) : world :=
  let n := S (clock w) in
  if sigint E n
  then World true n (sys_path w) (trace w ++ [e; Sigint; Log Error MsgInterrupted])
  else World (_stop w) n (sys_path w) (trace w ++ [e]).

Definition info (m : message) : world -> world := call (Log Info m).
Definition success (m : message) : world -> world := call (Log Info m).
Definition warning (m : message) : world -> world := call (Log Warning m).
Definition error (m : message) : world -> world := call (Log Error m).
Definition log_to_file (l : level) (m : message) : world -> world := call (LogFile l m).

(** Truth value of an [Optional[bool]] flag. *)
Definition truthy (flag : option bool) : bool := default false flag.

(** Lines 51-55. *)
Definition allowed_methods (get post put delete patch : option bool) : list string :=
  map fst
    (List.filter (fun mf => truthy (snd mf))
       (zip ["GET"; "POST"; "PUT"; "DELETE"; "PATCH"]%string
            [get; post; put; delete; patch])).

(** [sep in s], for a separator of one character. *)
Fixpoint contains (sep : ascii) (s : string) : bool :=
  match s with
  | EmptyString => false
  | String a r => Ascii.eqb a sep || contains sep r
  end.

(** [s.split(sep)], for a separator of one character. *)
Fixpoint split (sep : ascii) (s : string) : list string :=
  match s with
  | EmptyString => [EmptyString]
  | String a r =>
      if Ascii.eqb a sep then EmptyString :: split sep r
      else
        match split sep r with
        | x :: xs => String a x :: xs
        | [] => [String a EmptyString]
        end
  end.

(** Line 94: [rule.endpoint.split(".")[0] if "." in rule.endpoint else "root"]. *)
Definition blueprint_of (e : string) : string :=
  if contains "." e then
    match split "." e with
    | x :: _ => x
    | [] => EmptyString
    end
  else "root".

(** Line 80: the rule belongs to the blueprint asked for. *)
Definition in_blueprint (blueprint_name : string) (r : rule) : bool :=
  String.prefix (blueprint_name ++ ".") (endpoint r)
  || match blueprint r with
     | Some b => String.eqb b blueprint_name
     | None => false
     end.

Definition make_row (r : rule) (method : string) : row :=
  Row (blueprint_of (endpoint r)) (endpoint r) method (url r).

Definition is_allowed (allowed : list string) (m : string) : bool :=
  bool_decide (m ∈ allowed).

Section Rules.

Variable allowed : list string.
Variable blueprint_name : string.
Variable total_rules : nat.

(** Lines 73-99: [for idx, rule in enumerate(rules)], from the rule number
    [idx] on.  An exception leaves the loop. *)
Fixpoint rules_loop (idx : nat) (rules : list rule) (endpoints : list row) (w : world)
  : (exn + list row) * world :=
  match rules with
  | [] => (inr endpoints, w)
  | r :: rest =>
      let w := info (MsgProcessing (S idx) total_rules (url r)) w in
      if _stop w then (inr endpoints, warning MsgPartial w)
      else if negb (String.eqb blueprint_name "") && negb (in_blueprint blueprint_name r) then
        rules_loop (S idx) rest endpoints
          (call Advance (info (MsgSkipBlueprint (endpoint r)) w))
      else if String.eqb (endpoint r) "static" then
        rules_loop (S idx) rest endpoints (call Advance (info MsgSkipStatic w))
      else
        match methods r with
        | None => (inl TypeError, w)
        | Some ms =>
            let rule_methods := List.filter (is_allowed allowed) ms in
            let w := info (MsgRuleMethods (endpoint r) rule_methods) w in
            rules_loop (S idx) rest (endpoints ++ map (make_row r) rule_methods)
              (call Advance w)
        end
  end.

End Rules.

(** Lines 102-133: the three output formats. *)
Definition write_output (output : string) (endpoints : list row) (w : world)
  : option exn * world :=
  if String.eqb output "excel" then
    match endpoints with
    | [] => (None, warning MsgNoEndpoints w)
    | _ =>
        let w := call (WriteExcel endpoints) (info MsgWritingExcel w) in
        match excel_fault E with
        | Some e => (Some e, w)
        | None => (None, success MsgDumped w)
        end
    end
  else if String.eqb output "console" then
    (None, call (PrintConsole endpoints) (info MsgPrinting w))
  else if String.eqb output "json" then
    let w := call (WriteJson endpoints) (info MsgDumpingJson w) in
    match json_fault E with
    | Some e => (Some e, w)
    | None => (None, success MsgDumped w)
    end
  else (None, warning (MsgUnknownOutput output) w).

(** Lines 50-133: the body of the [try]; [Some e] is the exception that
    leaves it. *)
Definition fetch_body (a : application) (get post put delete patch : option bool)
    (blueprint_name output : string) (w : world) : option exn * world :=
  let allowed := allowed_methods get post put delete patch in
  let w := info (MsgAllowed allowed) w in
  let w := call IterRules w in
  match iter_rules a with
  | inl e => (Some e, w)
  | inr rules =>
      let total_rules := length rules in
      let w := info (MsgTotalRules total_rules) w in
      let w := info (MsgFetching blueprint_name allowed) w in
      let w := call (AddTask total_rules) w in
      match rules_loop allowed blueprint_name total_rules 0 rules [] w with
      | (inl e, w) => (Some e, w)
      | (inr endpoints, w) =>
          let w := info (MsgCollected (length endpoints)) w in
          write_output output endpoints w
      end
  end.

(** Lines 30-136.  Nothing is raised and nothing is returned:
    [except Exception] logs the error. *)
Definition flask_endpoint_fetcher (a : application)
    (get post put delete patch : option bool) (blueprint_name output : string)
    (w : world) : world :=
  let w := info MsgStarting w in
  match fetch_body a get post put delete patch blueprint_name output w with
  | (Some _, w) => error MsgFetchFailed w
  | (None, w) => w
  end.

Definition set_sys_path (l : list string) (w : world) : world :=
  World (_stop w) (clock w) l (trace w).

(** Lines 34-55 of the command: the application named by
    [module:attribute]; [inl] is the exit taken instead, [inr (inl e)] an
    exception that reaches the outer handler. *)
Definition load_app (app_import_path : string) (w : world)
  : (exit + (exn + application)) * world :=
  if negb (contains ":" app_import_path) then
    (inl (SystemExit 1), error MsgFormat w)
  else
    match split ":" app_import_path with
    | [module_name; app_attr] =>
        let w := call (ImportModule module_name) w in
        match import_module E module_name with
        | inl ImportError => (inl (SystemExit 1), error (MsgImportFailed module_name) w)
        | inl e => (inr (inl e), w)
        | inr module =>
            let w := log_to_file Info (MsgImported module_name) w in
            let w := call (Getattr module_name app_attr) w in
            let w := log_to_file Info (MsgRetrieved app_attr module_name) w in
            let w := call PrintApp w in
            match module app_attr with
            | None => (inl (SystemExit 1), error (MsgNoAttribute app_attr module_name) w)
            | Some a =>
                match truth a with
                | inl _ => (inl (SystemExit 1), error MsgRetrieveFailed w)
                | inr false => (inl (SystemExit 1), error MsgNotApp w)
                | inr true => (inr (inr a), w)
                end
            end
        end
    | _ => (inr (inl ValueError), w)
    end.

(** [flask_endpoints], lines 19-74 of [flask_helper_service.py].  The
    fetcher raises nothing, so the handler of lines 68-70 has nothing to
    catch. *)
Definition flask_endpoints (app_import_path output : string)
    (get post put delete patch : bool) (blueprint_name : string) (w : world)
  : exit * world :=
  let w := call Getcwd w in
  let cwd := getcwd E in
  let w := log_to_file Info (MsgCwd cwd) w in
  let w := if bool_decide (cwd ∈ sys_path w) then w
           else set_sys_path (cwd :: sys_path w) w in
  match load_app app_import_path w with
  | (inl x, w) => (x, w)
  | (inr (inl _), w) => (SystemExit 1, error MsgUnexpected w)
  | (inr (inr a), w) =>
      (Returns,
       flask_endpoint_fetcher a (Some get) (Some post) (Some put) (Some delete)
         (Some patch) blueprint_name output w)
  end.

End Program.

End Flask.

(** ** What a run of the fetcher shows *)

(** The rule passes the filters of lines 79-88. *)
Definition kept (blueprint_name : string) (r : Flask.rule) : bool :=
  (String.eqb blueprint_name "" || Flask.in_blueprint blueprint_name r)
  && negb (String.eqb (Flask.endpoint r) "static").

(** The rows that one rule contributes. *)
Definition rows_of (allowed : list string) (blueprint_name : string) (r : Flask.rule)
  : list Flask.row :=
  if kept blueprint_name r then
    map (Flask.make_row r)
      (List.filter (Flask.is_allowed allowed) (default [] (Flask.methods r)))
  else [].

(** How many times the progress bar was advanced. *)
Definition bar (ev : list Flask.event) : nat :=
  length (List.filter (fun e => match e with Flask.Advance => true | _ => false end) ev).

(** The lists of rows handed to pandas, to the console or to json. *)
Definition written (ev : list Flask.event) : list (list Flask.row) :=
  flat_map (fun e => match e with
                     | Flask.WriteExcel rows | Flask.PrintConsole rows
                     | Flask.WriteJson rows => [rows]
                     | _ => []
                     end) ev.

(** How the fetcher says it ended: the count of line 101 and the error of
    line 136. *)
Definition verdict (ev : list Flask.event) : list Flask.message :=
  flat_map (fun e => match e with
                     | Flask.Log Info (Flask.MsgCollected n) => [Flask.MsgCollected n]
                     | Flask.Log Error Flask.MsgFetchFailed => [Flask.MsgFetchFailed]
                     | _ => []
                     end) ev.

(** The modules that [importlib.import_module] was asked for. *)
Definition imported (ev : list Flask.event) : list string :=
  flat_map (fun e => match e with
                     | Flask.ImportModule m => [m]
                     | _ => []
                     end) ev.

(** From [w] to [w'] the events [ev] were added; [_stop] is never cleared,
    it is set only by the handler, and the handler runs only when the signal
    arrives. *)
Definition passes (E : Flask.env) (w w' : Flask.world) (ev : list Flask.event) : Prop :=
  Flask.trace w' = Flask.trace w ++ ev /\
  (Flask._stop w = true -> Flask._stop w' = true) /\
  (Flask._stop w' = true -> Flask._stop w = true \/ In Flask.Sigint ev) /\
  (In Flask.Sigint ev -> exists n, Flask.sigint E n = true).

(** What the handler adds to the trace during a call. *)
Definition handler_ran (tail : list Flask.event) : Prop :=
  tail = [] \/ tail = [Flask.Sigint; Flask.Log Error Flask.MsgInterrupted].

(** What the loop over [rules], started in [w] with [endpoints], may end
    with: the rows of the first [k] rules have been added and the bar was
    advanced [k] times. *)
Definition loop_outcome (E : Flask.env) (allowed : list string) (blueprint_name : string)
    (rules : list Flask.rule) (endpoints : list Flask.row) (w : Flask.world)
    (res : Flask.exn + list Flask.row) (w' : Flask.world) : Prop :=
  exists k ev,
    (k <= length rules)%nat /\ passes E w w' ev /\
    bar ev = k /\ written ev = [] /\ verdict ev = [] /\ imported ev = [] /\
    (Flask._stop w = true -> k = 0%nat /\ res = inr endpoints) /\
    match res with
    | inr out =>
        out = endpoints ++ flat_map (rows_of allowed blueprint_name) (take k rules) /\
        (k < length rules -> Flask._stop w' = true)%nat
    | inl e =>
        e = Flask.TypeError /\
        exists r, rules !! k = Some r /\ kept blueprint_name r = true /\
                  Flask.methods r = None
    end.

(** What the writer of [output] is handed, and how it ends (lines 102-133). *)
Definition writer_outcome (E : Flask.env) (output : string) (endpoints : list Flask.row)
    (handed_over : list (list Flask.row)) (r : option Flask.exn) : Prop :=
  (output = "excel"%string /\ endpoints = [] /\ handed_over = [] /\ r = None) \/
  (output = "excel"%string /\ endpoints <> [] /\ handed_over = [endpoints] /\
   r = Flask.excel_fault E) \/
  (output = "console"%string /\ handed_over = [endpoints] /\ r = None) \/
  (output = "json"%string /\ handed_over = [endpoints] /\ r = Flask.json_fault E) \/
  (output <> "excel"%string /\ output <> "console"%string /\ output <> "json"%string /\
   handed_over = [] /\ r = None).

(** The import path names an application: it has one colon, the module can be
    imported, and the attribute is there and is true. *)
Definition names_app (E : Flask.env) (app_import_path : string) (a : Flask.application)
  : Prop :=
  exists module_name app_attr module,
    app_import_path = (module_name ++ ":" ++ app_attr)%string /\
    Flask.contains ":" module_name = false /\ Flask.contains ":" app_attr = false /\
    Flask.import_module E module_name = inr module /\
    module app_attr = Some a /\ Flask.truth a = inr true.

(** A small application for the examples: the static files, a home page and
    a view of the blueprint [api]; it is the attribute [app] of the module
    [shop]. *)
Module FlaskDemo.

Definition rules : list Flask.rule :=
  [ Flask.Rule "static" None (Some ["GET"; "HEAD"; "OPTIONS"]%string)
      "/static/<path:filename>";
    Flask.Rule "index" None (Some ["GET"; "HEAD"; "OPTIONS"]%string) "/";
    Flask.Rule "api.items" None (Some ["GET"; "POST"; "OPTIONS"]%string) "/api/items" ].

Definition app : Flask.application := Flask.Application (inr true) (inr rules).

(** No interrupt, no failure of the writers. *)
Definition quiet : Flask.env :=
  Flask.Env (fun _ => false) "/srv"
    (fun module_name =>
       if String.eqb module_name "shop"
       then inr (fun app_attr => if String.eqb app_attr "app" then Some app else None)
       else inl Flask.ImportError)
    None None.

Definition fresh : Flask.world := Flask.World false 0 [] [].

(** The process after an interrupt. *)
Definition stopped : Flask.world := Flask.World true 0 [] [].

End FlaskDemo.

(** * Reasoning about runs *)

#[global] Instance keeps_chain {A} (f : state -> A) : Chain (keeps f).
Proof.
  split; unfold keeps; [reflexivity | intros; congruence].
Qed.

#[global] Instance only_chain (P : event -> Prop) : Chain (only P).
Proof.
  split; unfold only; intros.
  - constructor.
  - apply Forall_app; auto.
Qed.

#[global] Instance stop_tracks_chain : Chain stop_tracks.
Proof.
  split; unfold stop_tracks; intros.
  - simpl. now rewrite orb_false_r.
  - rewrite existsb_app, H0, H. now rewrite orb_assoc.
Qed.

#[global] Instance both_chain R1 R2 `{!Chain R1, !Chain R2} : Chain (both R1 R2).
Proof.
  split; unfold both; intros.
  - split; apply chain_nil.
  - destruct H, H0. split; eapply chain_app; eauto.
Qed.

Section Obeys.

Context (R : run_relation) `{!Chain R}.

Lemma obeys_ret {A} (a : A) : obeys R (ret a).
Proof. intros st. apply chain_nil. Qed.

Lemma obeys_raise {A} (e : exn) : obeys R (@raise A e).
Proof. intros st. apply chain_nil. Qed.

Lemma obeys_get {A} (f : state -> A) : obeys R (get f).
Proof. intros st. apply chain_nil. Qed.

Lemma obeys_bind {A B} (m : M A) (f : A -> M B) :
  obeys R m -> (forall a, obeys R (f a)) -> obeys R (bind m f).
Proof.
  intros Hm Hf st. specialize (Hm st). unfold bind, events, final in *.
  destruct (m st) as [[[a|e] st1] ev1]; simpl in *; auto.
  specialize (Hf a st1). unfold events, final in Hf.
  destruct (f a st1) as [[r st2] ev2]; simpl in *.
  eapply chain_app; eauto.
Qed.

Lemma obeys_try_except {A} (m : M A) (h : exn -> option (M A)) :
  obeys R m ->
  (forall e, match h e with Some k => obeys R k | None => True end) ->
  obeys R (try_except m h).
Proof.
  intros Hm Hh st. specialize (Hm st). unfold try_except, events, final in *.
  destruct (m st) as [[[a|e] st1] ev1]; simpl in *; auto.
  specialize (Hh e). destruct (h e) as [k|]; simpl; auto.
  specialize (Hh st1). unfold events, final in Hh.
  destruct (k st1) as [[r st2] ev2]; simpl in *.
  eapply chain_app; eauto.
Qed.

Lemma obeys_try_finally {A} (m : M A) (f : M unit) :
  obeys R m -> obeys R f -> obeys R (try_finally m f).
Proof.
  intros Hm Hf st. specialize (Hm st). unfold try_finally, events, final in *.
  destruct (m st) as [[r st1] ev1]; simpl in *.
  specialize (Hf st1). unfold events, final in Hf.
  destruct (f st1) as [[r2 st2] ev2]; simpl in *.
  eapply chain_app; eauto.
Qed.

Lemma obeys_answer {A} (fault : option exn) (a : A) : obeys R (answer fault a).
Proof. destruct fault; [apply obeys_raise | apply obeys_ret]. Qed.

Lemma obeys_lift {A} (r : PyFloat.arith_error + A) : obeys R (lift r).
Proof. destruct r; [apply obeys_raise | apply obeys_ret]. Qed.

Lemma obeys_log_to_file_text {A} : obeys R (@log_to_file_text A).
Proof. apply obeys_raise. Qed.

End Obeys.

(** What [call] and [modify] need, relation by relation. *)

Lemma call_cases d e st :
  call d e st = (Normal tt, set_clock (S (clock st)) st, [e]) \/
  call d e st = (Normal tt, set_stop true (set_clock (S (clock st)) st),
                 [e; EvSigint; EvLog Error MsgInterrupted]).
Proof. unfold call. destruct (sigint d (S (clock st))); auto. Qed.

Lemma keeps_call {A} (f : state -> A) d e :
  (forall b n st, f (set_stop b (set_clock n st)) = f st) ->
  (forall n st, f (set_clock n st) = f st) ->
  obeys (keeps f) (call d e).
Proof.
  intros H1 H2 st. unfold keeps.
  destruct (call_cases d e st) as [-> | ->]; unfold events, final; simpl; auto.
Qed.

Lemma keeps_modify {A} (f : state -> A) g :
  (forall st, f (g st) = f st) -> obeys (keeps f) (modify g).
Proof. intros H st. apply H. Qed.

Lemma only_call (P : event -> Prop) d e :
  P e -> P EvSigint -> P (EvLog Error MsgInterrupted) -> obeys (only P) (call d e).
Proof.
  intros H1 H2 H3 st. unfold only.
  destruct (call_cases d e st) as [-> | ->]; unfold events; simpl; repeat constructor; auto.
Qed.

Lemma only_modify (P : event -> Prop) g : obeys (only P) (modify g).
Proof. intros st. constructor. Qed.

Lemma stop_tracks_call d e : is_sigint e = false -> obeys stop_tracks (call d e).
Proof.
  intros He st. unfold stop_tracks.
  destruct (call_cases d e st) as [-> | ->]; unfold events, final; simpl; rewrite He; simpl.
  - now rewrite orb_false_r.
  - now rewrite orb_true_r.
Qed.

Lemma stop_tracks_modify g :
  (forall st, _stop (g st) = _stop st) -> obeys stop_tracks (modify g).
Proof. intros H st. unfold stop_tracks, events, final. simpl. now rewrite H, orb_false_r. Qed.

Lemma both_obeys {A} R1 R2 (m : M A) : obeys R1 m -> obeys R2 m -> obeys (both R1 R2) m.
Proof. intros H1 H2 st. split; auto. Qed.

(** ** Monitors *)

Lemma scan_cons {S} (step : S -> event -> S) s e ev :
  scan step s (e :: ev) = scan step (step s e) ev.
Proof. reflexivity. Qed.

Lemma scan_nil {S} (step : S -> event -> S) s : scan step s [] = s.
Proof. reflexivity. Qed.

Lemma scan_app {S} (step : S -> event -> S) s a b :
  scan step s (a ++ b) = scan step (scan step s a) b.
Proof. apply fold_left_app. Qed.

Lemma scan_inert {S} (step : S -> event -> S) s ev :
  Forall (fun e => forall s, step s e = s) ev -> scan step s ev = s.
Proof.
  intros H. revert s. induction H as [|e ev He _ IH]; intros s; simpl; [reflexivity|].
  rewrite He. apply IH.
Qed.

#[global] Instance releases_cursor_chain : Chain releases_cursor.
Proof.
  split; unfold releases_cursor; intros.
  - reflexivity.
  - rewrite scan_app, H. assumption.
Qed.

Lemma releases_cursor_call d e :
  cursor_step false e = false -> obeys releases_cursor (call d e).
Proof.
  intros He st. unfold releases_cursor.
  destruct (call_cases d e st) as [-> | ->]; unfold events; simpl; now rewrite He.
Qed.

Lemma releases_cursor_modify g : obeys releases_cursor (modify g).
Proof. intros st. reflexivity. Qed.

#[global] Instance remembers_chain s : Chain (remembers s).
Proof.
  split; unfold remembers; intros.
  - destruct H as [H|[]]. exact H.
  - apply H0. destruct H1 as [H1|H1].
    + left. apply H. now left.
    + apply in_app_or in H1 as [H1|H1]; [left; apply H; now right | now right].
Qed.

Lemma remembers_call s d e :
  e <> EvMongoClient s true -> obeys (remembers s) (call d e).
Proof.
  intros He st. unfold remembers.
  destruct (call_cases d e st) as [-> | ->]; unfold events, final; simpl;
    intros [H|H]; try (destruct s; exact H); exfalso;
    repeat (destruct H as [H|H]; [congruence|]); exact H.
Qed.

Lemma remembers_modify s g :
  (forall st, handle s (g st) = handle s st) -> obeys (remembers s) (modify g).
Proof.
  intros Hg st. unfold remembers, events, final. simpl.
  intros [H|[]]. now rewrite Hg.
Qed.

(** ** Blocks that poll the flag *)

Lemma inserts_app a b : inserts (a ++ b) = (inserts a + inserts b)%nat.
Proof. unfold inserts. now rewrite filter_app, length_app. Qed.

Lemma silent_inserts ev : silent ev -> inserts ev = 0%nat.
Proof.
  unfold silent, inserts. induction 1 as [|e ev [He _] _ IH]; [reflexivity|].
  rewrite filter_cons. destruct (decide (is_insert e = true)); [congruence | exact IH].
Qed.

Lemma silent_winds_down ev : silent ev -> winds_down ev.
Proof.
  intros H. split.
  - rewrite (silent_inserts _ H). lia.
  - eapply Forall_impl; [exact H|]. now intros e [_ He].
Qed.

Lemma silent_app a b : silent a -> silent b -> silent (a ++ b).
Proof. intros Ha Hb. apply Forall_app. now split. Qed.

Lemma silent_suffix a b : silent (a ++ b) -> silent b.
Proof. intros H. apply Forall_app in H. tauto. Qed.

Lemma winds_down_then_silent a b : winds_down a -> silent b -> winds_down (a ++ b).
Proof.
  intros [Hi Hc] Hb. split.
  - rewrite inserts_app, (silent_inserts _ Hb). lia.
  - apply Forall_app. split; [exact Hc|].
    eapply Forall_impl; [exact Hb|]. now intros e [_ He].
Qed.

Lemma has_sigint_split pre post : existsb is_sigint (pre ++ EvSigint :: post) = true.
Proof. rewrite existsb_app. simpl. now rewrite orb_true_r. Qed.

(** Composition when the first block is only known to behave while the flag
    is clear; the second heeds the flag. *)
Lemma heeds_stop_after st1 ev1 st2 ev2 st3 :
  stop_tracks st1 ev1 st2 ->
  (forall pre post, ev1 = pre ++ EvSigint :: post -> winds_down post) ->
  heeds_stop st2 ev2 st3 ->
  stop_tracks st1 (ev1 ++ ev2) st3 /\
  (forall pre post, ev1 ++ ev2 = pre ++ EvSigint :: post -> winds_down post).
Proof.
  intros Ht H1 (Ht2 & Hs2 & H2). split; [eapply chain_app; eauto|].
  intros pre post Heq. apply app_eq_app in Heq as [l [[Ha Hb] | [Ha Hb]]].
  - destruct l as [|x l]; simpl in Hb.
    + apply (H2 []). now rewrite <- Hb.
    + injection Hb as <- ->. rewrite Ha in *.
      apply winds_down_then_silent; [eapply H1; reflexivity|].
      apply Hs2. unfold stop_tracks in Ht. rewrite Ht, has_sigint_split.
      apply orb_true_r.
  - eapply H2. exact Hb.
Qed.

#[global] Instance heeds_stop_chain : Chain heeds_stop.
Proof.
  split.
  - intros st. split; [apply chain_nil|]. split; [constructor|].
    intros [|] ? [=].
  - intros s1 e1 s2 e2 s3 (Ht1 & Hs1 & H1) H2.
    destruct (heeds_stop_after _ _ _ _ _ Ht1 H1 H2) as [Ht Hsp].
    split; [exact Ht|]. split; [|exact Hsp].
    intros Hstop. apply silent_app; [auto|].
    destruct H2 as (_ & Hs2 & _). apply Hs2.
    unfold stop_tracks in Ht1. rewrite Ht1, Hstop. reflexivity.
Qed.

Lemma heeds_stop_call d e :
  is_insert e = false -> is_collection e = false -> is_sigint e = false ->
  obeys heeds_stop (call d e).
Proof.
  intros Hi Hc Hs st. split; [now apply stop_tracks_call|].
  destruct (call_cases d e st) as [-> | ->]; unfold events; simpl; split.
  - intros _. repeat constructor; assumption.
  - intros [|x pre] post [= ]; subst; [discriminate|]. now destruct pre.
  - intros _. repeat constructor; assumption.
  - intros [|x [|y [|z pre]]] post [= ]; subst; try discriminate.
    + apply silent_winds_down. repeat constructor.
    + now destruct pre.
Qed.

Lemma heeds_stop_modify g :
  (forall st, _stop (g st) = _stop st) -> obeys heeds_stop (modify g).
Proof.
  intros Hg st. split; [now apply stop_tracks_modify|].
  unfold events. simpl. split; [constructor|]. intros [|] ? [=].
Qed.

(** ** The documents in a trace *)

Lemma handed_app a b : handed (a ++ b) = handed a ++ handed b.
Proof. apply flat_map_app. Qed.

Lemma handed_chatter t : Forall (fun x => is_chatter x = true) t -> handed t = [].
Proof.
  induction 1 as [|e t He _ IH]; [reflexivity|].
  destruct e; try discriminate; exact IH.
Qed.

Lemma handed_quiet t : Forall (fun x => is_insert x = false) t -> handed t = [].
Proof.
  induction 1 as [|e t He _ IH]; [reflexivity|].
  destruct e; try discriminate; exact IH.
Qed.

#[global] Instance follows_cursor_chain : Chain follows_cursor.
Proof.
  split; unfold follows_cursor; intros.
  - reflexivity.
  - rewrite handed_app, <- app_assoc. congruence.
Qed.

Lemma follows_cursor_call d e : is_insert e = false -> obeys follows_cursor (call d e).
Proof.
  intros He st. unfold follows_cursor.
  destruct (call_cases d e st) as [-> | ->]; unfold events, final; simpl;
    destruct e; try discriminate; reflexivity.
Qed.

Lemma follows_cursor_modify g :
  (forall st, cursor (g st) = cursor st) -> obeys follows_cursor (modify g).
Proof. intros Hg st. unfold follows_cursor, events, final. simpl. now rewrite Hg. Qed.

Lemma handed_cons e t :
  handed (e :: t) = match e with EvInsertMany _ docs => docs | _ => [] end ++ handed t.
Proof. reflexivity. Qed.

(** ** The growth of the target *)

#[global] Instance grows_chain : Chain grows.
Proof.
  split; unfold grows.
  - intros st name l H. exists []. now rewrite app_nil_r.
  - intros s1 e1 s2 e2 s3 H1 H2 name l H.
    apply H1 in H as [m1 H]. apply H2 in H as [m2 H].
    exists (m1 ++ m2). now rewrite app_assoc.
Qed.

Lemma keeps_grows {A} (m : M A) : obeys (keeps target_db) m -> obeys grows m.
Proof.
  intros H st name l Hl. specialize (H st). unfold keeps in H.
  exists []. now rewrite H, app_nil_r.
Qed.

Lemma grows_call d e : obeys grows (call d e).
Proof. apply keeps_grows, keeps_call; reflexivity. Qed.

Lemma grows_modify g :
  (forall st, target_db (g st) = target_db st) -> obeys grows (modify g).
Proof. intros Hg. now apply keeps_grows, keeps_modify. Qed.

(** ** Runs that start with the flag set *)

#[global] Instance stays_stopped_chain : Chain stays_stopped.
Proof.
  split; unfold stays_stopped.
  - intros st H. repeat split; auto.
  - intros s1 e1 s2 e2 s3 H1 H2 H.
    apply H1 in H as (Hs & Hd & He). apply H2 in Hs as (Hs' & Hd' & He').
    repeat split; [assumption | congruence | apply Forall_app; now split].
Qed.

Lemma stays_stopped_call d e : is_work e = false -> obeys stays_stopped (call d e).
Proof.
  intros He st Hs.
  destruct (call_cases d e st) as [-> | ->]; unfold events, final; simpl;
    repeat split; auto; repeat constructor; assumption.
Qed.

Lemma stays_stopped_modify g :
  (forall st, _stop (g st) = _stop st) ->
  (forall st, target_db (g st) = target_db st) ->
  obeys stays_stopped (modify g).
Proof.
  intros H1 H2 st Hs. unfold events, final. simpl.
  rewrite H1, H2. repeat split; auto.
Qed.

(** ** Runs without an interrupt *)

Lemma call_calm d e st :
  call (without_sigint d) e st = (Normal tt, set_clock (S (clock st)) st, [e]).
Proof. reflexivity. Qed.

Lemma keeps_stop_calm d e : obeys (keeps _stop) (call (without_sigint d) e).
Proof. intros st. reflexivity. Qed.

(** ** Batches that the target takes *)

#[global] Instance appends_chain c : Chain (appends c).
Proof.
  split; unfold appends.
  - intros st _. now rewrite app_nil_r.
  - intros s1 e1 s2 e2 s3 H1 H2 Hn.
    rewrite handed_app, app_assoc in Hn.
    assert (Hn1 : NoDup (map doc_id (content c s1 ++ handed e1))).
    { rewrite map_app in Hn. apply NoDup_app in Hn. tauto. }
    specialize (H1 Hn1). rewrite <- H1 in Hn.
    rewrite handed_app, app_assoc, <- H1. auto.
Qed.

Lemma appends_call c d e : is_insert e = false -> obeys (appends c) (call d e).
Proof.
  intros He st _. unfold content.
  destruct (call_cases d e st) as [-> | ->]; unfold events, final; simpl;
    destruct e; try discriminate; now rewrite app_nil_r.
Qed.

Lemma appends_modify c g :
  (forall st, target_db (g st) = target_db st) -> obeys (appends c) (modify g).
Proof.
  intros Hg st _. unfold content, events, final. simpl. now rewrite Hg, app_nil_r.
Qed.

(** ** Walking through the program text *)

Create HintDb engine.
#[global] Hint Unfold logger_info logger_warning logger_error log_to_file
  progress_advance MongoClient ping client_close _safe_close
  list_collection_names_target create_collection find next cursor_close
  insert_many progress_update write_batch batch_iteration ensure_collection copy_documents
  migrate_collection count_documents process_collection connect migrate_body
  cleanup _migrate : engine.

Create HintDb obeys.

Ltac chain lem := apply lem; try typeclasses eauto.

Ltac event_fact :=
  cbn; repeat split;
  first [ reflexivity | discriminate | congruence | tauto
        | intros ? [-> | ->]; reflexivity ].

Ltac obey_leaf :=
  match goal with
  | |- obeys (keeps _) (call _ _) => apply keeps_call; reflexivity
  | |- obeys (keeps _) (modify _) => apply keeps_modify; reflexivity
  | |- obeys (only _) (call _ _) => apply only_call; event_fact
  | |- obeys (only _) (modify _) => apply only_modify
  | |- obeys stop_tracks (call _ _) => apply stop_tracks_call; reflexivity
  | |- obeys stop_tracks (modify _) => apply stop_tracks_modify; reflexivity
  | |- obeys releases_cursor (call _ _) => apply releases_cursor_call; reflexivity
  | |- obeys releases_cursor (modify _) => apply releases_cursor_modify
  | |- obeys (remembers _) (call _ _) => apply remembers_call; discriminate
  | |- obeys (remembers ?s) (modify _) =>
      apply remembers_modify; intros; destruct s; reflexivity
  | |- obeys heeds_stop (call _ _) => apply heeds_stop_call; reflexivity
  | |- obeys heeds_stop (modify _) => apply heeds_stop_modify; reflexivity
  | |- obeys grows (call _ _) => apply grows_call
  | |- obeys grows (modify _) => apply grows_modify; reflexivity
  | |- obeys stays_stopped (call _ _) => apply stays_stopped_call; reflexivity
  | |- obeys stays_stopped (modify _) => apply stays_stopped_modify; reflexivity
  | |- obeys (appends _) (call _ _) => apply appends_call; reflexivity
  | |- obeys (appends _) (modify _) => apply appends_modify; reflexivity
  | |- obeys (keeps _stop) (call (without_sigint _) _) => apply keeps_stop_calm
  end.

Ltac obey_basic :=
  match goal with
  | |- True => exact I
  | |- Chain _ => typeclasses eauto
  | |- forall _, _ => intros ?
  | |- obeys _ _ => solve [eauto with obeys]
  | |- obeys (both _ _) _ => apply both_obeys
  | |- obeys _ (bind _ _) => chain obeys_bind
  | |- obeys _ (ret _) => chain obeys_ret
  | |- obeys _ (raise _) => chain obeys_raise
  | |- obeys _ (get _) => chain obeys_get
  | |- obeys _ (answer _ _) => chain obeys_answer
  | |- obeys _ (lift _) => chain obeys_lift
  | |- obeys _ log_to_file_text => chain obeys_log_to_file_text
  | |- obeys _ (try_except _ _) => chain obeys_try_except; simpl
  | |- obeys _ (try_finally _ _) => chain obeys_try_finally
  | |- obeys _ (call _ _) => obey_leaf
  | |- obeys _ (modify _) => obey_leaf
  | |- obeys _ (match ?x with _ => _ end) => destruct x
  | |- match ?x with _ => _ end =>
      lazymatch x with
      | match ?y with _ => _ end => destruct y
      | if ?y then _ else _ => destruct y
      | _ => destruct x
      end; cbn [is_PyMongoError is_BulkWriteError]; cbv beta iota
  end.

Section Loops.

Context (R : run_relation) `{!Chain R}.
Variable d : deployment.

Lemma fetch_obeys c num n docs :
  obeys R (call d (EvNext (coll_name c))) ->
  (forall rest, obeys R (modify (set_cursor rest))) ->
  obeys R (call d (EvLog Error (MsgFetchError (coll_name c)))) ->
  obeys R (fetch d c num n docs).
Proof.
  intros Hn Hm Hl. revert docs.
  induction n as [|n IH]; intros docs; simpl; unfold next, logger_error;
    repeat obey_basic.
Qed.

Lemma log_write_errors_obeys c codes :
  obeys R (call d (EvLog Warning (MsgDuplicate (coll_name c)))) ->
  obeys R (call d (EvLog Error (MsgWriteError (coll_name c)))) ->
  obeys R (log_write_errors d c codes).
Proof.
  intros Hw He.
  induction codes as [|code rest IH]; simpl; unfold logger_warning, logger_error;
    repeat obey_basic.
Qed.

Lemma batch_loop_obeys c batch_size num fuel :
  obeys R (batch_iteration d c batch_size num) ->
  obeys R (batch_loop d c batch_size num fuel).
Proof.
  intros Hi. induction fuel as [|fuel IH]; simpl; repeat obey_basic.
Qed.

Lemma collections_loop_obeys percentage batch_size cs :
  (forall c, obeys R (call d (EvCollection (coll_name c)))) ->
  (forall c, obeys R (process_collection d percentage batch_size c)) ->
  obeys R (collections_loop d percentage batch_size cs).
Proof.
  intros Hc Hp. induction cs as [|c rest IH]; simpl; repeat obey_basic.
Qed.

End Loops.

Ltac obey_step :=
  first
    [ obey_basic
    | match goal with
      | |- obeys _ (fetch _ _ _ _ _) => chain fetch_obeys
      | |- obeys _ (log_write_errors _ _ _) => chain log_write_errors_obeys
      | |- obeys _ (batch_loop _ _ _ _ _) => chain batch_loop_obeys
      | |- obeys _ (collections_loop _ _ _ _) => chain collections_loop_obeys
      | |- obeys _ _ => progress autounfold with engine
      end ].

Ltac obey := repeat obey_step.

(** ** Blocks whose effect on the target is known *)

(** The program text without the two calls that write to the target. *)
Create HintDb blocks.
#[global] Hint Unfold logger_info logger_warning logger_error log_to_file
  progress_advance MongoClient ping client_close _safe_close
  list_collection_names_target find next cursor_close
  progress_update write_batch batch_iteration ensure_collection copy_documents
  migrate_collection count_documents process_collection connect migrate_body
  cleanup _migrate : blocks.

Ltac obey_blocks :=
  repeat first
    [ obey_basic
    | match goal with
      | |- obeys _ (fetch _ _ _ _ _) => chain fetch_obeys
      | |- obeys _ (log_write_errors _ _ _) => chain log_write_errors_obeys
      | |- obeys _ (batch_loop _ _ _ _ _) => chain batch_loop_obeys
      | |- obeys _ (collections_loop _ _ _ _) => chain collections_loop_obeys
      | |- obeys _ _ => progress autounfold with blocks
      end ].

(** The handler is the only writer of [_stop]. *)
Lemma migrate_stop_tracks d percentage batch_size :
  obeys stop_tracks (_migrate d percentage batch_size).
Proof. obey. Qed.

(** ** Taking a run apart *)

Lemma bind_inv {A B} (m : M A) (f : A -> M B) st r st' ev :
  bind m f st = (r, st', ev) ->
  (exists a st1 ev1 ev2,
      m st = (Normal a, st1, ev1) /\ f a st1 = (r, st', ev2) /\ ev = ev1 ++ ev2) \/
  (exists e, m st = (Raised e, st', ev) /\ r = Raised e).
Proof.
  unfold bind. destruct (m st) as [[[a|e] st1] ev1].
  - destruct (f a st1) as [[r2 st2] ev2] eqn:E. intros [= <- <- <-].
    left. exists a, st1, ev1, ev2. auto.
  - intros [= <- <- <-]. right. eauto.
Qed.

Lemma try_except_inv {A} (m : M A) (h : exn -> option (M A)) st r st' ev :
  try_except m h st = (r, st', ev) ->
  (exists a, m st = (Normal a, st', ev) /\ r = Normal a) \/
  (exists e, m st = (Raised e, st', ev) /\ h e = None /\ r = Raised e) \/
  (exists e k st1 ev1 ev2,
      m st = (Raised e, st1, ev1) /\ h e = Some k /\ k st1 = (r, st', ev2) /\
      ev = ev1 ++ ev2).
Proof.
  unfold try_except. destruct (m st) as [[[a|e] st1] ev1].
  - intros [= <- <- <-]. left. eauto.
  - destruct (h e) as [k|] eqn:Eh.
    + destruct (k st1) as [[r2 st2] ev2] eqn:E. intros [= <- <- <-].
      right. right. exists e, k, st1, ev1, ev2. auto.
    + intros [= <- <- <-]. right. left. eauto.
Qed.

Lemma try_finally_inv {A} (m : M A) (f : M unit) st r st' ev :
  try_finally m f st = (r, st', ev) ->
  exists r1 st1 ev1 r2 ev2,
    m st = (r1, st1, ev1) /\ f st1 = (r2, st', ev2) /\ ev = ev1 ++ ev2 /\
    r = match r2 with Raised e => Raised e | Normal _ => r1 end.
Proof.
  unfold try_finally. destruct (m st) as [[r1 st1] ev1].
  destruct (f st1) as [[r2 st2] ev2] eqn:E. intros [= <- <- <-].
  exists r1, st1, ev1, r2, ev2. auto.
Qed.

Lemma obeys_run {A} R (m : M A) st r st' ev :
  obeys R m -> m st = (r, st', ev) -> R st ev st'.
Proof. intros H E. specialize (H st). now rewrite E in H. Qed.

(** One step of inversion on [H : m st = (r, st', ev)], by the head of [m]. *)
Ltac step H :=
  lazymatch type of H with
  | bind _ _ _ = _ =>
      let x_a := fresh "a" in let x_st1 := fresh "st" in
      let x_ev1 := fresh "ev" in let x_ev2 := fresh "ev" in
      let x_E1 := fresh "E" in let x_E2 := fresh "E" in let x_e := fresh "e" in
      let x_Ev := fresh "Ev" in let x_Er := fresh "Er" in
      apply bind_inv in H as [(x_a & x_st1 & x_ev1 & x_ev2 & x_E1 & x_E2 & x_Ev) | (x_e & x_E1 & x_Er)];
      simplify_eq
  | try_except _ _ _ = _ =>
      let x_a := fresh "a" in let x_st1 := fresh "st" in
      let x_ev1 := fresh "ev" in let x_ev2 := fresh "ev" in let x_k := fresh "k" in
      let x_E1 := fresh "E" in let x_E2 := fresh "E" in let x_e := fresh "e" in
      let x_Eh := fresh "Eh" in let x_Ev := fresh "Ev" in let x_Er := fresh "Er" in
      apply try_except_inv in H
        as [(x_a & x_E1 & x_Er) | [(x_e & x_E1 & x_Eh & x_Er) | (x_e & x_k & x_st1 & x_ev1 & x_ev2 & x_E1 & x_Eh & x_E2 & x_Ev)]];
      simplify_eq
  | try_finally _ _ _ = _ =>
      let x_r1 := fresh "r" in let x_st1 := fresh "st" in
      let x_ev1 := fresh "ev" in let x_r2 := fresh "r" in let x_ev2 := fresh "ev" in
      let x_E1 := fresh "E" in let x_E2 := fresh "E" in
      let x_Ev := fresh "Ev" in let x_Er := fresh "Er" in
      apply try_finally_inv in H as (x_r1 & x_st1 & x_ev1 & x_r2 & x_ev2 & x_E1 & x_E2 & x_Ev & x_Er);
      try subst
  | ret _ _ = _ => unfold ret in H; simplify_eq
  | raise _ _ = _ => unfold raise in H; simplify_eq
  | get _ _ = _ => unfold get in H; simplify_eq
  | modify _ _ = _ => unfold modify in H; simplify_eq
  | log_to_file_text _ = _ => unfold log_to_file_text, raise in H; simplify_eq
  | answer ?f _ _ = _ => let x_Ef := fresh "Ef" in destruct f eqn:x_Ef; unfold answer in H
  | lift ?f _ = _ => let x_Ef := fresh "Ef" in destruct f eqn:x_Ef; unfold lift in H
  | (if ?b then _ else _) _ = _ => let x_Eb := fresh "Eb" in destruct b eqn:x_Eb
  | (match ?x with _ => _ end) _ = _ => let x_Ex := fresh "Ex" in destruct x eqn:x_Ex
  | (let '(_, _) := ?x in _) _ = _ => let x_Ex := fresh "Ex" in destruct x eqn:x_Ex
  end.

(** The facts a chain relation gives about a run already taken apart. *)
Ltac learn R H :=
  let K := fresh "K" in
  pose proof H as K;
  eapply (obeys_run R) in K; [| solve [obey]].

(** ** Computations that cannot raise *)

Lemma never_raises_run {A} (m : M A) st r st' ev :
  never_raises m -> m st = (r, st', ev) -> exists a, r = Normal a.
Proof. intros H E. destruct (H st) as [a Ha]. rewrite E in Ha. eauto. Qed.

Lemma never_raises_ret {A} (a : A) : never_raises (ret a).
Proof. intros st. now exists a. Qed.

Lemma never_raises_get {A} (f : state -> A) : never_raises (get f).
Proof. intros st. now exists (f st). Qed.

Lemma never_raises_modify g : never_raises (modify g).
Proof. intros st. now exists tt. Qed.

Lemma never_raises_call d e : never_raises (call d e).
Proof. intros st. exists tt. destruct (call_cases d e st) as [-> | ->]; reflexivity. Qed.

Lemma never_raises_bind {A B} (m : M A) (f : A -> M B) :
  never_raises m -> (forall a, never_raises (f a)) -> never_raises (bind m f).
Proof.
  intros Hm Hf st. destruct (Hm st) as [a Ha]. unfold bind, result in *.
  destruct (m st) as [[r st1] ev1]. simpl in Ha. subst r.
  destruct (Hf a st1) as [b Hb]. unfold result in Hb.
  destruct (f a st1) as [[r2 st2] ev2]. simpl in *. eauto.
Qed.

Lemma never_raises_handled {A} (m : M A) (h : exn -> option (M A)) :
  (forall e, exists k, h e = Some k /\ never_raises k) ->
  never_raises (try_except m h).
Proof.
  intros Hh st. unfold try_except, result.
  destruct (m st) as [[[a|e] st1] ev1]; simpl; eauto.
  destruct (Hh e) as (k & -> & Hk). destruct (Hk st1) as [b Hb].
  unfold result in Hb. destruct (k st1) as [[r2 st2] ev2]. simpl in *. eauto.
Qed.

Lemma never_raises_try_finally {A} (m : M A) (f : M unit) :
  never_raises m -> never_raises f -> never_raises (try_finally m f).
Proof.
  intros Hm Hf st. destruct (Hm st) as [a Ha]. unfold try_finally, result in *.
  destruct (m st) as [[r st1] ev1]. simpl in Ha. subst r.
  destruct (Hf st1) as [b Hb]. unfold result in Hb.
  destruct (f st1) as [[r2 st2] ev2]. simpl in *. subst r2. eauto.
Qed.

Ltac safe_step :=
  match goal with
  | |- forall _, _ => intros ?
  | |- never_raises _ => solve [eauto with obeys]
  | |- never_raises (bind _ _) => apply never_raises_bind
  | |- never_raises (ret _) => apply never_raises_ret
  | |- never_raises (get _) => apply never_raises_get
  | |- never_raises (modify _) => apply never_raises_modify
  | |- never_raises (call _ _) => apply never_raises_call
  | |- never_raises (try_finally _ _) => apply never_raises_try_finally
  | |- never_raises (try_except _ _) => apply never_raises_handled
  | |- exists k, ?h = Some k /\ _ =>
      lazymatch h with
      | Some _ => eexists; split; [reflexivity|]
      | match ?y with _ => _ end => destruct y
      | if ?y then _ else _ => destruct y
      | _ => progress (cbn [is_PyMongoError is_BulkWriteError]; cbv beta iota)
      end
  | |- never_raises (match ?x with _ => _ end) => destruct x
  | |- never_raises _ => progress autounfold with engine
  end.

Ltac safe := repeat safe_step.

Ltac absurd_raise H :=
  lazymatch type of H with
  | ?m ?st = (Raised _, _, _) =>
      let N := fresh "N" in
      assert (N : never_raises m) by (solve [safe]);
      destruct (never_raises_run _ _ _ _ _ N H) as [? [=]]
  end.

(** Inversion all the way down to the calls and the loops. *)
Ltac steps :=
  repeat match goal with
  | H : _ = (Raised _, _, _) |- _ => absurd_raise H
  | H : bind _ _ _ = _ |- _ => step H
  | H : try_except _ _ _ = _ |- _ => step H
  | H : try_finally _ _ _ = _ |- _ => step H
  | H : ret _ _ = _ |- _ => step H
  | H : raise _ _ = _ |- _ => step H
  | H : get _ _ = _ |- _ => step H
  | H : modify _ _ = _ |- _ => step H
  | H : log_to_file_text _ = _ |- _ => step H
  | H : answer _ _ _ = _ |- _ => step H
  | H : lift _ _ = _ |- _ => step H
  | H : (if _ then _ else _) _ = _ |- _ => step H
  | H : (match _ with _ => _ end) _ = _ |- _ => step H
  | H : match ?e with _ => _ end = Some _ |- _ => destruct e; simpl in H; simplify_eq
  | H : (if ?e then _ else _) = Some _ |- _ => destruct e; simpl in H; simplify_eq
  | H : Some _ = Some _ |- _ => simplify_eq
  | H : match ?e with _ => _ end = None |- _ => destruct e; simpl in H; simplify_eq
  | H : (if ?e then _ else _) = None |- _ => destruct e; simpl in H; simplify_eq
  end.

Lemma fetch_never_raises d c num n docs : never_raises (fetch d c num n docs).
Proof.
  revert docs. induction n as [|n IH]; intros docs; simpl; safe.
Qed.

Lemma log_write_errors_never_raises d c codes :
  never_raises (log_write_errors d c codes).
Proof. induction codes as [|code rest IH]; simpl; safe. Qed.

#[global] Hint Resolve fetch_never_raises log_write_errors_never_raises : obeys.

(** [_safe_close] swallows whatever [close] raises. *)
Lemma safe_close_never_raises d client name : never_raises (_safe_close d client name).
Proof. safe. Qed.

#[global] Hint Resolve safe_close_never_raises : obeys.

(** No exception leaves [_migrate]. *)
Lemma migrate_never_raises d percentage batch_size :
  never_raises (_migrate d percentage batch_size).
Proof. safe. Qed.

(** ** The calls of the driver, case by case *)

Lemma call_run d e st r st' ev :
  call d e st = (r, st', ev) ->
  r = Normal tt /\
  exists tail, ev = e :: tail /\ Forall (fun x => is_chatter x = true) tail /\
    migrated_count st' = migrated_count st /\ target_db st' = target_db st /\
    overall st' = overall st /\ cursor st' = cursor st.
Proof.
  destruct (call_cases d e st) as [Hc|Hc]; rewrite Hc; intros [= <- <- <-];
    (split; [reflexivity|]); eexists; (split; [reflexivity|]); repeat constructor.
Qed.

Lemma insert_many_run d c docs ordered st r st' ev :
  insert_many d c docs ordered st = (r, st', ev) ->
  exists st1 tail,
    call d (EvInsertMany (coll_name c) docs) st =
      (Normal tt, st1, EvInsertMany (coll_name c) docs :: tail) /\
    ev = EvInsertMany (coll_name c) docs :: tail /\
    match write_fault c docs with
    | Some e => r = Raised e /\ st' = st1
    | None =>
        let '(now, errs) :=
          bulk_insert ordered (rejects c) (default [] (target_db st !! coll_name c)) docs in
        st' = set_target_db (<[coll_name c := now]> (target_db st)) st1 /\
        r = match errs with [] => Normal tt | _ => Raised (BulkWriteError errs) end
    end.
Proof.
  unfold insert_many, bind, answer, get, modify, ret, raise.
  destruct (call_cases d (EvInsertMany (coll_name c) docs) st) as [Hc|Hc];
    rewrite Hc; simpl;
    (destruct (write_fault c docs);
     [ intros [= <- <- <-]; do 2 eexists; repeat split
     | destruct (bulk_insert _ _ _ _) as [now [|code errs]]; simpl;
       intros [= <- <- <-]; do 2 eexists; repeat split ]).
Qed.

Lemma progress_update_run d c n st r st' ev :
  progress_update d c n st = (r, st', ev) ->
  migrated_count st' = migrated_count st /\
  r = match update_fault c (migrated_count st) with
      | Some e => Raised e
      | None => Normal tt
      end.
Proof.
  unfold progress_update, bind, answer, get, ret, raise.
  destruct (call_cases d (EvUpdateTask (coll_name c) n) st) as [Hc|Hc];
    rewrite Hc; simpl; destruct (update_fault c (migrated_count st));
    intros [= <- <- <-]; auto.
Qed.

(** Lines 148-162 never raise; the events are the insert and log lines. *)
Lemma write_batch_run d c docs st r st' ev :
  write_batch d c docs st = (r, st', ev) ->
  r = Normal (write_outcome c docs) /\
  migrated_count st' = migrated_count st /\
  exists tail, ev = EvInsertMany (coll_name c) docs :: tail /\
               Forall (fun x => is_chatter x = true) tail.
Proof.
  intros H. learn (keeps migrated_count) H. split; [|split; [exact K|]]; clear K.
  - unfold write_batch in H. steps.
    all: match goal with H : insert_many _ _ _ _ _ = _ |- _ =>
           apply insert_many_run in H as (? & ? & _ & _ & Hw) end.
    all: unfold write_outcome; destruct (write_fault c docs) as [e'|];
      try (destruct Hw as [[= <-] _]); try reflexivity.
    all: try (destruct (bulk_insert _ _ _ _) as [? [|]]; destruct Hw as [_ [=]]; subst).
  - unfold write_batch in H. steps.
    all: match goal with H : insert_many _ _ _ _ _ = _ |- _ =>
           apply insert_many_run in H as (? & ? & Hc & -> & _);
           apply call_run in Hc as (_ & ? & [= <-] & Ht & _) end.
    all: eexists; (split; [simpl; reflexivity|]).
    all: repeat match goal with
           | H : ?m ?st = (_, _, ?ev) |- _ =>
               is_var ev;
               eapply (obeys_run (only (fun x => is_chatter x = true))) in H; [|solve [obey]]
           end.
    all: unfold only in *; repeat rewrite Forall_app; repeat split; auto.
Qed.

(** The body of the [while], taken apart: the batch that is fetched, its
    write, and the bookkeeping after a write that did not break. *)
Lemma batch_iteration_run d c b num st r st' ev :
  batch_iteration d c b num st = (r, st', ev) ->
  exists docs st1 ev1,
    fetch d c num (Z.to_nat b) [] st = (Normal docs, st1, ev1) /\
    match docs with
    | [] => r = Normal false /\ st' = st1 /\ ev = ev1
    | _ =>
        exists st2 ev2 ev3,
          write_batch d c docs st1 = (Normal (write_outcome c docs), st2, ev2) /\
          ev = ev1 ++ ev2 ++ ev3 /\
          if write_outcome c docs then
            progress_update d c (Z.of_nat (length docs))
              (set_migrated_count (migrated_count st2 + Z.of_nat (length docs)) st2)
              = (match r with Normal _ => Normal tt | Raised e => Raised e end, st', ev3) /\
            r <> Normal false
          else r = Normal false /\ st' = st2 /\ ev3 = []
    end.
Proof.
  intros H. unfold batch_iteration in H. steps.
  all: rewrite ?app_nil_r, ?app_nil_l.
  all: do 3 eexists; (split; [eassumption|]); cbv beta iota; auto.
  all: match goal with H : write_batch _ _ _ _ = _ |- _ =>
         pose proof (write_batch_run _ _ _ _ _ _ _ H) as ([= Hw] & _) end.
  all: match goal with
       | H : write_batch _ _ _ _ = (Normal _, ?s2, ?e2) |- _ => exists s2, e2
       end.
  all: lazymatch goal with
       | H : progress_update _ _ _ _ = (_, _, ?e3) |- _ => exists e3
       | _ => exists []; rewrite ?app_nil_r
       end.
  all: rewrite <- Hw; (split; [assumption|]).
  all: (split; [reflexivity|]); simpl.
  all: try (split; [|discriminate]).
  all: auto.
  all: match goal with a : unit |- _ => destruct a; assumption end.
Qed.

Lemma fetch_run d c num n docs st r st' ev :
  fetch d c num n docs st = (r, st', ev) ->
  (exists batch, r = Normal batch) /\
  migrated_count st' = migrated_count st /\ target_db st' = target_db st /\
  overall st' = overall st /\
  Forall (fun x => is_insert x = false /\ is_collection x = false) ev.
Proof.
  intros H. split; [eapply never_raises_run; [apply fetch_never_raises | exact H]|].
  learn (keeps migrated_count) H. learn (keeps target_db) H. learn (keeps overall) H.
  learn (only (fun x => is_insert x = false /\ is_collection x = false)) H.
  auto.
Qed.

(** ** Termination of the batch loop *)

Lemma batch_iteration_progress d c b num st st' ev :
  batch_iteration d c b num st = (Normal true, st', ev) ->
  exists docs, docs <> [] /\ In (EvInsertMany (coll_name c) docs) ev /\
    migrated_count st' = migrated_count st + Z.of_nat (length docs).
Proof.
  intros H. apply batch_iteration_run in H as (docs & st1 & ev1 & Hf & H).
  apply fetch_run in Hf as (_ & Hm1 & _).
  destruct docs as [|x l]; [now destruct H|].
  destruct H as (st2 & ev2 & ev3 & Hw & -> & H).
  apply write_batch_run in Hw as (_ & Hm2 & tail & -> & _).
  destruct (write_outcome c (x :: l)); [|now destruct H].
  destruct H as [Hp _]. apply progress_update_run in Hp as [Hm3 _].
  exists (x :: l). split; [discriminate|]. split.
  - apply in_or_app. right. now left.
  - rewrite Hm3. simpl. rewrite Hm2, Hm1. reflexivity.
Qed.

Lemma batch_loop_unfold d c b num fuel st :
  batch_loop d c b num fuel st =
  if (migrated_count st <? num) && negb (_stop st) then
    match fuel with
    | O => (Normal OutOfFuel, st, [])
    | S fuel' =>
        match batch_iteration d c b num st with
        | (Normal true, st1, ev1) =>
            let '(r, st2, ev2) := batch_loop d c b num fuel' st1 in (r, st2, ev1 ++ ev2)
        | (Normal false, st1, ev1) => (Normal Finished, st1, ev1 ++ [])
        | (Raised e, st1, ev1) => (Raised e, st1, ev1)
        end
    end
  else (Normal Finished, st, []).
Proof.
  destruct fuel; simpl; unfold bind, get, ret; simpl;
    destruct (_ && _); try reflexivity.
  destruct (batch_iteration d c b num st) as [[[[|]|e] st1] ev1]; try reflexivity.
  fold (batch_loop d c b num). destruct (batch_loop d c b num fuel st1) as [[r st2] ev2].
  reflexivity.
Qed.

Lemma batch_loop_fuel d c b num f1 :
  forall f2 st, (remaining num st <= f1)%nat -> (remaining num st <= f2)%nat ->
    batch_loop d c b num f1 st = batch_loop d c b num f2 st.
Proof.
  induction f1 as [|f1 IH]; intros f2 st H1 H2; rewrite !batch_loop_unfold.
  - destruct (migrated_count st <? num) eqn:E; simpl; [|reflexivity].
    apply Z.ltb_lt in E. unfold remaining in H1. lia.
  - destruct ((migrated_count st <? num) && negb (_stop st)) eqn:Ec; [|reflexivity].
    apply andb_prop in Ec as [E _]. apply Z.ltb_lt in E.
    destruct f2 as [|f2]; [unfold remaining in H2; lia|].
    destruct (batch_iteration d c b num st) as [[[[|]|e] st1] ev1] eqn:Ei; try reflexivity.
    apply batch_iteration_progress in Ei as (docs & Hd & _ & Hm).
    assert (0 < length docs)%nat by (destruct docs; [congruence | simpl; lia]).
    rewrite (IH f2 st1); [reflexivity | |]; unfold remaining in *; lia.
Qed.

Lemma batch_loop_finishes d c b num fuel :
  forall st, (remaining num st <= fuel)%nat ->
    result (batch_loop d c b num fuel st) <> Normal OutOfFuel.
Proof.
  induction fuel as [|fuel IH]; intros st H; rewrite batch_loop_unfold.
  - destruct (migrated_count st <? num) eqn:E; simpl; [|discriminate].
    apply Z.ltb_lt in E. unfold remaining in H. lia.
  - destruct ((migrated_count st <? num) && negb (_stop st)) eqn:Ec; [|discriminate].
    apply andb_prop in Ec as [E _]. apply Z.ltb_lt in E.
    destruct (batch_iteration d c b num st) as [[[[|]|e] st1] ev1] eqn:Ei; try discriminate.
    apply batch_iteration_progress in Ei as (docs & Hd & _ & Hm).
    assert (0 < length docs)%nat by (destruct docs; [congruence | simpl; lia]).
    specialize (IH st1). unfold result in *.
    destruct (batch_loop d c b num fuel st1) as [[r st2] ev2]. simpl in *.
    apply IH. unfold remaining in *. lia.
Qed.

(** C10.  The batch loop of a collection terminates: an iteration that does
    not leave the loop counts a non-empty batch, so [migrated_count] grows
    strictly; the loop condition stops it at [num_to_migrate].  With fuel for
    the documents still to count the loop never runs out of fuel, more fuel
    changes nothing, and at or beyond [num_to_migrate] the loop does nothing. *)
Theorem batch_loop_terminates d c batch_size num st fuel :
  (remaining num st <= fuel)%nat ->
  result (batch_loop d c batch_size num fuel st) <> Normal OutOfFuel /\
  batch_loop d c batch_size num fuel st =
    batch_loop d c batch_size num (remaining num st) st /\
  (forall st' ev,
      batch_iteration d c batch_size num st = (Normal true, st', ev) ->
      exists docs, docs <> [] /\ In (EvInsertMany (coll_name c) docs) ev /\
        migrated_count st' = migrated_count st + Z.of_nat (length docs)) /\
  (num <= migrated_count st ->
     batch_loop d c batch_size num fuel st = (Normal Finished, st, [])).
Proof.
  intros H. repeat split.
  - now apply batch_loop_finishes.
  - now apply batch_loop_fuel.
  - intros st' ev. apply batch_iteration_progress.
  - intros Hn. rewrite batch_loop_unfold.
    destruct (migrated_count st <? num) eqn:E; [apply Z.ltb_lt in E; lia | reflexivity].
Qed.

(** ** Unordered bulk inserts *)

Lemma bulk_insert_extends ordered rej docs :
  forall present now errs,
    bulk_insert ordered rej present docs = (now, errs) ->
    exists written, now = present ++ written.
Proof.
  induction docs as [|x rest IH]; intros present now errs H; simpl in H.
  - injection H as <- <-. exists []. now rewrite app_nil_r.
  - destruct (if has_id (doc_id x) present then Some duplicate_key else rej x) as [code|].
    + destruct ordered.
      * injection H as <- <-. exists []. now rewrite app_nil_r.
      * destruct (bulk_insert false rej present rest) as [now' errs'] eqn:E.
        injection H as <- <-. eapply IH; eauto.
    + apply IH in H as [w ->]. exists (x :: w). now rewrite <- app_assoc.
Qed.

Lemma bulk_insert_unordered_length rej docs :
  forall present now errs,
    bulk_insert false rej present docs = (now, errs) ->
    (length now + length errs = length present + length docs)%nat.
Proof.
  induction docs as [|x rest IH]; intros present now errs H; simpl in H.
  - injection H as <- <-. simpl. lia.
  - destruct (if has_id (doc_id x) present then Some duplicate_key else rej x) as [code|].
    + destruct (bulk_insert false rej present rest) as [now' errs'] eqn:E.
      injection H as <- <-. apply IH in E. simpl. lia.
    + apply IH in H. rewrite length_app in H. simpl in *. lia.
Qed.

Lemma has_id_app i l1 l2 : has_id i (l1 ++ l2) = has_id i l1 || has_id i l2.
Proof. apply existsb_app. Qed.

(** A document the target accepts, and whose [_id] is neither in the
    collection nor earlier in the batch, is written whatever happens to the
    other documents of the batch. *)
Lemma bulk_insert_unordered_writes rej l1 :
  forall present x l2 now errs,
    bulk_insert false rej present (l1 ++ x :: l2) = (now, errs) ->
    has_id (doc_id x) (present ++ l1) = false ->
    rej x = None ->
    In x now.
Proof.
  induction l1 as [|y l1 IH]; intros present x l2 now errs H Hid Hrej; simpl in H.
  - rewrite app_nil_r in Hid. rewrite Hid, Hrej in H.
    apply bulk_insert_extends in H as [w ->].
    apply in_or_app. left. apply in_or_app. right. now left.
  - rewrite has_id_app in Hid. apply orb_false_elim in Hid as [Hp Hl].
    simpl in Hl. apply orb_false_elim in Hl as [Hy Hl].
    destruct (if has_id (doc_id y) present then Some duplicate_key else rej y) as [code|].
    + destruct (bulk_insert false rej present (l1 ++ x :: l2)) as [now' errs'] eqn:E.
      injection H as <- <-. eapply IH; eauto.
      rewrite has_id_app, Hp, Hl. reflexivity.
    + eapply IH; eauto.
      rewrite !has_id_app, Hp, Hl. simpl. now rewrite Hy.
Qed.

Lemma write_batch_target d c docs st r st' ev :
  write_batch d c docs st = (r, st', ev) ->
  target_db st' =
    match write_fault c docs with
    | Some _ => target_db st
    | None =>
        <[coll_name c :=
            fst (bulk_insert false (rejects c) (default [] (target_db st !! coll_name c)) docs)]>
          (target_db st)
    end.
Proof.
  intros H. unfold write_batch in H. steps.
  all: repeat match goal with
       | H : insert_many _ _ _ _ _ = _ |- _ =>
           apply insert_many_run in H as (? & ? & Hc & _ & Hw);
           apply call_run in Hc as (_ & ? & _ & _ & _ & Hdb & _)
       | H : ?m ?st = (_, ?st', _) |- _ =>
           is_var st'; eapply (obeys_run (keeps target_db)) in H; [|solve [obey]];
           unfold keeps in H
       end.
  all: destruct (write_fault c docs); [destruct Hw as [? ->]|].
  all: try (destruct (bulk_insert _ _ _ _) as [now errs]; destruct Hw as [-> _]; simpl in * ).
  all: try congruence.
Qed.

(** What [written = true] leaves behind (lines 164-165). *)
Lemma batch_iteration_counts d c b num st docs st1 ev1 :
  fetch d c num (Z.to_nat b) [] st = (Normal docs, st1, ev1) ->
  docs <> [] ->
  write_outcome c docs = true ->
  update_fault c (migrated_count st + Z.of_nat (length docs)) = None ->
  exists st' ev,
    batch_iteration d c b num st = (Normal true, st', ev) /\
    In (EvInsertMany (coll_name c) docs) ev /\
    migrated_count st' = migrated_count st + Z.of_nat (length docs) /\
    target_db st' =
      match write_fault c docs with
      | Some _ => target_db st
      | None =>
          <[coll_name c :=
              fst (bulk_insert false (rejects c) (default [] (target_db st !! coll_name c)) docs)]>
            (target_db st)
      end.
Proof.
  intros Hf Hd Hw Hu.
  destruct (batch_iteration d c b num st) as [[r st'] ev] eqn:E.
  pose proof E as E'.
  apply batch_iteration_run in E' as (docs' & st1' & ev1' & Hf' & H).
  rewrite Hf in Hf'. simplify_eq.
  pose proof (fetch_run _ _ _ _ _ _ _ _ _ Hf) as (_ & Hm1 & Hdb1 & _).
  destruct docs' as [|x l]; [congruence|].
  destruct H as (st2 & ev2 & ev3 & Hwb & -> & H). rewrite Hw in H. destruct H as [Hp Hr].
  pose proof (write_batch_run _ _ _ _ _ _ _ Hwb) as (_ & Hm2 & tail & -> & _).
  pose proof (write_batch_target _ _ _ _ _ _ _ Hwb) as Hdb2.
  learn (keeps target_db) Hp. rename K into Hdb3. unfold keeps in Hdb3.
  apply progress_update_run in Hp as [Hm3 Hr'].
  cbn [migrated_count set_migrated_count] in Hr'.
  rewrite Hm2, Hm1, Hu in Hr'.
  exists st', (ev1' ++ (EvInsertMany (coll_name c) (x :: l) :: tail) ++ ev3).
  split; [|split; [|split]].
  - destruct r as [[|]|e]; simplify_eq; congruence.
  - apply in_or_app. right. now left.
  - rewrite Hm3. simpl. rewrite Hm2, Hm1. reflexivity.
  - rewrite Hdb3. simpl. rewrite Hdb2, Hdb1. reflexivity.
Qed.

(** C4.  A batch whose unordered insert reports write errors (duplicate
    keys, code 11000, or any other code) still gets its acceptable documents
    written; the iteration does not break, so the loop goes on with the next
    batch; and [migrated_count] advances by the full length of the batch,
    which is more than the number of documents written. *)
Theorem duplicates_do_not_stop_the_batch d c batch_size num st docs st1 ev1 now errs fuel :
  migrated_count st < num ->
  _stop st = false ->
  fetch d c num (Z.to_nat batch_size) [] st = (Normal docs, st1, ev1) ->
  docs <> [] ->
  write_fault c docs = None ->
  bulk_insert false (rejects c) (default [] (target_db st !! coll_name c)) docs
    = (now, errs) ->
  errs <> [] ->
  update_fault c (migrated_count st + Z.of_nat (length docs)) = None ->
  exists st' ev,
    batch_iteration d c batch_size num st = (Normal true, st', ev) /\
    In (EvInsertMany (coll_name c) docs) ev /\
    target_db st' = <[coll_name c := now]> (target_db st) /\
    (forall l1 x l2,
        docs = l1 ++ x :: l2 ->
        has_id (doc_id x) (default [] (target_db st !! coll_name c) ++ l1) = false ->
        rejects c x = None ->
        In x now) /\
    (length now + length errs =
       length (default [] (target_db st !! coll_name c)) + length docs)%nat /\
    migrated_count st' = migrated_count st + Z.of_nat (length docs) /\
    Z.of_nat (length now) - Z.of_nat (length (default [] (target_db st !! coll_name c)))
      < migrated_count st' - migrated_count st /\
    batch_loop d c batch_size num (S fuel) st =
      (let '(r, st2, ev2) := batch_loop d c batch_size num fuel st' in
       (r, st2, ev ++ ev2)).
Proof.
  intros Hlt Hstop Hf Hd Hwf Hb He Hu.
  assert (Hw : write_outcome c docs = true) by (unfold write_outcome; now rewrite Hwf).
  destruct (batch_iteration_counts _ _ _ _ _ _ _ _ Hf Hd Hw Hu)
    as (st' & ev & Hi & Hin & Hm & Hdb).
  rewrite Hwf, Hb in Hdb. simpl in Hdb.
  pose proof (bulk_insert_unordered_length _ _ _ _ _ Hb) as Hlen.
  exists st', ev. repeat split; auto.
  - intros l1 x l2 -> Hid Hrej. eapply bulk_insert_unordered_writes; eauto.
  - rewrite Hm. destruct errs; [congruence|]. simpl in Hlen. lia.
  - rewrite batch_loop_unfold.
    apply Z.ltb_lt in Hlt. rewrite Hlt, Hstop, Hi. reflexivity.
Qed.

Lemma interrupted_chatter tail :
  interrupted tail -> Forall (fun x => is_chatter x = true) tail.
Proof. intros [-> | ->]; repeat constructor. Qed.

Lemma call_facts d e st r st' ev :
  call d e st = (r, st', ev) ->
  r = Normal tt /\ same_data st st' /\
  exists tail, ev = e :: tail /\ interrupted tail.
Proof.
  destruct (call_cases d e st) as [Hc|Hc]; rewrite Hc; intros [= <- <- <-];
    (split; [reflexivity|]); (split; [repeat split|]);
    eexists; (split; [reflexivity|]); [now left | now right].
Qed.

Ltac calls :=
  repeat match goal with
  | H : call _ _ _ = _ |- _ =>
      let Hi := fresh "Hi" in
      apply call_facts in H as (? & (? & ? & ? & ? & ? & ?) & ? & ? & Hi);
      pose proof (interrupted_chatter _ Hi)
  end; simplify_eq.

Lemma listed_collection (db : gmap string (list document)) (name : string) :
  bool_decide (name ∈ elements (dom db)) = true <-> is_Some (db !! name).
Proof. rewrite bool_decide_eq_true, elem_of_elements, elem_of_dom. reflexivity. Qed.

Lemma unlisted_collection (db : gmap string (list document)) (name : string) :
  bool_decide (name ∈ elements (dom db)) = false <-> db !! name = None.
Proof.
  rewrite bool_decide_eq_false, elem_of_elements, elem_of_dom, eq_None_not_Some.
  reflexivity.
Qed.

Ltac listed :=
  repeat match goal with
  | H : bool_decide (_ ∈ elements (dom _)) = true |- _ =>
      apply listed_collection in H as [? H]
  | H : bool_decide (_ ∈ elements (dom _)) = false |- _ =>
      apply unlisted_collection in H
  end.

Lemma ensure_collection_run d c st r st' ev :
  ensure_collection d c st = (r, st', ev) ->
  list_target_fault c = None -> create_fault c = None ->
  r = Normal tt /\
  overall st' = S (overall st) /\
  target_db st' =
    match target_db st !! coll_name c with
    | Some _ => target_db st
    | None => <[coll_name c := []]> (target_db st)
    end /\
  Forall (fun x => is_next x = false /\ is_insert x = false) ev.
Proof.
  intros H Hl Hc.
  learn (only (fun x => is_next x = false /\ is_insert x = false)) H.
  unfold ensure_collection in H. autounfold with engine in H.
  rewrite Hl, Hc in H. steps; calls; listed; simpl in *.
  all: repeat split; try exact K; try congruence.
  all: destruct (target_db st !! coll_name c) eqn:Edb; congruence.
Qed.

Lemma count_documents_run d c st r st' ev :
  count_documents d c st = (r, st', ev) ->
  target_db st' = target_db st /\
  Forall (fun x => moves_documents x = false) ev /\
  match r with
  | Normal (Some n) =>
      access_fault c = None /\ estimated_document_count c = inr n /\
      overall st' = overall st
  | Normal None =>
      (access_fault c <> None \/ exists e, estimated_document_count c = inl e) /\
      overall st' = S (overall st)
  | Raised _ => False
  end.
Proof.
  intros H.
  learn (only (fun x => moves_documents x = false)) H.
  learn (keeps target_db) H.
  split; [exact K0|]. split; [exact K|]. clear K K0.
  unfold count_documents in H. autounfold with engine in H.
  steps; calls; simpl in *; repeat split; try congruence; eauto.
Qed.

(** C6 (as amended).  A source collection whose estimated count is 0, on a
    target that answers [list_collection_names] and [create_collection]:
    after its processing the target collection exists, created empty if it
    was absent, the documents of every target collection are the ones that
    were there, nothing was read from the source, and the overall progress
    has advanced by one; the percentage plays no part. *)
Theorem empty_collection_is_created d percentage batch_size c st :
  access_fault c = None ->
  estimated_document_count c = inr 0 ->
  list_target_fault c = None ->
  create_fault c = None ->
  let run := process_collection d percentage batch_size c st in
  result run = Normal tt /\
  is_Some (target_db (final run) !! coll_name c) /\
  target_db (final run) =
    match target_db st !! coll_name c with
    | Some _ => target_db st
    | None => <[coll_name c := []]> (target_db st)
    end /\
  (forall name,
      default [] (target_db (final run) !! name) = default [] (target_db st !! name)) /\
  Forall (fun x => moves_documents x = false) (events run) /\
  overall (final run) = S (overall st).
Proof.
  intros Ha Hn Hl Hc run. subst run.
  destruct (process_collection d percentage batch_size c st) as [[r st'] ev] eqn:H.
  unfold result, final, events. simpl.
  unfold process_collection in H. step H.
  2:{ match goal with H : count_documents _ _ _ = _ |- _ =>
        apply count_documents_run in H as (_ & _ & []) end. }
  match goal with H : count_documents _ _ _ = _ |- _ =>
    apply count_documents_run in H as (Hdb0 & Hq0 & Hr) end.
  destruct a as [n|].
  2:{ destruct Hr as [[Hr | [e Hr]] _]; congruence. }
  destruct Hr as (_ & Hn' & Ho0). rewrite Hn in Hn'. injection Hn' as <-.
  simpl in *.
  match goal with H : ensure_collection _ _ _ = _ |- _ =>
    pose proof (ensure_collection_run _ _ _ _ _ _ H Hl Hc) as (-> & Ho & Hdb & Hq);
    learn (only (fun x => moves_documents x = false)) H end.
  rewrite Hdb0 in Hdb.
  split; [reflexivity|]. split; [|split; [exact Hdb|split; [|split]]].
  - rewrite Hdb. destruct (target_db st !! coll_name c) eqn:E.
    + rewrite E. eauto.
    + rewrite lookup_insert_eq. eauto.
  - intros name. rewrite Hdb. destruct (target_db st !! coll_name c) eqn:E; [reflexivity|].
    destruct (decide (name = coll_name c)) as [->|Hne].
    + rewrite lookup_insert_eq, E. reflexivity.
    + rewrite lookup_insert_ne by congruence. reflexivity.
  - apply Forall_app. split; assumption.
  - congruence.
Qed.

(** C6, as stated, fails when the target refuses the creation: the handler
    of line 110 calls [log_to_file] with one argument, the [TypeError] leaves
    the collection loop, the collection does not exist and the overall
    progress has not moved. *)
Lemma empty_collection_counterexample :
  let run := process_collection (Demo.servers [Demo.refused]) 50 30 Demo.refused
               (initial_state ∅) in
  estimated_document_count Demo.refused = inr 0 /\
  result run = Raised TypeError /\
  target_db (final run) !! "empty" = None /\
  overall (final run) = overall (initial_state ∅) /\
  ~ (is_Some (target_db (final run) !! coll_name Demo.refused) /\
     overall (final run) = S (overall (initial_state ∅))).
Proof.
  vm_compute. repeat split; try reflexivity.
  intros [[x Hx] _]. discriminate.
Qed.

Lemma empty_collection_is_created_witness :
  let c := Demo.plain "empty" 0 in
  let run := process_collection (Demo.servers [c]) 50 30 c (initial_state ∅) in
  result run = Normal tt /\
  is_Some (target_db (final run) !! coll_name c) /\
  target_db (final run) =
    match target_db (initial_state ∅) !! coll_name c with
    | Some _ => target_db (initial_state ∅)
    | None => <[coll_name c := []]> (target_db (initial_state ∅))
    end /\
  (forall name,
      default [] (target_db (final run) !! name)
      = default [] (target_db (initial_state ∅) !! name)) /\
  Forall (fun x => moves_documents x = false) (events run) /\
  overall (final run) = S (overall (initial_state ∅)).
Proof.
  intros c.
  apply (empty_collection_is_created (Demo.servers [c]) 50 30 c (initial_state ∅));
    reflexivity.
Defined.

(** ** The cursor of a collection *)

Lemma chatter_cursor ev b :
  Forall (fun x => is_chatter x = true) ev -> scan cursor_step b ev = b.
Proof.
  intros H. apply scan_inert. eapply Forall_impl; [exact H|].
  intros [] ?; try discriminate; reflexivity.
Qed.

Lemma quiet_cursor ev b :
  Forall (fun x => cursor_step true x = true /\ cursor_step false x = false) ev ->
  scan cursor_step b ev = b.
Proof.
  intros H. apply scan_inert. eapply Forall_impl; [exact H|].
  intros e [H1 H2] []; assumption.
Qed.

Lemma migrate_collection_releases d percentage batch_size total c :
  obeys releases_cursor (migrate_collection d percentage batch_size total c).
Proof.
  intros st.
  destruct (migrate_collection d percentage batch_size total c st) as [[r st'] ev] eqn:H.
  unfold releases_cursor, events. simpl.
  unfold migrate_collection, copy_documents in H. autounfold with engine in H.
  steps.
  all: repeat match goal with
       | H : batch_loop _ _ _ _ _ _ = _ |- _ =>
           eapply (obeys_run (only (fun x => cursor_step true x = true /\
                                            cursor_step false x = false))) in H;
           [apply quiet_cursor with (b := true) in H | solve [obey]]
       end.
  all: calls.
  all: rewrite ?bool_decide_eq_true_2 by reflexivity.
  all: rewrite ?bool_decide_eq_false_2 by discriminate.
  all: repeat first
         [ rewrite scan_app | rewrite scan_cons | rewrite scan_nil
         | rewrite chatter_cursor by assumption
         | match goal with H : scan cursor_step _ _ = _ |- _ => rewrite H end
         | progress cbn [cursor_step] ].
  all: reflexivity.
Qed.

#[global] Hint Resolve migrate_collection_releases : obeys.

Lemma process_collection_releases d percentage batch_size c :
  obeys releases_cursor (process_collection d percentage batch_size c).
Proof. obey. Qed.

Lemma scan_cursor_closed post :
  scan cursor_step true post = false -> exists name, In (EvCursorClose name) post.
Proof.
  induction post as [|e post IH]; [discriminate|].
  rewrite scan_cons. intros H.
  destruct e as [| | | | | | |? []| | | name | | | | | | | |]; cbn [cursor_step] in H;
    try (apply IH in H as [n Hn]; exists n; now right).
  exists name. now left.
Qed.

(** C9.  Once [find] has given a cursor for the collection, [cursor.close()]
    is called on it before the processing of the collection ends, whatever
    the batch loop met: the planned count, an exhausted cursor, a failed
    write, an unexpected exception or the interrupt. *)
Theorem cursor_is_released d percentage batch_size c st pre post :
  events (process_collection d percentage batch_size c st)
    = pre ++ EvFind (coll_name c) true :: post ->
  In (EvCursorClose (coll_name c)) post.
Proof.
  intros H.
  pose proof (process_collection_releases d percentage batch_size c st) as Hb.
  assert (Hn : only (fun x => forall name, x = EvCursorClose name -> name = coll_name c) st
                 (events (process_collection d percentage batch_size c st))
                 (final (process_collection d percentage batch_size c st))).
  { generalize st. change (obeys (only (fun x => forall name, x = EvCursorClose name ->
      name = coll_name c)) (process_collection d percentage batch_size c)). obey. }
  unfold releases_cursor, only in *. rewrite H in *.
  rewrite scan_app, scan_cons in Hb. cbn [cursor_step] in Hb.
  apply scan_cursor_closed in Hb as [name Hin].
  apply Forall_app in Hn as [_ Hn]. apply Forall_cons in Hn as [_ Hn].
  rewrite Forall_forall in Hn.
  rewrite (Hn _ (proj2 (list_elem_of_In _ _) Hin) name eq_refl) in Hin. exact Hin.
Qed.

(** ** The two clients *)

Lemma chatter_not_in e t :
  is_chatter e = false -> Forall (fun x => is_chatter x = true) t -> ~ In e t.
Proof.
  intros He Ht Hin. rewrite Forall_forall in Ht.
  apply list_elem_of_In in Hin. apply Ht in Hin. congruence.
Qed.

(** Lines 47-51: each client is stored as soon as it exists. *)
Lemma connect_remembers s d : obeys (remembers s) (connect d).
Proof.
  intros st. destruct (connect d st) as [[r st'] ev] eqn:H.
  unfold remembers, events, final. simpl.
  unfold connect in H. autounfold with engine in H.
  steps; calls; simpl in *.
  all: intros [Hh|Hin]; [destruct s; simpl in *; congruence|].
  all: repeat match goal with
       | H : Forall _ ?t |- _ =>
           apply (chatter_not_in (EvMongoClient s true) t eq_refl) in H
       end.
  all: rewrite ?in_app_iff in Hin; simpl in Hin; rewrite ?in_app_iff in Hin; simpl in Hin.
  all: destruct s; simpl; intuition (try congruence).
Qed.

#[global] Hint Resolve connect_remembers : obeys.

Lemma migrate_body_remembers s d percentage batch_size :
  obeys (remembers s) (migrate_body d percentage batch_size).
Proof. obey. Qed.

(** Only [connect] opens clients and only [_safe_close] closes them. *)
Lemma migrate_body_closes_nothing s d percentage batch_size :
  obeys (only (fun x => x <> EvClientClose s)) (migrate_body d percentage batch_size).
Proof. obey. Qed.

Lemma split_before {A} (a f pre post : list A) (x : A) :
  a ++ f = pre ++ x :: post -> ~ In x f -> exists m, post = m ++ f.
Proof.
  revert pre. induction a as [|y a IH]; intros pre H Hx; simpl in H.
  - exfalso. apply Hx. rewrite H. apply in_or_app. right. now left.
  - destruct pre as [|z pre]; simpl in H; injection H as -> H.
    + exists a. symmetry. exact H.
    + eapply IH; eauto.
Qed.

Ltac in_events :=
  rewrite ?in_app_iff; simpl; rewrite ?in_app_iff; simpl; tauto.

(** Lines 183-185 call [close] on the clients held in the two variables. *)
Lemma cleanup_closes s d st r st' ev :
  cleanup d st = (r, st', ev) -> handle s st = Some s -> In (EvClientClose s) ev.
Proof.
  intros H Hs. unfold cleanup, _safe_close, client_close, log_to_file, logger_error in H.
  steps; calls; destruct s; simpl in *; simplify_eq; try congruence.
  all: repeat match goal with
       | x : side |- _ =>
           first [ assert (x = Source) by congruence | assert (x = Target) by congruence ];
           subst x
       end.
  all: in_events.
Qed.

(** Whatever the body did, the [finally] of lines 182-185 calls [close] on
    every client the run has opened. *)
Lemma migrate_closes_clients d percentage batch_size st s pre post :
  events (_migrate d percentage batch_size st) = pre ++ EvMongoClient s true :: post ->
  In (EvClientClose s) post.
Proof.
  intros Hsplit.
  destruct (_migrate d percentage batch_size st) as [[r st'] ev] eqn:H.
  unfold events in Hsplit. simpl in Hsplit.
  unfold _migrate in H. unfold log_to_file, logger_error in H.
  steps.
  all: match goal with
       | Hb : migrate_body _ _ _ _ = _, Hc : cleanup _ _ = _ |- _ =>
           pose proof (obeys_run _ _ _ _ _ _ (migrate_body_remembers s d percentage batch_size) Hb)
             as Hrem;
           pose proof (cleanup_closes s _ _ _ _ _ Hc) as Hclose;
           eapply (obeys_run (only (fun x => x <> EvMongoClient s true))) in Hc;
             [|solve [obey]]
       end.
  all: unfold remembers, only in *.
  all: assert (Hin : In (EvMongoClient s true) (pre ++ EvMongoClient s true :: post))
         by (apply in_or_app; right; now left).
  all: rewrite <- Hsplit in Hin.
  all: calls; simpl in *.
  all: match goal with
       | Hb : migrate_body _ _ _ _ = (_, _, ?evb) |- _ =>
           assert (Hopen : In (EvMongoClient s true) evb)
       end.
  1,3: solve [repeat match goal with
             | H : Forall (fun x => is_chatter x = true) ?t
               |- In (EvMongoClient ?s' true) _ =>
                 apply (chatter_not_in (EvMongoClient s' true) t eq_refl) in H
             | H : Forall (fun x => x <> EvMongoClient ?s' true) ?t |- _ =>
                 rewrite Forall_forall in H;
                 assert (~ In (EvMongoClient s' true) t)
                   by (intros Hx; apply list_elem_of_In in Hx; now apply H in Hx);
                 clear H
             end;
             rewrite ?in_app_iff in Hin; simpl in Hin; rewrite ?in_app_iff in Hin;
             intuition congruence].
  all: rewrite ?app_comm_cons, ?app_assoc in Hsplit.
  all: apply split_before in Hsplit as [m ->];
         [| rewrite Forall_forall in E4; intros Hx; apply list_elem_of_In in Hx;
            now apply E4 in Hx].
  all: apply in_or_app; right; apply Hclose.
  all: destruct s; simpl in *; try congruence.
  all: specialize (Hrem (or_intror Hopen)); congruence.
Qed.


(** ** The planned count *)

(** C3.  The planned count is computed in binary floating point:
    [7 / 100.0] is a little more than 7/100, so for 100 documents and 7
    percent the product is a little more than 7 and its ceiling is 8, where
    the exact ceiling of 100 * 7 / 100 is 7.  For 7 documents and 50 percent
    the result is the exact 4.  For 100 documents the result is the exact
    ceiling or one more, and one more at five percentages. *)
Theorem num_to_migrate_is_not_the_exact_ceiling :
  num_to_migrate 100 7 = inr 8 /\
  exact_ceiling 100 7 = 7 /\
  num_to_migrate 7 50 = inr 4 /\
  exact_ceiling 7 50 = 4 /\
  forallb (fun p => match ceiling_gap 100 p with Some 0 | Some 1 => true | _ => false end)
          (map Z.of_nat (seq 1 100)) = true /\
  overshooting_percentages 100 = [7; 14; 28; 55; 56].
Proof. repeat split; vm_compute; reflexivity. Qed.

(** ** The end-to-end scenario of the specification *)

(** C1.  A source with [users] (100 documents) and [empty] (0 documents),
    50 percent, batches of 30, no failure and no interrupt: the plan is 50
    documents, but line 132 compares [migrated_count], which only changes
    after the write, so no batch is cut short: two batches of 30 are pulled
    and written, the target holds the first 60 documents of the cursor and
    the log reports 60 of 100. *)
Theorem scenario_writes_sixty_documents :
  let source := [Demo.plain "users" 100; Demo.plain "empty" 0] in
  let run := _migrate (Demo.servers source) 50 30 (initial_state ∅) in
  num_to_migrate 100 50 = inr 50 /\
  result run = Normal tt /\
  batches (events run) = [("users", 30%nat); ("users", 30%nat)] /\
  target_db (final run) !! "users" = Some (map Demo.doc (map Z.of_nat (seq 0 60))) /\
  target_db (final run) !! "empty" = Some [] /\
  reports (events run) = [("users", 60, 100)] /\
  overall (final run) = 2%nat.
Proof. intros source run. vm_compute. repeat split; reflexivity. Qed.

(** ** The command *)

(** C5 (as amended).  The command validates the percentage, and only the
    percentage, before anything else: with a percentage outside 1..100 it
    logs one error and exits with status 1; no client is created, no driver
    call is made and the target database is as it was. *)
Theorem invalid_percentage_exits_early d direction percentage batch_size st :
  ~ (1 <= percentage <= 100) ->
  let run := migrate d direction percentage batch_size st in
  result run = Normal (SystemExit 1) /\
  exit_status (SystemExit 1) <> 0 /\
  (exists tail, events run = EvLog Error MsgPercentage :: tail /\
                Forall (fun x => is_chatter x = true) tail) /\
  target_db (final run) = target_db st /\
  source_client (final run) = source_client st /\
  target_client (final run) = target_client st.
Proof.
  intros Hp run. subst run.
  destruct (migrate d direction percentage batch_size st) as [[r st'] ev] eqn:H.
  unfold result, events, final. simpl.
  unfold migrate in H.
  replace ((1 <=? percentage) && (percentage <=? 100)) with false in H
    by (symmetry; apply andb_false_iff; rewrite Z.leb_gt, Z.leb_gt; lia).
  simpl in H. unfold logger_error in H. steps; calls; simpl in *.
  repeat split; try congruence; try discriminate.
  eexists. split; [reflexivity|]. rewrite app_nil_r. assumption.
Qed.

Lemma invalid_percentage_exits_early_witness :
  let run := migrate (Demo.servers [Demo.plain "users" 100]) "to_local" 0 1000
               (initial_state ∅) in
  result run = Normal (SystemExit 1) /\
  exit_status (SystemExit 1) <> 0 /\
  (exists tail, events run = EvLog Error MsgPercentage :: tail /\
                Forall (fun x => is_chatter x = true) tail) /\
  target_db (final run) = target_db (initial_state ∅) /\
  source_client (final run) = source_client (initial_state ∅) /\
  target_client (final run) = target_client (initial_state ∅).
Proof.
  apply (invalid_percentage_exits_early
           (Demo.servers [Demo.plain "users" 100]) "to_local" 0 1000 (initial_state ∅)).
  lia.
Defined.

(** C5, as stated, fails for the batch size: with 50 percent and a batch
    size of 0 the command calls the engine, both clients are created and
    pinged, the empty collection is created in the target, and the command
    returns normally (exit status 0). *)
Lemma batch_size_is_not_validated :
  let source := [Demo.plain "users" 100; Demo.plain "empty" 0] in
  let run := migrate (Demo.servers source) "to_local" 50 0 (initial_state ∅) in
  (0 <? 1) = true /\
  result run = Normal Returns /\
  exit_status Returns = 0 /\
  firstn 3 (events run)
    = [EvLogFile Info MsgSeparator; EvMongoClient Source true; EvMongoClient Target true] /\
  target_db (initial_state ∅) !! "empty" = None /\
  target_db (final run) !! "empty" = Some [].
Proof. vm_compute. repeat split; reflexivity. Qed.

(** ** A write that fails *)

Lemma interrupted_abort c s tail :
  interrupted tail -> scan (abort_step c) s tail = s.
Proof. intros [-> | ->]; destruct s; reflexivity. Qed.

Lemma settled_abort c s ev :
  settled s ->
  Forall (fun x => forall s, settled s -> abort_step c s x = s) ev ->
  scan (abort_step c) s ev = s.
Proof.
  intros Hs H. induction H as [|e ev He _ IH]; [reflexivity|].
  rewrite scan_cons, (He s Hs). exact IH.
Qed.

Ltac scan_abort :=
  repeat first
    [ rewrite scan_app | rewrite scan_cons | rewrite scan_nil
    | match goal with
      | Hi : interrupted ?t |- context [scan (abort_step ?c) ?s ?t] =>
          rewrite (interrupted_abort c s t Hi)
      | Hq : Forall (fun x => forall s, settled s -> abort_step ?c s x = s) ?t
        |- context [scan (abort_step ?c) ?s ?t] =>
          rewrite (settled_abort c s t) by (first [assumption | now left | now right])
      | H : write_outcome _ _ = _ |- _ => rewrite H
      end
    | progress cbn [abort_step is_write_error] ].

Lemma write_batch_scan d c docs st r st' ev :
  write_batch d c docs st = (r, st', ev) ->
  scan (abort_step c) Copying ev = if write_outcome c docs then Copying else Logged.
Proof.
  intros H. pose proof (write_batch_run _ _ _ _ _ _ _ H) as (-> & _).
  unfold write_batch in H. unfold logger_error, logger_warning in H. steps.
  all: match goal with H : insert_many _ _ _ _ _ = _ |- _ =>
         apply insert_many_run in H as (? & ? & Hc & -> & Hw) end.
  all: repeat match goal with
       | H : log_write_errors _ _ _ _ = (_, _, ?ev) |- _ =>
           eapply (obeys_run (only (fun x => forall s, settled s -> abort_step c s x = s)))
             in H; [|solve [obey]];
           unfold only in H
       end.
  all: calls.
  all: destruct (write_outcome c docs) eqn:Ho; scan_abort; try reflexivity.
  all: try discriminate.
Qed.

Lemma settled_dec s : settled s -> s <> Resumed /\ s <> Failed.
Proof. intros [-> | ->]; split; discriminate. Qed.

(** An iteration leaves the monitor settled, and in [Logged] only when it
    has ended the loop. *)
Lemma copying_abort c ev :
  Forall (fun x => abort_step c Copying x = Copying) ev ->
  scan (abort_step c) Copying ev = Copying.
Proof.
  intros H. induction H as [|e ev He _ IH]; [reflexivity|].
  rewrite scan_cons, He. exact IH.
Qed.

Lemma batch_iteration_scan d c b num st r st' ev :
  batch_iteration d c b num st = (r, st', ev) ->
  scan (abort_step c) Copying ev = Copying \/
  (scan (abort_step c) Copying ev = Logged /\ r = Normal false).
Proof.
  intros H. apply batch_iteration_run in H as (docs & st1 & ev1 & Hf & H).
  eapply (obeys_run (only (fun x => abort_step c Copying x = Copying))) in Hf;
    [|solve [obey]].
  apply copying_abort in Hf.
  destruct docs as [|x l].
  - destruct H as (-> & -> & ->). now left.
  - destruct H as (st2 & ev2 & ev3 & Hw & -> & H).
    apply write_batch_scan in Hw. rewrite !scan_app, Hf, Hw.
    destruct (write_outcome c (x :: l)) eqn:Ho.
    + destruct H as [Hp _]. left.
      eapply (obeys_run (only (fun x => abort_step c Copying x = Copying))) in Hp;
        [|solve [obey]].
      now apply copying_abort.
    + destruct H as (-> & -> & ->). now right.
Qed.

Lemma batch_loop_scan d c b num fuel :
  forall st, settled (scan (abort_step c) Copying (events (batch_loop d c b num fuel st))).
Proof.
  induction fuel as [|fuel IH]; intros st; rewrite batch_loop_unfold.
  - destruct (_ && _); now left.
  - destruct (_ && _); [|now left].
    destruct (batch_iteration d c b num st) as [[r st1] ev1] eqn:Hi.
    apply batch_iteration_scan in Hi as [Hi | [Hi ->]].
    + destruct r as [[|]|e]; unfold events; simpl.
      * specialize (IH st1). unfold events in IH.
        destruct (batch_loop d c b num fuel st1) as [[r2 st2] ev2]. simpl in *.
        rewrite scan_app, Hi. exact IH.
      * rewrite app_nil_r, Hi. now left.
      * rewrite Hi. now left.
    + unfold events. simpl. rewrite app_nil_r, Hi. now right.
Qed.

(** Outside the batch loop nothing is fetched or written. *)
Lemma migrate_collection_scan d percentage batch_size total c st :
  settled (scan (abort_step c) Copying
             (events (migrate_collection d percentage batch_size total c st))).
Proof.
  destruct (migrate_collection d percentage batch_size total c st) as [[r st'] ev] eqn:H.
  unfold events. simpl.
  unfold migrate_collection, copy_documents in H. autounfold with engine in H.
  steps.
  all: try match goal with
       | H : batch_loop ?d ?c ?b ?n ?f ?s = (_, _, ?ev) |- _ =>
           let K := fresh "K" in
           pose proof (batch_loop_scan d c b n f s) as K;
           rewrite H in K; unfold events in K; simpl in K
       end.
  all: calls.
  all: scan_abort.
  all: try (left; reflexivity).
  all: destruct K as [K | K]; rewrite K; scan_abort; [now left | now right].
Qed.

Lemma process_collection_scan d percentage batch_size c st :
  settled (scan (abort_step c) Copying
             (events (process_collection d percentage batch_size c st))).
Proof.
  destruct (process_collection d percentage batch_size c st) as [[r st'] ev] eqn:H.
  unfold events. simpl. unfold process_collection in H. step H.
  - learn (only (fun x => abort_step c Copying x = Copying)) E.
    apply copying_abort in K. rewrite scan_app, K.
    destruct a as [n|]; [destruct (n =? 0)|].
    + learn (only (fun x => abort_step c Copying x = Copying)) E0.
      apply copying_abort in K0. rewrite K0. now left.
    + pose proof (migrate_collection_scan d percentage batch_size n c st0) as Hm.
      rewrite E0 in Hm. exact Hm.
    + step E0. now left.
  - learn (only (fun x => abort_step c Copying x = Copying)) E.
    apply copying_abort in K. rewrite K. now left.
Qed.

Lemma resumed_stays c ev : scan (abort_step c) Resumed ev = Resumed.
Proof.
  induction ev as [|e ev IH]; [reflexivity|].
  rewrite scan_cons. destruct e as [| | | | | | | | | | | | | | |[]| | |]; exact IH.
Qed.

Lemma logged_quiet c post :
  settled (scan (abort_step c) Logged post) ->
  Forall (fun x => is_next x = false /\ is_insert x = false) post.
Proof.
  induction post as [|e post IH]; [constructor|].
  rewrite scan_cons. intros H.
  destruct e as [| | | | | | | | | | | | | | |[]| | |]; cbn [abort_step] in H;
    try (constructor; [split; reflexivity | exact (IH H)]).
  all: rewrite resumed_stays in H; destruct H; discriminate.
Qed.

Lemma failed_quiet c post :
  settled (scan (abort_step c) Failed post) ->
  Forall (fun x => is_next x = false /\ is_insert x = false) post /\
  exists m, is_write_error m = true /\ In (EvLog Error m) post.
Proof.
  induction post as [|e post IH].
  - intros [H|H]; discriminate.
  - rewrite scan_cons. intros H.
    destruct e as [| | | | | | | | | | | | | | |[] m| | |]; cbn [abort_step] in H;
      try (destruct (IH H) as (Hq & m' & Hm & Hin);
           split; [constructor; [split; reflexivity | exact Hq]
                  | exists m'; split; [exact Hm | now right]]).
    + rewrite resumed_stays in H; destruct H; discriminate.
    + rewrite resumed_stays in H; destruct H; discriminate.
    + destruct (is_write_error m) eqn:Em.
      * split; [constructor; [split; reflexivity | exact (logged_quiet _ _ H)]|].
        exists m. split; [exact Em | now left].
      * destruct (IH H) as (Hq & m' & Hm & Hin).
        split; [constructor; [split; reflexivity | exact Hq]
               | exists m'; split; [exact Hm | now right]].
Qed.

(** After a write that has failed with something other than a
    [BulkWriteError] the trace of the collection has the log line of the
    failure and no further fetch or write. *)
Lemma abort_split c pre name docs post :
  settled (scan (abort_step c) Copying (pre ++ EvInsertMany name docs :: post)) ->
  write_outcome c docs = false ->
  Forall (fun x => is_next x = false /\ is_insert x = false) post /\
  exists m, is_write_error m = true /\ In (EvLog Error m) post.
Proof.
  rewrite scan_app, scan_cons. intros H Ho.
  destruct (scan (abort_step c) Copying pre); cbn [abort_step] in H;
    try (rewrite resumed_stays in H; destruct H; discriminate).
  rewrite Ho in H. now apply (failed_quiet c).
Qed.

(** Every path through the body of the collection loop advances the overall
    progress once, except the two on which an exception escapes: the
    [TypeError] of line 110 and an arithmetic error at line 114. *)
Lemma process_collection_advances d percentage batch_size c st r st' ev :
  process_collection d percentage batch_size c st = (r, st', ev) ->
  (r = Normal tt /\ overall st' = S (overall st)) \/
  (exists e, r = Raised e /\ Forall (fun x => moves_documents x = false) ev).
Proof.
  intros H.
  unfold process_collection, count_documents, ensure_collection, migrate_collection,
    copy_documents in H.
  autounfold with engine in H.
  steps.
  all: try match goal with
       | H : batch_loop _ _ _ _ _ _ = _ |- _ => learn (keeps overall) H; unfold keeps in *
       end.
  all: calls; simpl in *.
  all: try (left; split; [reflexivity | congruence]).
  all: right; eexists; split; [reflexivity|].
  all: repeat match goal with
       | H : Forall (fun x => is_chatter x = true) ?t |- _ =>
           apply (Forall_impl _ (fun x => moves_documents x = false)) in H;
           [| intros [] ?; (reflexivity || discriminate)]
       end.
  all: rewrite ?app_nil_r.
  all: repeat first [ assumption | apply Forall_app; split
                    | apply List.Forall_cons; [reflexivity|] | apply List.Forall_nil ].
Qed.




(** ** After the interrupt *)

(** A sublist after a split has no more inserts than the whole. *)
Lemma winds_down_split ev pre post :
  (inserts ev <= 1)%nat -> Forall (fun e => is_collection e = false) ev ->
  ev = pre ++ EvSigint :: post -> winds_down post.
Proof.
  intros Hi Hc ->. split.
  - rewrite inserts_app in Hi.
    change (EvSigint :: post) with ([EvSigint] ++ post) in Hi.
    rewrite inserts_app in Hi. lia.
  - apply Forall_app in Hc as [_ Hc]. now apply Forall_cons in Hc as [_ Hc].
Qed.

Lemma chatter_inserts t : Forall (fun x => is_chatter x = true) t -> inserts t = 0%nat.
Proof.
  intros H. apply silent_inserts. eapply Forall_impl; [exact H|].
  intros [] ?; try discriminate; split; reflexivity.
Qed.

Lemma inserts_insert name docs t :
  inserts (EvInsertMany name docs :: t) = S (inserts t).
Proof.
  unfold inserts. rewrite filter_cons.
  destruct (decide (is_insert (EvInsertMany name docs) = true)) as [_|H];
    [reflexivity | now contradiction H].
Qed.

(** One iteration writes at most one batch and begins no collection. *)
Lemma batch_iteration_inserts d c b num st r st' ev :
  batch_iteration d c b num st = (r, st', ev) ->
  (inserts ev <= 1)%nat /\ Forall (fun e => is_collection e = false) ev.
Proof.
  intros H. split.
  - apply batch_iteration_run in H as (docs & st1 & ev1 & Hf & H).
    apply fetch_run in Hf as (_ & _ & _ & _ & Hq).
    assert (H1 : inserts ev1 = 0%nat) by (now apply silent_inserts).
    destruct docs as [|x l].
    + destruct H as (_ & _ & ->). lia.
    + destruct H as (st2 & ev2 & ev3 & Hw & -> & H).
      apply write_batch_run in Hw as (_ & _ & tail & -> & Ht).
      assert (H3 : inserts ev3 = 0%nat).
      { destruct (write_outcome c (x :: l)).
        - destruct H as [Hp _].
          eapply (obeys_run (only (fun e => is_insert e = false /\ is_collection e = false)))
            in Hp; [|solve [obey]].
          now apply silent_inserts.
        - now destruct H as (_ & _ & ->). }
      rewrite !inserts_app, H1, H3, inserts_insert, (chatter_inserts _ Ht). lia.
  - eapply (obeys_run (only (fun e => is_collection e = false))) in H; [exact H|].
    obey.
Qed.

Lemma batch_iteration_stop_tracks d c b num :
  obeys stop_tracks (batch_iteration d c b num).
Proof. obey. Qed.

(** The batch loop polls [_stop] before every batch. *)
Lemma batch_loop_heeds d c b num fuel :
  obeys heeds_stop (batch_loop d c b num fuel).
Proof.
  induction fuel as [|fuel IH]; intros st; rewrite batch_loop_unfold.
  - destruct (_ && _); apply chain_nil.
  - destruct ((migrated_count st <? num) && negb (_stop st)) eqn:Ec; [|apply chain_nil].
    apply andb_prop in Ec as [_ Es]. apply negb_true_iff in Es.
    destruct (batch_iteration d c b num st) as [[r st1] ev1] eqn:Hi.
    pose proof (obeys_run _ _ _ _ _ _ (batch_iteration_stop_tracks d c b num) Hi) as Ht.
    apply batch_iteration_inserts in Hi as [Hn Hc].
    assert (Hsp : forall pre post, ev1 = pre ++ EvSigint :: post -> winds_down post)
      by (intros pre post; now apply winds_down_split).
    assert (Hend : heeds_stop st ev1 st1).
    { split; [exact Ht|]. split; [congruence | exact Hsp]. }
    destruct r as [[|]|e]; unfold events, final; simpl.
    + specialize (IH st1). unfold events, final in IH.
      destruct (batch_loop d c b num fuel st1) as [[r2 st2] ev2]. simpl in *.
      destruct (heeds_stop_after _ _ _ _ _ Ht Hsp IH) as [Ht' Hsp'].
      split; [exact Ht'|]. split; [congruence | exact Hsp'].
    + rewrite app_nil_r. exact Hend.
    + exact Hend.
Qed.

#[global] Hint Resolve batch_loop_heeds : obeys.

Lemma process_collection_heeds d percentage batch_size c :
  obeys heeds_stop (process_collection d percentage batch_size c).
Proof. obey. Qed.

Lemma collection_mark_run d name st r st' ev :
  call d (EvCollection name) st = (r, st', ev) ->
  stop_tracks st ev st' /\
  (forall pre post, ev = pre ++ EvSigint :: post -> winds_down post).
Proof.
  intros H. split; [eapply (obeys_run stop_tracks); [|exact H]; obey|].
  destruct (call_cases d (EvCollection name) st) as [Hc | Hc]; rewrite Hc in H;
    injection H as <- <- <-.
  - intros [|x pre] post [= ]; subst; now destruct pre.
  - intros [|x [|y [|z pre]]] post [= ]; subst; try discriminate.
    + apply silent_winds_down. repeat constructor.
    + now destruct pre.
Qed.

Lemma collections_loop_unfold d percentage batch_size c rest st :
  collections_loop d percentage batch_size (c :: rest) st =
  if _stop st then (Normal tt, st, [])
  else
    let '(_, st0, ev0) := call d (EvCollection (coll_name c)) st in
    let '(r, st1, ev1) :=
      bind (process_collection d percentage batch_size c)
        (fun _ => collections_loop d percentage batch_size rest) st0 in
    (r, st1, ev0 ++ ev1).
Proof.
  change (collections_loop d percentage batch_size (c :: rest) st)
    with (bind (get _stop)
            (fun stop : bool =>
               if stop then ret tt
               else bind (call d (EvCollection (coll_name c)))
                      (fun _ => bind (process_collection d percentage batch_size c)
                                  (fun _ => collections_loop d percentage batch_size rest)))
            st).
  unfold bind at 1, get. destruct (_stop st); [reflexivity|].
  unfold bind at 1.
  destruct (call_cases d (EvCollection (coll_name c)) st) as [-> | ->];
    destruct (bind _ _ _) as [[r st1] ev1]; reflexivity.
Qed.

(** The collection loop polls [_stop] before every collection. *)
Lemma collections_loop_heeds d percentage batch_size cs :
  obeys heeds_stop (collections_loop d percentage batch_size cs).
Proof.
  induction cs as [|c rest IH]; intros st; [apply chain_nil|].
  rewrite collections_loop_unfold.
  destruct (_stop st) eqn:Es; [apply chain_nil|].
  destruct (call d (EvCollection (coll_name c)) st) as [[r0 st0] ev0] eqn:Hc.
  apply collection_mark_run in Hc as [Ht0 Hsp0].
  assert (Hrest : obeys heeds_stop
            (bind (process_collection d percentage batch_size c)
               (fun _ => collections_loop d percentage batch_size rest))).
  { apply obeys_bind; [typeclasses eauto | apply process_collection_heeds | intros _; exact IH]. }
  specialize (Hrest st0). unfold events, final in *.
  destruct (bind (process_collection d percentage batch_size c)
              (fun _ => collections_loop d percentage batch_size rest) st0)
    as [[r1 st1] ev1].
  simpl in *.
  destruct (heeds_stop_after _ _ _ _ _ Ht0 Hsp0 Hrest) as [Ht Hsp].
  split; [exact Ht|]. split; [congruence | exact Hsp].
Qed.

#[global] Hint Resolve collections_loop_heeds : obeys.

Lemma migrate_heeds d percentage batch_size :
  obeys heeds_stop (_migrate d percentage batch_size).
Proof. obey. Qed.

(** A write that has been issued is carried out whether or not the interrupt
    arrives while it runs. *)
Lemma insert_many_ignores_sigint d c docs ordered st :
  result (insert_many d c docs ordered st)
    = result (insert_many (without_sigint d) c docs ordered st) /\
  target_db (final (insert_many d c docs ordered st))
    = target_db (final (insert_many (without_sigint d) c docs ordered st)).
Proof.
  destruct (insert_many d c docs ordered st) as [[r1 s1] e1] eqn:H1.
  destruct (insert_many (without_sigint d) c docs ordered st) as [[r2 s2] e2] eqn:H2.
  apply insert_many_run in H1 as (x1 & t1 & Hc1 & _ & Hw1).
  apply insert_many_run in H2 as (x2 & t2 & Hc2 & _ & Hw2).
  apply call_facts in Hc1 as (_ & (_ & Hd1 & _) & _).
  apply call_facts in Hc2 as (_ & (_ & Hd2 & _) & _).
  unfold result, final. simpl.
  destruct (write_fault c docs).
  - destruct Hw1 as [-> ->], Hw2 as [-> ->]. split; congruence.
  - destruct (bulk_insert _ _ _ _) as [now errs].
    destruct Hw1 as [-> ->], Hw2 as [-> ->]. split; reflexivity.
Qed.



(** ** Instances of the theorems above *)

Lemma batch_loop_terminates_witness :
  let d := Demo.servers [] in
  let c := Demo.plain "users" 5 in
  let st := set_cursor (stream c) (initial_state ∅) in
  result (batch_loop d c 2 5 5 st) <> Normal OutOfFuel /\
  batch_loop d c 2 5 5 st = batch_loop d c 2 5 (remaining 5 st) st /\
  (forall st' ev,
      batch_iteration d c 2 5 st = (Normal true, st', ev) ->
      exists docs, docs <> [] /\ In (EvInsertMany (coll_name c) docs) ev /\
        migrated_count st' = migrated_count st + Z.of_nat (length docs)) /\
  (5 <= migrated_count st ->
     batch_loop d c 2 5 5 st = (Normal Finished, st, [])).
Proof.
  intros d c st.
  apply (batch_loop_terminates d c 2 5 st 5).
  vm_compute. lia.
Defined.

Lemma cursor_is_released_witness :
  let c := Faulty.flaky in
  In (EvCursorClose (coll_name c))
     (drop 5 (events (process_collection (Demo.servers [c]) 100 2 c (initial_state ∅)))).
Proof.
  intros c.
  apply (cursor_is_released (Demo.servers [c]) 100 2 c (initial_state ∅)
           (take 4 (events (process_collection (Demo.servers [c]) 100 2 c (initial_state ∅))))).
  vm_compute. reflexivity.
Defined.

Lemma duplicates_do_not_stop_the_batch_witness :
  let d := Demo.servers [] in
  let c := Demo.plain "users" 3 in
  let st := set_cursor (stream c) (initial_state (<["users" := [Demo.doc 1]]> ∅)) in
  let docs := [Demo.doc 0; Demo.doc 1; Demo.doc 2] in
  let now := [Demo.doc 1; Demo.doc 0; Demo.doc 2] in
  let errs := [duplicate_key] in
  exists st' ev,
    batch_iteration d c 3 3 st = (Normal true, st', ev) /\
    In (EvInsertMany (coll_name c) docs) ev /\
    target_db st' = <[coll_name c := now]> (target_db st) /\
    (forall l1 x l2,
        docs = l1 ++ x :: l2 ->
        has_id (doc_id x) (default [] (target_db st !! coll_name c) ++ l1) = false ->
        rejects c x = None ->
        In x now) /\
    (length now + length errs =
       length (default [] (target_db st !! coll_name c)) + length docs)%nat /\
    migrated_count st' = migrated_count st + Z.of_nat (length docs) /\
    Z.of_nat (length now) - Z.of_nat (length (default [] (target_db st !! coll_name c)))
      < migrated_count st' - migrated_count st /\
    batch_loop d c 3 3 1 st =
      (let '(r, st2, ev2) := batch_loop d c 3 3 0 st' in (r, st2, ev ++ ev2)).
Proof.
  intros d c st docs now errs.
  apply (duplicates_do_not_stop_the_batch d c 3 3 st docs
           (final (fetch d c 3 3 [] st)) (events (fetch d c 3 3 [] st)) now errs 0).
  - vm_compute. reflexivity.
  - reflexivity.
  - vm_compute. reflexivity.
  - discriminate.
  - reflexivity.
  - vm_compute. reflexivity.
  - discriminate.
  - reflexivity.
Defined.

(** * Further properties of the engine and of the command *)

(** ** The command, beyond the percentage *)

Lemma valid_percentage p :
  1 <= p <= 100 -> negb ((1 <=? p) && (p <=? 100)) = false.
Proof.
  intros [H1 H2]. apply Z.leb_le in H1, H2. now rewrite H1, H2.
Qed.

(** X1.  With a valid percentage and a direction that is not ["to_local"]
    (compared in lower case), the command logs one error and exits with
    status 1: no client is created and the target is as it was. *)
Theorem unknown_direction_exits_early d direction percentage batch_size st :
  1 <= percentage <= 100 ->
  lower direction <> "to_local"%string ->
  let run := migrate d direction percentage batch_size st in
  result run = Normal (SystemExit 1) /\
  (exists tail, events run = EvLog Error MsgUnknownDirection :: tail /\
                Forall (fun x => is_chatter x = true) tail) /\
  target_db (final run) = target_db st /\
  source_client (final run) = source_client st /\
  target_client (final run) = target_client st.
Proof.
  intros Hp Hd run. subst run.
  destruct (migrate d direction percentage batch_size st) as [[r st'] ev] eqn:H.
  unfold result, events, final. simpl.
  unfold migrate in H. rewrite (valid_percentage _ Hp) in H.
  apply String.eqb_neq in Hd. rewrite Hd in H.
  unfold logger_error in H. steps; calls; simpl in *.
  repeat split; try congruence.
  eexists. split; [reflexivity|]. rewrite app_nil_r. assumption.
Qed.

(** X2.  With a valid percentage and the direction ["to_local"], the command
    returns normally whatever happened in the engine: [_migrate] raises
    nothing, so the handlers of lines 52-58 never run, the events of the
    engine are followed by "Migration completed successfully." and the exit
    status is 0, also when no server could be reached. *)
Theorem engine_failure_is_reported_as_success d direction percentage batch_size st :
  1 <= percentage <= 100 ->
  lower direction = "to_local"%string ->
  let run := migrate d direction percentage batch_size st in
  result run = Normal Returns /\
  exit_status Returns = 0 /\
  target_db (final run) = target_db (final (_migrate d percentage batch_size st)) /\
  (exists tail,
      events run
        = events (_migrate d percentage batch_size st) ++ EvLog Info MsgSuccess :: tail /\
      Forall (fun x => is_chatter x = true) tail).
Proof.
  intros Hp Hd run. subst run.
  destruct (migrate d direction percentage batch_size st) as [[r st'] ev] eqn:H.
  unfold migrate in H. rewrite (valid_percentage _ Hp), Hd in H.
  simpl in H. unfold logger_info, logger_error in H.
  steps. calls.
  match goal with E : _migrate _ _ _ _ = _ |- _ => rewrite E end.
  unfold result, events, final. simpl.
  repeat split; try congruence.
  eexists. split; [rewrite app_nil_r; reflexivity | assumption].
Qed.

Lemma engine_failure_is_reported_as_success_witness :
  let d := Deployment (fun _ => Some ConnectionFailure) (fun _ => None) None
             (inr [Demo.plain "users" 3]) (fun _ => None) (fun _ => false) in
  let run := migrate d "to_local" 100 1000 (initial_state ∅) in
  result run = Normal Returns /\
  exit_status Returns = 0 /\
  target_db (final run) = target_db (final (_migrate d 100 1000 (initial_state ∅))) /\
  (exists tail,
      events run
        = events (_migrate d 100 1000 (initial_state ∅)) ++ EvLog Info MsgSuccess :: tail /\
      Forall (fun x => is_chatter x = true) tail).
Proof.
  intros d.
  apply (engine_failure_is_reported_as_success d "to_local" 100 1000 (initial_state ∅));
    [lia | reflexivity].
Defined.

Lemma unknown_direction_exits_early_witness :
  let run := migrate (Demo.servers [Demo.plain "users" 3]) "to_cloud" 100 1000
               (initial_state ∅) in
  result run = Normal (SystemExit 1) /\
  (exists tail, events run = EvLog Error MsgUnknownDirection :: tail /\
                Forall (fun x => is_chatter x = true) tail) /\
  target_db (final run) = target_db (initial_state ∅) /\
  source_client (final run) = source_client (initial_state ∅) /\
  target_client (final run) = target_client (initial_state ∅).
Proof.
  apply (unknown_direction_exits_early (Demo.servers [Demo.plain "users" 3])
           "to_cloud" 100 1000 (initial_state ∅)); [lia | discriminate].
Defined.

(** ** From the cursor to the batches *)

Lemma yields_cons a cur :
  yields (a :: cur) = match a with inr x => x :: yields cur | inl _ => yields cur end.
Proof. now destruct a. Qed.

Lemma next_run d c st r st' ev :
  next d c st = (r, st', ev) ->
  match cursor st with
  | [] => r = Raised StopIteration /\ cursor st' = []
  | inl e :: rest => r = Raised e /\ cursor st' = rest
  | inr x :: rest => r = Normal x /\ cursor st' = rest
  end.
Proof.
  unfold next, bind, get, modify, ret, raise.
  destruct (call_cases d (EvNext (coll_name c)) st) as [-> | ->]; simpl;
    destruct (cursor st) as [|[e|x] rest] eqn:Ec; intros [= <- <- <-]; auto.
Qed.

(** Lines 131-141: what [fetch] adds to [docs] is what the cursor gave. *)
Lemma fetch_yields d c num n :
  forall docs st batch st' ev,
    fetch d c num n docs st = (Normal batch, st', ev) ->
    exists new, batch = docs ++ new /\ (length new <= n)%nat /\
      yields (cursor st) = new ++ yields (cursor st').
Proof.
  induction n as [|n IH]; intros docs st batch st' ev H; simpl in H.
  - step H. exists []. now rewrite app_nil_r.
  - unfold logger_error in H. steps.
    all: try match goal with H : next _ _ _ = _ |- _ => apply next_run in H end.
    all: try match goal with H : fetch _ _ _ _ _ _ = _ |- _ =>
               apply IH in H as (new & -> & Hn & Hy) end.
    all: calls.
    all: try match goal with
         | E : match cursor ?s with _ => _ end |- _ =>
             let Ec := fresh "Ec" in
             destruct (cursor s) as [|[?|?] ?] eqn:Ec; destruct E as [? ?]; simplify_eq
         end.
    all: rewrite ?yields_cons.
    all: first
      [ exists []; split; [now rewrite app_nil_r|]; split; [simpl; lia|]; simpl; congruence
      | match goal with
        | |- exists new0, (_ ++ [?a]) ++ ?new = _ /\ _ =>
            exists (a :: new); rewrite <- app_assoc; split; [reflexivity|];
            split; [simpl; lia|]; simpl; congruence
        | |- exists new0, _ ++ ?new = _ /\ _ =>
            exists new; split; [reflexivity|]; split; [lia|];
            try match goal with
                | H : cursor ?s = [], Hy : context [cursor ?s] |- _ => rewrite H in Hy
                end; simpl in *; congruence
        end ].
Qed.

(** Lines 129-165: the batch that is written is what was fetched. *)
Lemma batch_iteration_follows d c b num :
  obeys follows_cursor (batch_iteration d c b num).
Proof.
  intros st.
  destruct (batch_iteration d c b num st) as [[r st'] ev] eqn:H.
  unfold follows_cursor, events, final. simpl.
  apply batch_iteration_run in H as (docs & st1 & ev1 & Hf & H).
  pose proof (fetch_yields _ _ _ _ _ _ _ _ _ Hf) as (new & -> & _ & Hy).
  apply fetch_run in Hf as (_ & _ & _ & _ & Hq).
  assert (Hq' : handed ev1 = []).
  { apply handed_quiet. eapply Forall_impl; [exact Hq|]. now intros e [He _]. }
  simpl in H. destruct new as [|x l].
  - destruct H as (_ & -> & ->). now rewrite Hq'.
  - destruct H as (st2 & ev2 & ev3 & Hw & -> & H).
    learn (keeps cursor) Hw. unfold keeps in K.
    apply write_batch_run in Hw as (_ & _ & tail & -> & Ht).
    apply handed_chatter in Ht.
    rewrite !handed_app, Hq'. cbn [handed flat_map]. fold (handed tail). rewrite Ht.
    destruct (write_outcome c (x :: l)).
    + destruct H as [Hp _].
      learn (keeps cursor) Hp. learn (only (fun x => is_insert x = false)) Hp.
      unfold keeps, only in *. apply handed_quiet in K1. rewrite K1.
      cbn [cursor set_migrated_count] in K0.
      rewrite Hy, K0, K, !app_nil_r. reflexivity.
    + destruct H as (_ & -> & ->). rewrite Hy, K, !app_nil_r. reflexivity.
Qed.

#[global] Hint Resolve batch_iteration_follows : obeys.

Lemma batch_loop_follows d c b num fuel :
  obeys follows_cursor (batch_loop d c b num fuel).
Proof. apply batch_loop_obeys; [typeclasses eauto | apply batch_iteration_follows]. Qed.


(** X6.  In the processing of a collection, the batches handed to
    [insert_many], one after the other, are an initial segment of the
    documents that the cursor yields: no document is skipped, repeated or
    reordered, whatever fails and whenever the interrupt arrives. *)
Theorem batches_follow_the_cursor d percentage batch_size c st :
  let run := process_collection d percentage batch_size c st in
  exists rest, yields (stream c) = handed (events run) ++ rest.
Proof.
  intros run. subst run.
  destruct (process_collection d percentage batch_size c st) as [[r st'] ev] eqn:H.
  unfold events. simpl.
  unfold process_collection, count_documents, ensure_collection, migrate_collection,
    copy_documents in H.
  autounfold with engine in H.
  steps.
  all: try match goal with
       | H : batch_loop _ _ _ _ _ _ = _ |- _ =>
           apply (obeys_run follows_cursor) in H; [|apply batch_loop_follows];
           unfold follows_cursor in H
       end.
  all: calls; simpl in *.
  all: repeat (rewrite ?handed_app, ?handed_cons; cbv beta iota; rewrite ?app_nil_l, ?app_nil_r).
  all: repeat match goal with
       | H : Forall (fun x => is_chatter x = true) ?t |- _ =>
           apply handed_chatter in H; rewrite ?H
       end.
  all: simpl; rewrite ?app_nil_r.
  all: try (eexists; reflexivity).
  all: eexists; eassumption.
Qed.

(** ** The size of the batches *)

(** Lines 129-165 hand at most one batch to [insert_many]; it is not empty,
    has at most [batch_size] documents, and [migrated_count] moves by its
    length or not at all. *)
Lemma batch_iteration_handed d c b num st r st' ev :
  batch_iteration d c b num st = (r, st', ev) ->
  Forall (batch_sized b) ev /\
  (handed ev = [] /\ r = Normal false \/ 0 < Z.of_nat (length (handed ev)) <= b) /\
  migrated_count st <= migrated_count st' <= migrated_count st + Z.of_nat (length (handed ev)) /\
  (r = Normal true -> migrated_count st' = migrated_count st + Z.of_nat (length (handed ev))).
Proof.
  intros H.
  apply batch_iteration_run in H as (docs & st1 & ev1 & Hf & H).
  pose proof (fetch_yields _ _ _ _ _ _ _ _ _ Hf) as (new & -> & Hn & _).
  apply fetch_run in Hf as (_ & Hm1 & _ & _ & Hq).
  assert (Hq' : handed ev1 = []).
  { apply handed_quiet. eapply Forall_impl; [exact Hq|]. now intros e [He _]. }
  assert (Hs1 : Forall (batch_sized b) ev1).
  { eapply Forall_impl; [exact Hq|]. intros [] [He _]; try exact I. discriminate. }
  simpl in H. destruct new as [|x l].
  - destruct H as (-> & -> & ->). rewrite Hq'. simpl.
    split; [exact Hs1|]. split; [now left|]. split; [lia | discriminate].
  - destruct H as (st2 & ev2 & ev3 & Hw & -> & H).
    apply write_batch_run in Hw as (_ & Hm2 & tail & -> & Ht).
    assert (Hb : 0 < Z.of_nat (length (x :: l)) <= b) by (simpl in *; lia).
    assert (Hs2 : Forall (batch_sized b) (EvInsertMany (coll_name c) (x :: l) :: tail)).
    { constructor; [split; [discriminate | apply Hb]|].
      eapply Forall_impl; [exact Ht|]. intros [] He; try exact I. discriminate. }
    apply handed_chatter in Ht.
    rewrite !handed_app, Hq', handed_cons, Ht, app_nil_r. cbn [app].
    destruct (write_outcome c (x :: l)).
    + destruct H as [Hp Hr].
      learn (only (fun x => is_insert x = false)) Hp. unfold only in K.
      assert (Hs3 : Forall (batch_sized b) ev3).
      { eapply Forall_impl; [exact K|]. intros [] He; try exact I. discriminate. }
      apply handed_quiet in K. rewrite K, app_nil_r.
      apply progress_update_run in Hp as [Hm3 _].
      cbn [migrated_count set_migrated_count] in Hm3.
      split; [apply Forall_app; split; [exact Hs1|];
              change (Forall (batch_sized b)
                        ((EvInsertMany (coll_name c) (x :: l) :: tail) ++ ev3));
              apply Forall_app; split; assumption|].
      split; [now right|]. split; [lia|]. intros _. lia.
    + destruct H as (-> & -> & ->).
      change (handed []) with (@nil document). rewrite !app_nil_r.
      split; [apply Forall_app; split; assumption|].
      split; [now right|]. split; [lia | discriminate].
Qed.

Lemma batch_iteration_sized d c b num :
  obeys (only (batch_sized b)) (batch_iteration d c b num).
Proof.
  intros st. destruct (batch_iteration d c b num st) as [[r st'] ev] eqn:H.
  apply batch_iteration_handed in H. apply H.
Qed.

#[global] Hint Resolve batch_iteration_sized : obeys.

(** The [while] of line 128 starts a batch only below [num_to_migrate], so
    what it hands to [insert_many] exceeds the plan by less than a batch. *)
Lemma batch_loop_overshoot d c b num fuel :
  forall st r st' ev,
    batch_loop d c b num fuel st = (r, st', ev) ->
    (handed ev = [] \/
     migrated_count st + Z.of_nat (length (handed ev)) < num + b) /\
    migrated_count st <= migrated_count st' <= migrated_count st + Z.of_nat (length (handed ev)).
Proof.
  induction fuel as [|fuel IH]; intros st r st' ev H; rewrite batch_loop_unfold in H.
  - destruct (_ && _); injection H as <- <- <-; simpl; split; (now left) || lia.
  - destruct ((migrated_count st <? num) && negb (_stop st)) eqn:Ec.
    2:{ injection H as <- <- <-. simpl. split; (now left) || lia. }
    apply andb_prop in Ec as [Ec _]. apply Z.ltb_lt in Ec.
    destruct (batch_iteration d c b num st) as [[r1 st1] ev1] eqn:Hi.
    apply batch_iteration_handed in Hi as (_ & Hb & Hm & Ht).
    destruct r1 as [[|]|e].
    + destruct (batch_loop d c b num fuel st1) as [[r2 st2] ev2] eqn:Hl.
      injection H as <- <- <-. apply IH in Hl as [Ho Hm2].
      specialize (Ht eq_refl). rewrite handed_app, length_app.
      split; [|lia]. right.
      destruct Hb as [[_ [=]] | Hb].
      destruct Ho as [Ho | Ho]; [rewrite Ho; simpl|]; lia.
    + injection H as <- <- <-. rewrite app_nil_r. split; [|lia].
      destruct Hb as [[Hb _] | Hb]; [now left | right; lia].
    + injection H as <- <- <-. split; [|lia].
      destruct Hb as [[_ [=]] | Hb]. right; lia.
Qed.

Lemma process_collection_sized d percentage batch_size c :
  obeys (only (batch_sized batch_size)) (process_collection d percentage batch_size c).
Proof. obey. Qed.

Lemma reports_app a b : reports (a ++ b) = reports a ++ reports b.
Proof. apply flat_map_app. Qed.

Lemma reports_interrupted t : interrupted t -> reports t = [].
Proof. now intros [-> | ->]. Qed.

Lemma reports_none t :
  Forall (fun e => match e with EvLogFile _ (MsgCompleted _ _ _) => False | _ => True end) t ->
  reports t = [].
Proof.
  induction 1 as [|e t He _ IH]; [reflexivity|].
  destruct e as [| | | | | | | | | | | | | | | |? []|? |]; try exact IH. destruct He.
Qed.

Lemma reports_cons e t :
  reports (e :: t) =
  match e with
  | EvLogFile _ (MsgCompleted c migrated total) => [(c, migrated, total)]
  | _ => []
  end ++ reports t.
Proof. reflexivity. Qed.

(** X7.  Every batch handed to [insert_many] has between 1 and [batch_size]
    documents; together the batches of a collection hold fewer than
    [num_to_migrate + batch_size] documents; and the count reported at
    line 175 is at most the number of documents handed over. *)
Theorem overshoot_is_less_than_a_batch d percentage batch_size c st total num :
  estimated_document_count c = inr total ->
  num_to_migrate total percentage = inr num ->
  let run := process_collection d percentage batch_size c st in
  let n := Z.of_nat (length (handed (events run))) in
  Forall (batch_sized batch_size) (events run) /\
  (n = 0 \/ n < num + batch_size) /\
  Forall (fun '(_, migrated, _) => 0 <= migrated <= n) (reports (events run)).
Proof.
  intros Ht Hn run n. subst n run.
  split; [apply process_collection_sized|].
  destruct (process_collection d percentage batch_size c st) as [[r st'] ev] eqn:H.
  unfold events. simpl.
  unfold process_collection, count_documents, ensure_collection, migrate_collection,
    copy_documents in H.
  autounfold with engine in H. rewrite Ht in H.
  steps.
  all: try match goal with
       | H : batch_loop _ _ _ _ _ _ = _ |- _ =>
           let K := fresh "K" in
           pose proof H as K;
           eapply (obeys_run (only (fun e => match e with
                                             | EvLogFile _ (MsgCompleted _ _ _) => False
                                             | _ => True end))) in K; [|solve [obey]];
           apply reports_none in K;
           apply batch_loop_overshoot in H as [? ?]
       end.
  all: calls.
  all: repeat match goal with
       | H : interrupted ?t |- _ => apply reports_interrupted in H
       | H : Forall (fun x => is_chatter x = true) ?t |- _ => apply handed_chatter in H
       end.
  all: repeat (rewrite ?handed_app, ?handed_cons, ?reports_app, ?reports_cons;
               cbv beta iota; rewrite ?app_nil_l, ?app_nil_r).
  all: repeat match goal with
       | H : handed ?t = [] |- _ => rewrite !H
       | H : reports ?t = [] |- _ => rewrite !H
       end.
  all: change (handed []) with (@nil document); change (reports []) with (@nil (string * Z * Z)).
  all: rewrite ?app_nil_l, ?app_nil_r.
  all: try (split; [now left | constructor]).
  all: simpl in *.
  all: match goal with
       | H : handed ?t = [] \/ _ |- _ =>
           split; [destruct H as [H | H]; [left; rewrite H; reflexivity | right; lia]
                  | constructor; [lia | constructor]]
       end.
Qed.

Lemma overshoot_is_less_than_a_batch_witness :
  let c := Demo.plain "users" 100 in
  let run := process_collection (Demo.servers [c]) 50 30 c (initial_state ∅) in
  let n := Z.of_nat (length (handed (events run))) in
  Forall (batch_sized 30) (events run) /\
  (n = 0 \/ n < 50 + 30) /\
  Forall (fun '(_, migrated, _) => 0 <= migrated <= n) (reports (events run)).
Proof.
  intros c.
  apply (overshoot_is_less_than_a_batch (Demo.servers [c]) 50 30 c (initial_state ∅) 100 50);
    reflexivity.
Defined.

(** ** What the target keeps *)

Lemma insert_many_grows d c docs ordered : obeys grows (insert_many d c docs ordered).
Proof.
  intros st name l Hl.
  destruct (insert_many d c docs ordered st) as [[r st'] ev] eqn:H.
  unfold final. simpl.
  apply insert_many_run in H as (st1 & tail & Hc & _ & H).
  apply call_facts in Hc as (_ & (_ & Hdb & _) & _).
  destruct (write_fault c docs).
  - destruct H as [_ ->]. exists []. now rewrite Hdb, app_nil_r.
  - destruct (bulk_insert _ _ _ _) as [now errs] eqn:Hb. destruct H as [-> _]. simpl.
    apply bulk_insert_extends in Hb as [written ->].
    destruct (decide (name = coll_name c)) as [-> | Hne].
    + rewrite lookup_insert_eq, Hl. simpl. eauto.
    + rewrite lookup_insert_ne by congruence. exists []. now rewrite app_nil_r.
Qed.

Lemma create_collection_grows d c : obeys grows (create_collection d c).
Proof.
  intros st name l Hl.
  destruct (create_collection d c st) as [[r st'] ev] eqn:H.
  unfold final. simpl. unfold create_collection in H.
  steps; calls; simpl in *.
  all: exists []; rewrite app_nil_r; try congruence.
  rewrite lookup_insert_ne by congruence. congruence.
Qed.

#[global] Hint Resolve insert_many_grows create_collection_grows : obeys.

Lemma migrate_grows d percentage batch_size :
  obeys grows (_migrate d percentage batch_size).
Proof. obey_blocks. Qed.

(** X10.  [_migrate] removes nothing from the target and changes no
    document that is there: what a target collection held before the run
    it holds afterwards, in the same order, in front of what was added. *)
Theorem target_documents_are_kept d percentage batch_size st name l :
  target_db st !! name = Some l ->
  exists more,
    target_db (final (_migrate d percentage batch_size st)) !! name = Some (l ++ more).
Proof. apply migrate_grows. Qed.

Lemma target_documents_are_kept_witness :
  exists more,
    target_db (final (_migrate (Demo.servers [Demo.plain "users" 3]) 100 2
                        (initial_state (<["users" := [Demo.doc 7]]> ∅)))) !! "users"
    = Some ([Demo.doc 7] ++ more).
Proof.
  apply (target_documents_are_kept (Demo.servers [Demo.plain "users" 3]) 100 2
           (initial_state (<["users" := [Demo.doc 7]]> ∅)) "users" [Demo.doc 7]).
  vm_compute. reflexivity.
Defined.

(** ** A flag that is never cleared *)

(** Line 86: with the flag set the loop leaves at once. *)
Lemma collections_loop_stays d percentage batch_size cs :
  obeys stays_stopped (collections_loop d percentage batch_size cs).
Proof.
  intros st Hs. destruct cs as [|c rest]; [repeat split; auto|].
  rewrite collections_loop_unfold, Hs. repeat split; auto.
Qed.

(** Line 177: with the flag set the completion is not reported. *)
Lemma completion_line_stays d :
  obeys stays_stopped
    (bind (get _stop)
       (fun stop : bool => if stop then ret tt else call d (EvLog Info MsgComplete))).
Proof.
  intros st Hs. unfold bind, get, events, final. simpl. rewrite Hs. simpl.
  repeat split; auto.
Qed.

#[global] Hint Resolve collections_loop_stays completion_line_stays : obeys.

Lemma migrate_stays_stopped d percentage batch_size :
  obeys stays_stopped (_migrate d percentage batch_size).
Proof. obey. Qed.

(** X4.  [_migrate] never clears [_stop].  A run that starts with the flag
    set (an earlier run of the same process was interrupted) connects and
    lists the collections, but begins no collection, reads and writes no
    document, does not report the completion, and leaves the flag set. *)
Theorem stop_flag_is_never_cleared d percentage batch_size st :
  _stop st = true ->
  let run := _migrate d percentage batch_size st in
  result run = Normal tt /\
  _stop (final run) = true /\
  target_db (final run) = target_db st /\
  Forall (fun e => is_work e = false) (events run).
Proof.
  intros Hs run. split; [|apply migrate_stays_stopped, Hs].
  destruct (migrate_never_raises d percentage batch_size st) as [[] H]. exact H.
Qed.

Lemma stop_flag_is_never_cleared_witness :
  let d := Demo.servers [Demo.plain "users" 3] in
  let st := set_stop true (initial_state ∅) in
  let run := _migrate d 100 2 st in
  result run = Normal tt /\
  _stop (final run) = true /\
  target_db (final run) = target_db st /\
  Forall (fun e => is_work e = false) (events run).
Proof.
  intros d st.
  apply (stop_flag_is_never_cleared d 100 2 st). reflexivity.
Defined.

(** ** Servers that cannot be reached *)

Lemma connect_fails d st e :
  connect_fault d = Some e ->
  exists st' ev,
    connect d st = (Raised e, st', ev) /\ target_db st' = target_db st /\
    Forall (fun x => uses_database x = false) ev.
Proof.
  intros Hf.
  destruct (connect d st) as [[r st'] ev] eqn:H. exists st', ev.
  pose proof H as K.
  eapply (obeys_run (both (keeps target_db) (only (fun x => uses_database x = false))))
    in K; [|solve [obey]].
  destruct K as [K1 K2]. split; [|split; assumption].
  f_equal. f_equal.
  unfold connect_fault in Hf. unfold connect in H. autounfold with engine in H.
  steps; congruence.
Qed.

Lemma migrate_body_unreachable d percentage batch_size st e :
  connect_fault d = Some e ->
  exists st' ev,
    migrate_body d percentage batch_size st
      = (if is_PyMongoError e then Normal tt else Raised e, st', ev) /\
    target_db st' = target_db st /\
    Forall (fun x => uses_database x = false) ev /\
    (is_PyMongoError e = true -> In (EvLog Error MsgConnectionError) ev).
Proof.
  intros Hf. destruct (connect_fails d st e Hf) as (st1 & ev1 & Hc & Hdb & Hq).
  unfold migrate_body, bind at 1, try_except, bind at 1. rewrite Hc.
  destruct (is_PyMongoError e) eqn:He.
  - unfold logger_error, bind.
    destruct (call d (EvLog Error MsgConnectionError) st1) as [[r2 st2] ev2] eqn:Hl.
    apply call_facts in Hl as (-> & (_ & Hdb2 & _) & tail & -> & Hi).
    simpl. do 2 eexists. split; [reflexivity|]. split; [congruence|]. split.
    + rewrite !app_nil_r. apply Forall_app. split; [exact Hq|].
      destruct Hi as [-> | ->]; repeat constructor.
    + intros _. rewrite !app_nil_r. apply in_or_app. right. now left.
  - do 2 eexists. split; [reflexivity|]. split; [exact Hdb|]. split; [exact Hq|].
    discriminate.
Qed.

(** X3.  When creating a client or the ping of a server fails, the run
    ends normally without using a database: no collection is listed, read or
    written and the target is as it was.  A pymongo error is logged as
    "MongoDB connection error", any other exception as "Migration failed". *)
Theorem connection_failure_touches_nothing d percentage batch_size st e :
  connect_fault d = Some e ->
  let run := _migrate d percentage batch_size st in
  result run = Normal tt /\
  target_db (final run) = target_db st /\
  Forall (fun x => uses_database x = false) (events run) /\
  In (EvLog Error (if is_PyMongoError e then MsgConnectionError else MsgMigrationFailed))
     (events run).
Proof.
  intros Hf run. subst run.
  split; [destruct (migrate_never_raises d percentage batch_size st) as [[] H]; exact H|].
  destruct (_migrate d percentage batch_size st) as [[r st'] ev] eqn:H.
  unfold final, events. simpl.
  unfold _migrate, log_to_file, logger_error in H.
  steps.
  all: match goal with
       | H : migrate_body _ _ _ ?s = _ |- _ =>
           destruct (migrate_body_unreachable d percentage batch_size s e Hf)
             as (sb & eb & Hb & Hdb & Hq & Hin);
           rewrite Hb in H; destruct (is_PyMongoError e) eqn:He; simplify_eq
       end.
  all: match goal with
       | H : cleanup _ _ = _ |- _ =>
           eapply (obeys_run (both (keeps target_db)
                                (only (fun x => uses_database x = false)))) in H;
           [destruct H as [Hk Ho]; unfold keeps, only in Hk, Ho | solve [obey]]
       end.
  all: calls; simpl in *.
  all: split; [congruence|]; split.
  all: rewrite ?app_nil_r.
  all: repeat first [ assumption | apply Forall_app; split
                    | apply List.Forall_cons; [reflexivity|] | apply List.Forall_nil ].
  all: try match goal with
       | H : interrupted ?t |- Forall _ ?t => destruct H as [-> | ->]; repeat constructor
       end.
  all: right; rewrite !in_app_iff.
  - right. left. now apply Hin.
  - right. left. right. now left.
Qed.

Lemma connection_failure_touches_nothing_witness :
  let d := Deployment (fun _ => None)
             (fun s => match s with Target => Some ConnectionFailure | Source => None end)
             None (inr [Demo.plain "users" 3]) (fun _ => None) (fun _ => false) in
  let run := _migrate d 100 2 (initial_state ∅) in
  result run = Normal tt /\
  target_db (final run) = target_db (initial_state ∅) /\
  Forall (fun x => uses_database x = false) (events run) /\
  In (EvLog Error (if is_PyMongoError ConnectionFailure
                   then MsgConnectionError else MsgMigrationFailed))
     (events run).
Proof.
  intros d.
  apply (connection_failure_touches_nothing d 100 2 (initial_state ∅) ConnectionFailure).
  reflexivity.
Defined.

(** ** One unit of progress for each collection *)

Lemma advances_app a b : advances (a ++ b) = (advances a + advances b)%nat.
Proof. unfold advances. now rewrite filter_app, length_app. Qed.

Lemma advances_cons e t :
  advances (e :: t) = ((if is_advance e then 1 else 0) + advances t)%nat.
Proof.
  unfold advances. rewrite filter_cons.
  destruct (decide (is_advance e = true)) as [-> | H]; [reflexivity|].
  now destruct (is_advance e).
Qed.

Lemma advances_none t : Forall (fun e => is_advance e = false) t -> advances t = 0%nat.
Proof.
  induction 1 as [|e t He _ IH]; [reflexivity|].
  now rewrite advances_cons, He, IH.
Qed.

Lemma advances_interrupted t : interrupted t -> advances t = 0%nat.
Proof. now intros [-> | ->]. Qed.

(** X5.  The processing of a collection that returns normally has called
    [progress.advance(overall_task)] exactly once, on every path: an error
    while counting, an empty collection, a cursor that cannot be created, a
    copy that was completed, aborted or interrupted.  It raises only with
    the [TypeError] of line 110 (an empty collection that could not be
    created) or with an arithmetic error of line 114, and then the progress
    has not moved. *)
Theorem every_collection_is_counted_once d percentage batch_size c st :
  let run := process_collection d percentage batch_size c st in
  match result run with
  | Normal _ =>
      overall (final run) = S (overall st) /\ advances (events run) = 1%nat
  | Raised e =>
      overall (final run) = overall st /\ advances (events run) = 0%nat /\
      (e = TypeError /\ estimated_document_count c = inr 0 \/
       exists a total,
         e = ArithError a /\ estimated_document_count c = inr total /\
         num_to_migrate total percentage = inl a)
  end.
Proof.
  intros run. subst run.
  destruct (process_collection d percentage batch_size c st) as [[r st'] ev] eqn:H.
  unfold result, final, events. simpl.
  unfold process_collection, count_documents, ensure_collection, migrate_collection,
    copy_documents in H.
  autounfold with engine in H.
  steps.
  all: try match goal with
       | H : batch_loop _ _ _ _ _ _ = _ |- _ =>
           let K := fresh "K" in
           pose proof H as K;
           eapply (obeys_run (only (fun e => is_advance e = false))) in K; [|solve [obey]];
           apply advances_none in K;
           learn (keeps overall) H; unfold keeps in *
       end.
  all: calls; simpl in *.
  all: repeat match goal with
       | H : interrupted ?t |- _ => apply advances_interrupted in H
       end.
  all: repeat (rewrite ?advances_app, ?advances_cons; cbv beta iota).
  all: repeat match goal with
       | H : advances ?t = 0%nat |- _ => rewrite !H
       end.
  all: change (advances []) with 0%nat.
  all: cbn [is_advance Nat.add].
  all: repeat match goal with
       | H : (_ =? 0) = true |- _ => apply Z.eqb_eq in H; subst
       end.
  all: repeat split; try congruence; try lia.
  all: try (left; split; [reflexivity | congruence]).
  all: right; do 2 eexists; repeat split; solve [eauto].
Qed.

(** ** The copy when nothing fails *)

Lemma yields_plain (l : list document) : yields (map inr l) = l.
Proof.
  induction l as [|x l IH]; [reflexivity|].
  change (map inr (x :: l)) with (@inr exn document x :: map inr l).
  now rewrite yields_cons, IH.
Qed.

(** Lines 131-141 on a cursor that does not fail: the next [n] documents,
    or all that are left. *)
Lemma fetch_plain d c num n :
  forall docs l st r st' ev,
    fetch (without_sigint d) c num n docs st = (r, st', ev) ->
    cursor st = map inr l ->
    migrated_count st < num ->
    r = Normal (docs ++ take n l) /\ cursor st' = map inr (drop n l).
Proof.
  induction n as [|n IH]; intros docs l st r st' ev H Hc Hm; simpl in H.
  - step H. rewrite take_0, drop_0, app_nil_r. auto.
  - unfold logger_error in H. steps.
    all: try match goal with H : (_ <=? _) = true |- _ => apply Z.leb_le in H; lia end.
    all: match goal with H : next _ _ _ = _ |- _ =>
           pose proof H as Hk; learn (keeps migrated_count) Hk; unfold keeps in *;
           apply next_run in H; rewrite Hc in H end.
    all: destruct l as [|x l]; simpl in *;
      match goal with H : _ /\ cursor _ = _ |- _ => destruct H as [? Hc'] end;
      simplify_eq.
    + match goal with H : fetch _ _ _ _ _ _ = _ |- _ =>
        apply (IH _ l) in H as [-> ->]; [| assumption | lia] end.
      now rewrite <- app_assoc.
    + match goal with H : fetch _ _ _ _ _ _ = _ |- _ =>
        apply (IH _ []) in H as [-> ->]; [| assumption | lia] end.
      now rewrite take_nil, drop_nil.
Qed.

Lemma rounded_up_nonpositive x b : 0 < b -> x <= 0 -> rounded_up x b <= 0.
Proof.
  intros Hb Hx. unfold rounded_up.
  assert ((x + b - 1) / b < 1) by (apply Z.div_lt_upper_bound; lia). nia.
Qed.

Lemma rounded_up_step x b : 0 < b -> rounded_up (x - b) b = rounded_up x b - b.
Proof.
  intros Hb. unfold rounded_up.
  replace (x - b + b - 1) with (x + b - 1 + (-1) * b) by lia.
  rewrite Z.div_add by lia. lia.
Qed.

Lemma rounded_up_covers x b : 0 < b -> 0 < x -> x <= rounded_up x b /\ b <= rounded_up x b.
Proof.
  intros Hb Hx. unfold rounded_up.
  pose proof (Z.div_mod (x + b - 1) b ltac:(lia)) as Hd.
  pose proof (Z.mod_pos_bound (x + b - 1) b Hb) as Hr.
  assert (1 <= (x + b - 1) / b) by (apply Z.div_le_lower_bound; lia).
  split; nia.
Qed.

(** One turn of the [while] on a steady collection. *)
Lemma batch_iteration_plain d c b num docs l st r st' ev :
  batch_iteration (without_sigint d) c b num st = (r, st', ev) ->
  steady c docs ->
  cursor st = map inr l ->
  migrated_count st < num ->
  r = Normal (negb (bool_decide (take (Z.to_nat b) l = []))) /\
  handed ev = take (Z.to_nat b) l /\
  cursor st' = map inr (drop (Z.to_nat b) l) /\
  _stop st' = _stop st /\
  migrated_count st' = migrated_count st + Z.of_nat (length (take (Z.to_nat b) l)).
Proof.
  intros H (_ & _ & _ & Hw & Hu) Hc Hm.
  pose proof H as Hs. learn (keeps _stop) Hs. unfold keeps in K.
  pose proof (batch_iteration_follows (without_sigint d) c b num st) as Hy.
  pose proof (batch_iteration_handed _ _ _ _ _ _ _ _ H) as (_ & _ & Hmc & Ht).
  unfold follows_cursor in Hy. rewrite H in Hy. unfold events, final in Hy. simpl in Hy.
  apply batch_iteration_run in H as (batch & st1 & ev1 & Hf & H).
  pose proof (fetch_run _ _ _ _ _ _ _ _ _ Hf) as (_ & Hm1 & _).
  eapply fetch_plain in Hf as [[= Hb] Hc1]; [| exact Hc | exact Hm].
  simpl in Hb. subst batch.
  assert (Hcur : cursor st' = map inr (drop (Z.to_nat b) l)).
  { destruct (take (Z.to_nat b) l) as [|x t]; [now destruct H as (_ & -> & _)|].
    destruct H as (st2 & ev2 & ev3 & Hwb & _ & H). rewrite Hw in H. destruct H as [Hp _].
    learn (keeps cursor) Hwb. learn (keeps cursor) Hp. unfold keeps in *.
    cbn [cursor set_migrated_count] in *. congruence. }
  assert (Hh : handed ev = take (Z.to_nat b) l).
  { rewrite Hc, Hcur, !yields_plain in Hy.
    rewrite <- (take_drop (Z.to_nat b) l) in Hy at 1.
    apply app_inv_tail in Hy. congruence. }
  rewrite Hh in *.
  assert (Hr : r = Normal (negb (bool_decide (take (Z.to_nat b) l = [])))).
  { destruct (take (Z.to_nat b) l) as [|x t]; [now destruct H as (-> & _)|].
    destruct H as (st2 & ev2 & ev3 & _ & _ & H). rewrite Hw in H. destruct H as [Hp Hn].
    apply progress_update_run in Hp as [_ Hp]. rewrite Hu in Hp.
    destruct r as [[|]|e]; try discriminate; [reflexivity | congruence]. }
  repeat split; try assumption.
  destruct (take (Z.to_nat b) l) as [|x t] eqn:Et.
  - destruct H as (_ & -> & _). simpl. lia.
  - apply Ht. rewrite Hr. reflexivity.
Qed.

(** Lines 127-165 on a steady collection: whole batches until the plan is
    reached or the cursor is exhausted. *)
Lemma batch_loop_plain d c b num docs fuel :
  forall l st,
    steady c docs -> 0 < b ->
    cursor st = map inr l -> _stop st = false ->
    (remaining num st <= fuel)%nat ->
    let run := batch_loop (without_sigint d) c b num fuel st in
    result run = Normal Finished /\
    handed (events run) = take (Z.to_nat (rounded_up (num - migrated_count st) b)) l /\
    migrated_count (final run) = migrated_count st + Z.of_nat (length (handed (events run))).
Proof.
  induction fuel as [|fuel IH]; intros l st Hs Hb Hc Hstop Hfuel run; subst run;
    rewrite batch_loop_unfold; rewrite Hstop.
  - destruct (migrated_count st <? num) eqn:E; simpl.
    + apply Z.ltb_lt in E. unfold remaining in Hfuel. lia.
    + apply Z.ltb_ge in E. unfold result, events, final. simpl.
      pose proof (rounded_up_nonpositive (num - migrated_count st) b Hb ltac:(lia)).
      replace (Z.to_nat _) with 0%nat by lia. repeat split. lia.
  - destruct (migrated_count st <? num) eqn:E; simpl.
    2:{ apply Z.ltb_ge in E. unfold result, events, final. simpl.
        pose proof (rounded_up_nonpositive (num - migrated_count st) b Hb ltac:(lia)).
        replace (Z.to_nat _) with 0%nat by lia. repeat split. lia. }
    apply Z.ltb_lt in E.
    destruct (batch_iteration (without_sigint d) c b num st) as [[r1 st1] ev1] eqn:Hi.
    eapply batch_iteration_plain in Hi as (-> & Hh & Hc1 & Hs1 & Hm1); eauto.
    pose proof (rounded_up_covers (num - migrated_count st) b Hb ltac:(lia)) as [Hr1 Hr2].
    destruct (take (Z.to_nat b) l) as [|x t] eqn:Et.
    + rewrite bool_decide_eq_true_2 by reflexivity. unfold result, events, final. simpl.
      rewrite app_nil_r, Hh.
      assert (l = []) as ->.
      { destruct l; [reflexivity|]. replace (Z.to_nat b) with (S (Z.to_nat (b - 1))) in Et by lia.
        discriminate. }
      rewrite take_nil. repeat split. simpl in *. lia.
    + rewrite bool_decide_eq_false_2 by discriminate. simpl.
      specialize (IH (drop (Z.to_nat b) l) st1 Hs Hb Hc1 (eq_trans Hs1 Hstop)).
      assert (Hlen : (0 < length (x :: t) <= Z.to_nat b)%nat).
      { rewrite <- Et, length_take. simpl. split; [|lia].
        assert (0 < length (take (Z.to_nat b) l))%nat by (rewrite Et; simpl; lia).
        rewrite length_take in *. lia. }
      destruct IH as (Hr & Hh2 & Hm2).
      { unfold remaining in *. lia. }
      unfold result, events, final in *.
      destruct (batch_loop (without_sigint d) c b num fuel st1) as [[r2 st2] ev2].
      simpl in *. rewrite handed_app, Hh, Hh2, Hm2, Hh2, Hm1.
      split; [exact Hr|]. split.
      * assert (Hlt : length (take (Z.to_nat b) l) = S (length t)) by now rewrite Et.
        rewrite length_take in Hlt. rewrite <- Et.
        destruct (decide (Z.to_nat b <= length l)%nat) as [Hle | Hgt].
        -- replace (num - (migrated_count st + Z.of_nat (S (length t))))
             with (num - migrated_count st - b) by lia.
           rewrite rounded_up_step by lia.
           rewrite take_take_drop. f_equal. lia.
        -- rewrite drop_ge, take_nil, app_nil_r by lia.
           rewrite !take_ge by lia. reflexivity.
      * rewrite length_app. simpl. lia.
Qed.

(** X8.  Without an interrupt, on a collection whose cursor, writes and
    progress updates never fail in a way that ends the loop, the documents
    handed to [insert_many] are exactly the first [k] documents of the
    cursor, where [k] is the planned count rounded up to a whole number of
    batches, or all the documents if there are fewer; that number is the
    count reported at line 175. *)
Theorem steady_copy_takes_whole_batches d percentage batch_size c st docs total num :
  steady c docs ->
  estimated_document_count c = inr total ->
  total <> 0 ->
  num_to_migrate total percentage = inr num ->
  0 < batch_size ->
  _stop st = false ->
  let run := process_collection (without_sigint d) percentage batch_size c st in
  result run = Normal tt /\
  handed (events run) = take (Z.to_nat (rounded_up num batch_size)) docs /\
  reports (events run) = [(coll_name c, Z.of_nat (length (handed (events run))), total)].
Proof.
  intros Hs Ht Ht0 Hn Hb Hstop run. subst run.
  pose proof Hs as (Ha & Hf & Hst & _ & _).
  destruct (process_collection (without_sigint d) percentage batch_size c st)
    as [[r st'] ev] eqn:H.
  unfold result, events. simpl.
  unfold process_collection, count_documents, ensure_collection, migrate_collection,
    copy_documents in H.
  autounfold with engine in H. rewrite Ht in H.
  replace (batch_size <? 0) with false in H by (symmetry; apply Z.ltb_ge; lia).
  apply Z.eqb_neq in Ht0.
  steps.
  all: try congruence.
  all: repeat match goal with
       | H : call (without_sigint _) _ _ = _ |- _ => rewrite call_calm in H; simplify_eq
       end.
  all: match goal with
       | H : batch_loop _ _ _ ?n _ ?s = _ |- _ =>
           let K := fresh "K" in
           pose proof H as K;
           eapply (obeys_run (only (fun e => match e with
                                             | EvLogFile _ (MsgCompleted _ _ _) => False
                                             | _ => True end))) in K; [|solve [obey]];
           apply reports_none in K;
           assert (P1 : cursor s = map inr docs) by (rewrite <- Hst; reflexivity);
           assert (P2 : _stop s = false) by exact Hstop;
           assert (P3 : (remaining n s <= Z.to_nat n)%nat) by (unfold remaining; simpl; lia);
           pose proof (batch_loop_plain d c batch_size n docs (Z.to_nat n) docs s
                         Hs Hb P1 P2 P3) as P;
           cbv zeta in P; rewrite H in P; unfold result, events, final in P; simpl in P;
           destruct P as (Pr & Ph & Pm); clear P1 P2 P3 H
       end.
  all: try discriminate.
  all: repeat (rewrite ?handed_app, ?handed_cons, ?reports_app, ?reports_cons;
               cbv beta iota; rewrite ?app_nil_l, ?app_nil_r).
  all: change (handed []) with (@nil document);
    change (reports []) with (@nil (string * Z * Z)).
  all: rewrite ?app_nil_l, ?app_nil_r, ?K.
  all: cbn [migrated_count set_overall set_clock app].
  all: rewrite Pm, Z.sub_0_r in *.
  all: repeat split; try assumption; try reflexivity.
Qed.

Lemma steady_copy_takes_whole_batches_witness :
  let c := Demo.plain "users" 100 in
  let docs := map Demo.doc (map Z.of_nat (seq 0 100)) in
  let run := process_collection (without_sigint (Demo.servers [c])) 50 30 c
               (initial_state ∅) in
  result run = Normal tt /\
  handed (events run) = take (Z.to_nat (rounded_up 50 30)) docs /\
  reports (events run) = [(coll_name c, Z.of_nat (length (handed (events run))), 100)].
Proof.
  intros c docs.
  apply (steady_copy_takes_whole_batches (Demo.servers [c]) 50 30 c (initial_state ∅)
           docs 100 50).
  - repeat split; intros; reflexivity.
  - reflexivity.
  - lia.
  - reflexivity.
  - lia.
  - reflexivity.
Defined.

(** ** Where the batches end up *)

Lemma has_id_absent i l : ~ In i (map doc_id l) -> has_id i l = false.
Proof.
  intros H. unfold has_id. apply not_true_is_false. intros E.
  apply existsb_exists in E as (y & Hy & Heq). apply Z.eqb_eq in Heq.
  apply H. rewrite <- Heq. now apply in_map.
Qed.

(** A batch of new [_id]s that the server does not refuse is written whole. *)
Lemma bulk_insert_fresh ordered rej docs :
  forall present,
    (forall x, rej x = None) ->
    NoDup (map doc_id (present ++ docs)) ->
    bulk_insert ordered rej present docs = (present ++ docs, []).
Proof.
  induction docs as [|x rest IH]; intros present Hr Hn; simpl.
  - now rewrite app_nil_r.
  - rewrite has_id_absent, Hr.
    + rewrite IH; [now rewrite <- app_assoc | exact Hr | now rewrite <- app_assoc].
    + rewrite map_app in Hn. apply NoDup_app in Hn as (_ & Hn & _).
      intros Hi. apply list_elem_of_In in Hi. apply Hn in Hi. apply Hi. simpl. left.
Qed.

Lemma insert_many_appends d c docs ordered :
  accepts_all c -> obeys (appends c) (insert_many d c docs ordered).
Proof.
  intros [Hw Hr] st.
  destruct (insert_many d c docs ordered st) as [[r st'] ev] eqn:H.
  unfold appends, events, final, content. simpl.
  apply insert_many_run in H as (st1 & tail & Hc & -> & H).
  apply call_facts in Hc as (_ & (_ & Hdb & _) & t & [= <-] & Hi).
  apply interrupted_chatter, handed_chatter in Hi.
  rewrite handed_cons, Hi, app_nil_r. intros Hn.
  rewrite Hw in H.
  rewrite (bulk_insert_fresh _ _ _ _ Hr Hn) in H. destruct H as [-> _].
  simpl. now rewrite lookup_insert_eq.
Qed.

Lemma create_collection_appends d c : obeys (appends c) (create_collection d c).
Proof.
  intros st.
  destruct (create_collection d c st) as [[r st'] ev] eqn:H.
  unfold appends, events, final, content. simpl. intros _.
  assert (Hh : handed ev = []).
  { apply handed_quiet.
    eapply (obeys_run (only (fun x => is_insert x = false))); [|exact H]. obey. }
  rewrite Hh, app_nil_r.
  unfold create_collection in H. steps; calls; simpl in *; try congruence.
  rewrite lookup_insert_eq. simpl.
  match goal with
  | Hd : target_db ?s = target_db st, Hn : target_db ?s !! _ = None |- _ =>
      rewrite Hd in Hn; now rewrite Hn
  end.
Qed.

#[global] Hint Resolve insert_many_appends create_collection_appends : obeys.

Lemma process_collection_appends d percentage batch_size c :
  accepts_all c -> obeys (appends c) (process_collection d percentage batch_size c).
Proof. intros Ha. obey_blocks. Qed.

(** X9.  On a target that takes every write, if the [_id]s of what the
    target collection holds and of the batches handed to [insert_many] are
    all different, the collection ends up with what it held followed by
    those batches, document for document. *)
Theorem accepted_batches_are_appended d percentage batch_size c st :
  accepts_all c ->
  let run := process_collection d percentage batch_size c st in
  NoDup (map doc_id (content c st ++ handed (events run))) ->
  content c (final run) = content c st ++ handed (events run).
Proof. intros Ha run. now apply process_collection_appends. Qed.

Lemma accepted_batches_are_appended_witness :
  let c := Demo.plain "users" 5 in
  let st := initial_state (<["users" := [Demo.doc 7]]> ∅) in
  let run := process_collection (Demo.servers [c]) 100 2 c st in
  content c (final run) = content c st ++ handed (events run).
Proof.
  intros c st.
  apply (accepted_batches_are_appended (Demo.servers [c]) 100 2 c st).
  - split; intros; reflexivity.
  - apply (bool_decide_unpack _). vm_compute. exact I.
Defined.

(** * The process *)

Lemma sigint_keeps_disposition p :
  Process.on_sigint (Process.deliver_sigint p) = Process.on_sigint p.
Proof.
  unfold Process.deliver_sigint. destruct (Process.on_sigint p) eqn:E; simpl; congruence.
Qed.

Lemma fetcher_handler_spares_the_engine n p :
  Process.on_sigint p = Process.fetcher_handle_sigint ->
  Process.migrator_stop (Nat.iter n Process.deliver_sigint p) = Process.migrator_stop p /\
  Process.on_sigint (Nat.iter n Process.deliver_sigint p) = Process.fetcher_handle_sigint /\
  (0 < n -> Process.fetcher_stop (Nat.iter n Process.deliver_sigint p) = true)%nat.
Proof.
  intros H. induction n as [|n (IH1 & IH2 & IH3)]; simpl.
  - repeat split; auto. lia.
  - unfold Process.deliver_sigint at 1 3 5. rewrite IH2. simpl. auto.
Qed.

(** X11.  [app.py] imports the migration command before the Flask command,
    so the last [signal.signal] to run is the one of
    [app_endpoints_fetcher]: in the [devfrnd] process Ctrl+C runs the
    handler of the fetcher, which sets the flag of the fetcher; the flag
    [_stop] of [db_migrator], the one polled by [_migrate], is left as it
    is however often the signal arrives. *)
Theorem cli_interrupt_does_not_reach_the_engine p n :
  Process.sys_modules p Process.app = false ->
  Process.sys_modules p Process.flask_helper_service = false ->
  Process.sys_modules p Process.app_endpoints_fetcher = false ->
  let q := Process.start p in
  Process.on_sigint q = Process.fetcher_handle_sigint /\
  Process.migrator_stop (Nat.iter n Process.deliver_sigint q) = Process.migrator_stop q /\
  (Process.sys_modules p Process.db_migration_service = false ->
   Process.sys_modules p Process.db_migrator = false ->
   Process.migrator_stop q = false) /\
  (0 < n -> Process.fetcher_stop (Nat.iter n Process.deliver_sigint q) = true)%nat.
Proof.
  intros Ha Hf He q.
  assert (Hq : Process.on_sigint q = Process.fetcher_handle_sigint /\
               (Process.sys_modules p Process.db_migration_service = false ->
                Process.sys_modules p Process.db_migrator = false ->
                Process.migrator_stop q = false)).
  { subst q. unfold Process.start. simpl. rewrite Ha. simpl.
    destruct (Process.sys_modules p Process.db_migration_service) eqn:E1;
      destruct (Process.sys_modules p Process.db_migrator) eqn:E2;
      destruct (Process.sys_modules p Process.logger_utils) eqn:E3;
      simpl; rewrite ?Ha, ?Hf, ?He, ?E1, ?E2, ?E3; simpl;
      rewrite ?Ha, ?Hf, ?He, ?E1, ?E2, ?E3; simpl;
      rewrite ?Ha, ?Hf, ?He, ?E1, ?E2, ?E3; simpl;
      split; try reflexivity; try discriminate. }
  destruct Hq as [Hq1 Hq2].
  destruct (fetcher_handler_spares_the_engine n q Hq1) as (H1 & _ & H3).
  auto.
Qed.

Lemma cli_interrupt_does_not_reach_the_engine_witness :
  let p := Process.Process (fun _ => false) Process.default_int_handler true true in
  let q := Process.start p in
  Process.on_sigint q = Process.fetcher_handle_sigint /\
  Process.migrator_stop (Nat.iter 2 Process.deliver_sigint q) = Process.migrator_stop q /\
  (Process.sys_modules p Process.db_migration_service = false ->
   Process.sys_modules p Process.db_migrator = false ->
   Process.migrator_stop q = false) /\
  (0 < 2 -> Process.fetcher_stop (Nat.iter 2 Process.deliver_sigint q) = true)%nat.
Proof.
  intros p.
  apply (cli_interrupt_does_not_reach_the_engine p 2); reflexivity.
Defined.

(** * Runs of the Flask command *)

(** ** Calls *)

Lemma flask_call_cases E e w :
  (Flask.sigint E (S (Flask.clock w)) = false /\
   Flask.call E e w
     = Flask.World (Flask._stop w) (S (Flask.clock w)) (Flask.sys_path w)
         (Flask.trace w ++ [e])) \/
  (Flask.sigint E (S (Flask.clock w)) = true /\
   Flask.call E e w
     = Flask.World true (S (Flask.clock w)) (Flask.sys_path w)
         (Flask.trace w ++ [e; Flask.Sigint; Flask.Log Error Flask.MsgInterrupted])).
Proof. unfold Flask.call. destruct (Flask.sigint E _); auto. Qed.

Lemma passes_refl E w : passes E w w [].
Proof.
  unfold passes. rewrite app_nil_r. repeat split; auto. intros [].
Qed.

Lemma passes_trans E w1 w2 w3 e1 e2 :
  passes E w1 w2 e1 -> passes E w2 w3 e2 -> passes E w1 w3 (e1 ++ e2).
Proof.
  intros (Ht1 & Hk1 & Hs1 & Hi1) (Ht2 & Hk2 & Hs2 & Hi2). repeat split.
  - now rewrite Ht2, Ht1, app_assoc.
  - auto.
  - intros H. rewrite in_app_iff. destruct (Hs2 H) as [H2 | ?]; [|tauto].
    destruct (Hs1 H2); tauto.
  - rewrite in_app_iff. intros [? | ?]; auto.
Qed.

(** What a call adds to the trace, and what it leaves alone. *)
Lemma passes_call E e w :
  e <> Flask.Sigint ->
  exists tail, passes E w (Flask.call E e w) (e :: tail) /\ handler_ran tail.
Proof.
  intros He. destruct (flask_call_cases E e w) as [[Hn ->] | [Hn ->]].
  - exists []. split; [|now left]. repeat split; simpl; auto.
    intros [? | []]. congruence.
  - eexists. split; [|now right]. repeat split; simpl; auto.
    intros _. eauto.
Qed.

Lemma passes_set_sys_path E l w : passes E w (Flask.set_sys_path l w) [].
Proof.
  unfold passes. simpl. rewrite app_nil_r. repeat split; auto. intros [].
Qed.

Lemma bar_app a b : bar (a ++ b) = (bar a + bar b)%nat.
Proof. unfold bar. now rewrite List.filter_app, length_app. Qed.

Lemma bar_call e tail :
  handler_ran tail ->
  bar (e :: tail) = match e with Flask.Advance => 1%nat | _ => 0%nat end.
Proof. intros [-> | ->]; destruct e; reflexivity. Qed.

Lemma written_app a b : written (a ++ b) = written a ++ written b.
Proof. apply flat_map_app. Qed.

Lemma written_call e tail :
  handler_ran tail ->
  written (e :: tail) =
  match e with
  | Flask.WriteExcel rows | Flask.PrintConsole rows | Flask.WriteJson rows => [rows]
  | _ => []
  end.
Proof. intros [-> | ->]; destruct e; reflexivity. Qed.

Lemma verdict_app a b : verdict (a ++ b) = verdict a ++ verdict b.
Proof. apply flat_map_app. Qed.

Lemma verdict_call e tail :
  handler_ran tail ->
  verdict (e :: tail) =
  match e with
  | Flask.Log Info (Flask.MsgCollected n) => [Flask.MsgCollected n]
  | Flask.Log Error Flask.MsgFetchFailed => [Flask.MsgFetchFailed]
  | _ => []
  end.
Proof.
  intros [-> | ->]; destruct e as [[] [] | | | | | | | | | | | |];
    reflexivity.
Qed.

Lemma imported_app a b : imported (a ++ b) = imported a ++ imported b.
Proof. apply flat_map_app. Qed.

Lemma imported_call e tail :
  handler_ran tail ->
  imported (e :: tail) = match e with Flask.ImportModule m => [m] | _ => [] end.
Proof. intros [-> | ->]; destruct e; reflexivity. Qed.

(** Names every call in [H], innermost first, with what it added. *)
Ltac flask_calls H :=
  repeat match type of H with
         | context [Flask.call ?E ?e ?w0] =>
             is_var w0;
             let t := fresh "t" in let P := fresh "P" in let Hi := fresh "Hi" in
             destruct (passes_call E e w0 ltac:(discriminate)) as (t & P & Hi);
             generalize dependent (Flask.call E e w0); intros
         end.

(** Reads the bar, the writers, the verdict and the imported modules off a trace made
    of calls. *)
Ltac flask_trace :=
  rewrite ?bar_app, ?written_app, ?verdict_app, ?imported_app,
    ?bar_call, ?written_call, ?verdict_call, ?imported_call by assumption;
  simpl.


(** ** The loop over the rules *)

(** One more rule in front of a loop that went on. *)
Lemma loop_outcome_cons E allowed bp r rest endpoints rows w w1 res w' ev :
  rows_of allowed bp r = rows ->
  passes E w w1 ev -> bar ev = 1%nat -> written ev = [] -> verdict ev = [] ->
  imported ev = [] ->
  Flask._stop w = false ->
  loop_outcome E allowed bp rest (endpoints ++ rows) w1 res w' ->
  loop_outcome E allowed bp (r :: rest) endpoints w res w'.
Proof.
  intros Hrows P Hb Hw Hv Hi Hs (k & ev' & Hk & P' & Hb' & Hw' & Hv' & Hi' & _ & Hres).
  exists (S k), (ev ++ ev'). split; [simpl; lia|].
  split; [exact (passes_trans _ _ _ _ _ _ P P')|].
  rewrite bar_app, written_app, verdict_app, imported_app, Hb, Hw, Hv, Hi, Hb', Hw', Hv', Hi'.
  repeat split; try congruence.
  destruct res as [e | out].
  - destruct Hres as (-> & r' & Hr' & Hkept & Hm). split; [reflexivity|].
    exists r'. auto.
  - destruct Hres as [-> Hstop]. split.
    + simpl. rewrite Hrows, app_assoc. reflexivity.
    + simpl. intros. apply Hstop. lia.
Qed.

(** Lines 73-99: the loop adds the rows of the first [k] rules, for some
    [k], advancing the bar once for each of them; it stops early only at a
    rule that has no methods or after the flag was set. *)
Lemma rules_loop_run E allowed bp total rules :
  forall idx endpoints w res w',
    Flask.rules_loop E allowed bp total idx rules endpoints w = (res, w') ->
    loop_outcome E allowed bp rules endpoints w res w'.
Proof.
  induction rules as [|r rest IH]; intros idx endpoints w res w' H; simpl in H.
  - injection H as <- <-. exists 0%nat, [].
    split; [simpl; lia|]. split; [apply passes_refl|].
    repeat split; auto; simpl; try lia. now rewrite app_nil_r.
  - unfold Flask.info, Flask.warning in H. flask_calls H.
    assert (Hsw : Flask._stop w0 = false -> Flask._stop w = false).
    { destruct P as (_ & Hk & _). destruct (Flask._stop w); auto.
      intros Hf. rewrite Hk in Hf by reflexivity. discriminate. }
    destruct (Flask._stop w0) eqn:Hs.
    { injection H as <- <-. exists 0%nat. eexists. split; [simpl; lia|].
      split; [exact (passes_trans _ _ _ _ _ _ P P0)|]. flask_trace.
      repeat split; auto.
      - now rewrite app_nil_r.
      - intros _. destruct P0 as (_ & Hk & _). auto. }
    specialize (Hsw eq_refl).
    destruct (negb (bp =? "")%string && negb (Flask.in_blueprint bp r)) eqn:Hb.
    { apply IH in H. rewrite <- (app_nil_r endpoints) in H.
      eapply loop_outcome_cons;
        [| exact (passes_trans _ _ _ _ _ _ P (passes_trans _ _ _ _ _ _ P1 P2))
         | flask_trace; reflexivity .. | exact Hsw | exact H].
      unfold rows_of, kept. apply andb_prop in Hb as [H1 H2].
      apply negb_true_iff in H1, H2. now rewrite H1, H2. }
    assert (Hbp : (bp =? "")%string || Flask.in_blueprint bp r = true).
    { destruct (bp =? "")%string; [reflexivity|]. simpl in *.
      now apply negb_false_iff in Hb. }
    destruct (Flask.endpoint r =? "static")%string eqn:Hst.
    { apply IH in H. rewrite <- (app_nil_r endpoints) in H.
      eapply loop_outcome_cons;
        [| exact (passes_trans _ _ _ _ _ _ P (passes_trans _ _ _ _ _ _ P3 P4))
         | flask_trace; reflexivity .. | exact Hsw | exact H].
      unfold rows_of, kept. now rewrite Hbp, Hst. }
    destruct (Flask.methods r) as [ms|] eqn:Hm.
    { flask_calls H. apply IH in H.
      eapply loop_outcome_cons;
        [| exact (passes_trans _ _ _ _ _ _ P (passes_trans _ _ _ _ _ _ P5 P6))
         | flask_trace; reflexivity .. | exact Hsw | exact H].
      unfold rows_of, kept. now rewrite Hbp, Hst, Hm. }
    injection H as <- <-. exists 0%nat. eexists. split; [simpl; lia|].
    split; [exact P|]. flask_trace. repeat split; auto; try congruence.
    exists r. repeat split; auto. unfold kept. now rewrite Hbp, Hst.
Qed.

(** ** The writers *)

(** Lines 102-133. *)
Lemma write_output_run E output endpoints w r w' :
  Flask.write_output E output endpoints w = (r, w') ->
  exists ev,
    passes E w w' ev /\ bar ev = 0%nat /\ verdict ev = [] /\ imported ev = [] /\
    writer_outcome E output endpoints (written ev) r.
Proof.
  unfold Flask.write_output, Flask.info, Flask.success, Flask.warning.
  intros H. flask_calls H. unfold writer_outcome.
  destruct (output =? "excel")%string eqn:O1.
  { apply String.eqb_eq in O1. destruct endpoints as [|x l].
    - injection H as <- <-. eexists. split; [exact P|]. flask_trace. auto 10.
    - destruct (Flask.excel_fault E) as [e|] eqn:Hf; injection H as <- <-.
      + eexists. split; [exact (passes_trans _ _ _ _ _ _ P0 P1)|]. flask_trace.
        repeat split; try reflexivity. right. left. auto.
      + eexists. split;
          [exact (passes_trans _ _ _ _ _ _ P0 (passes_trans _ _ _ _ _ _ P1 P2))|].
        flask_trace. repeat split; try reflexivity. right. left. auto. }
  apply String.eqb_neq in O1.
  destruct (output =? "console")%string eqn:O2.
  { apply String.eqb_eq in O2. injection H as <- <-.
    eexists. split; [exact (passes_trans _ _ _ _ _ _ P3 P4)|]. flask_trace.
    auto 10. }
  apply String.eqb_neq in O2.
  destruct (output =? "json")%string eqn:O3.
  { apply String.eqb_eq in O3.
    destruct (Flask.json_fault E) as [e|] eqn:Hf; injection H as <- <-.
    - eexists. split; [exact (passes_trans _ _ _ _ _ _ P5 P6)|]. flask_trace.
      auto 10.
    - eexists. split;
        [exact (passes_trans _ _ _ _ _ _ P5 (passes_trans _ _ _ _ _ _ P6 P7))|].
      flask_trace. auto 10. }
  apply String.eqb_neq in O3.
  injection H as <- <-. eexists. split; [exact P8|]. flask_trace. auto 12.
Qed.

(** ** The fetcher *)

(** Lines 49-136, for an application whose rules cannot be listed. *)
Lemma fetcher_run_no_rules E a get post put delete patch bp output w e :
  Flask.iter_rules a = inl e ->
  exists ev,
    passes E w (Flask.flask_endpoint_fetcher E a get post put delete patch bp output w) ev /\
    bar ev = 0%nat /\ written ev = [] /\ verdict ev = [Flask.MsgFetchFailed] /\
    imported ev = [].
Proof.
  intros Hr.
  unfold Flask.flask_endpoint_fetcher, Flask.fetch_body, Flask.info, Flask.error.
  rewrite Hr.
  match goal with |- context [passes _ _ ?x _] => remember x as w' eqn:H end.
  flask_calls H. subst w'.
  eexists. split.
  - exact (passes_trans _ _ _ _ _ _ P (passes_trans _ _ _ _ _ _ P0
             (passes_trans _ _ _ _ _ _ P1 P2))).
  - flask_trace. auto.
Qed.

(** The flag is set only after the handler ran. *)
Lemma seen_later E w w1 ev1 ev2 :
  passes E w w1 ev1 -> Flask._stop w1 = true ->
  Flask._stop w = true \/ In Flask.Sigint (ev1 ++ ev2).
Proof.
  intros (_ & _ & Hs & _) H. destruct (Hs H); [now left | right].
  apply in_or_app. now left.
Qed.

(** Lines 49-136, for an application whose rules can be listed: the rows of
    the first [k] rules are collected; then either a rule without methods
    ends the run, or the writer is handed these rows. *)
Lemma fetcher_run E a get post put delete patch bp output w rules :
  Flask.iter_rules a = inr rules ->
  let allowed := Flask.allowed_methods get post put delete patch in
  exists ev k,
    passes E w (Flask.flask_endpoint_fetcher E a get post put delete patch bp output w) ev /\
    (k <= length rules)%nat /\ bar ev = k /\ imported ev = [] /\
    (Flask._stop w = true -> k = 0%nat) /\
    ((Flask._stop w = false /\
      (exists r, rules !! k = Some r /\ kept bp r = true /\ Flask.methods r = None) /\
      written ev = [] /\ verdict ev = [Flask.MsgFetchFailed])
     \/
     (exists r,
        ((k < length rules)%nat -> Flask._stop w = true \/ In Flask.Sigint ev) /\
        writer_outcome E output (flat_map (rows_of allowed bp) (take k rules))
          (written ev) r /\
        verdict ev =
          Flask.MsgCollected (length (flat_map (rows_of allowed bp) (take k rules)))
          :: match r with Some _ => [Flask.MsgFetchFailed] | None => [] end)).
Proof.
  intros Hr allowed.
  unfold Flask.flask_endpoint_fetcher, Flask.fetch_body, Flask.info, Flask.error.
  rewrite Hr. fold allowed.
  match goal with |- context [passes _ _ ?x _] => remember x as w' eqn:H end.
  flask_calls H.
  pose proof (passes_trans _ _ _ _ _ _ P
               (passes_trans _ _ _ _ _ _ P0
                 (passes_trans _ _ _ _ _ _ P1
                   (passes_trans _ _ _ _ _ _ P2
                     (passes_trans _ _ _ _ _ _ P3 P4))))) as Pre.
  destruct (Flask.rules_loop E allowed bp (length rules) 0 rules [] w5)
    as [out wl] eqn:Hl.
  apply rules_loop_run in Hl
    as (k & evl & Hk & Pl & Hbl & Hwl & Hvl & Hil & Hstale & Hres).
  pose proof (passes_trans _ _ _ _ _ _ Pre Pl) as Loop.
  assert (Hk0 : Flask._stop w = true -> k = 0%nat /\ out = inr []).
  { intros Hs. apply Hstale. destruct Pre as (_ & Hkeep & _). auto. }
  destruct out as [e | endpoints].
  { flask_calls H. subst w'. destruct Hres as (-> & r & Hr' & Hkept & Hm).
    eexists. exists k. split; [exact (passes_trans _ _ _ _ _ _ Loop P5)|].
    flask_trace. rewrite Hbl, Hwl, Hvl, Hil. simpl.
    repeat split; auto; try lia.
    - intros Hs. now apply Hk0.
    - left. repeat split; auto; [|eauto].
      destruct (Flask._stop w); [|reflexivity].
      destruct (Hk0 eq_refl) as [_ ?]. discriminate. }
  destruct Hres as [Hout Hstop]. simpl in Hout. subst endpoints.
  flask_calls H.
  match type of H with
  | context [Flask.write_output E output ?l ?x] =>
      destruct (Flask.write_output E output l x) as [o wo] eqn:Ho
  end.
  apply write_output_run in Ho as (evo & Po & Hbo & Hvo & Hio & Hwo).
  destruct o as [e|].
  - flask_calls H. subst w'. eexists. exists k.
    split; [exact (passes_trans _ _ _ _ _ _ Loop
                     (passes_trans _ _ _ _ _ _ P5 (passes_trans _ _ _ _ _ _ Po P6)))|].
    split; [exact Hk|].
    split; [flask_trace; rewrite Hbl, Hbo; simpl; lia|].
    split; [flask_trace; now rewrite Hil, Hio|].
    split; [intros Hs; now apply Hk0|].
    right. exists (Some e).
    split; [intros Hlt; exact (seen_later _ _ _ _ _ Loop (Hstop Hlt))|].
    flask_trace. rewrite Hwl, Hvl, Hvo. simpl. rewrite app_nil_r. auto.
  - subst w'. eexists. exists k.
    split; [exact (passes_trans _ _ _ _ _ _ Loop (passes_trans _ _ _ _ _ _ P5 Po))|].
    split; [exact Hk|].
    split; [flask_trace; rewrite Hbl, Hbo; simpl; lia|].
    split; [flask_trace; now rewrite Hil, Hio|].
    split; [intros Hs; now apply Hk0|].
    right. exists None.
    split; [intros Hlt; exact (seen_later _ _ _ _ _ Loop (Hstop Hlt))|].
    flask_trace. rewrite Hwl, Hvl, Hvo. simpl. auto.
Qed.

(** ** Import paths *)

Lemma split_nonempty sep s : Flask.split sep s <> [].
Proof.
  destruct s as [|c r]; simpl; [discriminate|].
  destruct (Ascii.eqb c sep); [discriminate|].
  destruct (Flask.split sep r); discriminate.
Qed.

Lemma split_whole sep s : Flask.contains sep s = false -> Flask.split sep s = [s].
Proof.
  induction s as [|c r IH]; simpl; [reflexivity|].
  intros H. apply orb_false_elim in H as [Hc Hr].
  now rewrite Hc, (IH Hr).
Qed.

Lemma split_one sep s x :
  Flask.split sep s = [x] -> s = x /\ Flask.contains sep x = false.
Proof.
  revert x. induction s as [|c r IH]; simpl; intros x H.
  - injection H as <-. auto.
  - destruct (Ascii.eqb c sep) eqn:Hc.
    + injection H as _ H. now apply split_nonempty in H.
    + destruct (Flask.split sep r) as [|y ys] eqn:Hs.
      * now apply split_nonempty in Hs.
      * injection H as <- ->. destruct (IH y eq_refl) as [-> Hy].
        simpl. now rewrite Hc, Hy.
Qed.

(** [s.split(sep)] has two parts exactly when [s] has one separator; the
    parts are what stands before and after it. *)
Lemma split_two sep s a b :
  Flask.split sep s = [a; b] <->
  s = (a ++ String sep b)%string /\
  Flask.contains sep a = false /\ Flask.contains sep b = false.
Proof.
  split.
  - revert a. induction s as [|c r IH]; simpl; intros a H; [discriminate|].
    destruct (Ascii.eqb c sep) eqn:Hc.
    + injection H as <- H. apply Ascii.eqb_eq in Hc as ->.
      apply split_one in H as [-> Hb]. auto.
    + destruct (Flask.split sep r) as [|y ys] eqn:Hs; [discriminate|].
      injection H as <- ->. destruct (IH y eq_refl) as (-> & Hy & Hb).
      simpl. now rewrite Hc, Hy.
  - intros (-> & Ha & Hb). induction a as [|c a IH]; simpl in *.
    + now rewrite Ascii.eqb_refl, (split_whole _ _ Hb).
    + apply orb_false_elim in Ha as [Hc Ha]. now rewrite Hc, (IH Ha).
Qed.

Lemma names_app_split E path a :
  names_app E path a <->
  exists module_name app_attr module,
    Flask.split ":" path = [module_name; app_attr] /\
    Flask.import_module E module_name = inr module /\
    module app_attr = Some a /\ Flask.truth a = inr true.
Proof.
  unfold names_app. split.
  - intros (m & attr & module & Hp & Hm & Ha & Hi & Hg & Ht).
    exists m, attr, module. repeat split; auto. apply split_two. auto.
  - intros (m & attr & module & Hs & Hi & Hg & Ht).
    apply split_two in Hs as (Hp & Hm & Ha).
    exists m, attr, module. repeat split; auto.
Qed.

(** ** The command *)

(** Builds the passage from [w] to [w'] out of the calls in the context. *)
Ltac flask_chain :=
  lazymatch goal with
  | |- passes ?E ?w ?w _ => apply passes_refl
  | |- passes ?E ?w ?w' _ =>
      match goal with
      | P : passes E w w' _ |- _ => exact P
      | P : passes E ?wa w' _ |- _ =>
          eapply (passes_trans E w wa w'); [flask_chain | exact P]
      end
  end.

(** Lines 30-55: the application is handed on exactly when the import path
    names one; every other way out is [sys.exit(1)] or an exception. *)
Lemma load_app_run E path w :
  exists ev,
    passes E w (snd (Flask.load_app E path w)) ev /\
    bar ev = 0%nat /\ written ev = [] /\ verdict ev = [] /\
    (length (imported ev) <= 1)%nat /\
    (forall m, In m (imported ev) -> exists attr, Flask.split ":" path = [m; attr]) /\
    match fst (Flask.load_app E path w) with
    | inr (inr a) => names_app E path a
    | inr (inl _) => forall a, ~ names_app E path a
    | inl x => x = SystemExit 1 /\ forall a, ~ names_app E path a
    end.
Proof.
  destruct (Flask.load_app E path w) as [r w'] eqn:H. simpl.
  unfold Flask.load_app, Flask.error, Flask.log_to_file in H.
  destruct (negb (Flask.contains ":" path)) eqn:Hc.
  { flask_calls H. injection H as <- <-. eexists. split; [flask_chain|].
    flask_trace. repeat split; auto; try lia; try tauto.
    intros a Hn. apply names_app_split in Hn as (m & attr & _ & Hs & _).
    apply negb_true_iff in Hc. rewrite (split_whole _ _ Hc) in Hs. discriminate. }
  assert (Bad : forall l, Flask.split ":" path = l ->
                  (forall m attr, l <> [m; attr]) ->
                  forall a, ~ names_app E path a).
  { intros l Hl Hne a Hn. apply names_app_split in Hn as (m & attr & _ & Hs & _).
    rewrite Hl in Hs. now apply Hne in Hs. }
  destruct (Flask.split ":" path) as [|m [|attr [|x l]]] eqn:Hs;
    try (flask_calls H; injection H as <- <-; exists []; split; [flask_chain|];
         repeat split; auto; try (simpl; lia); try (simpl; tauto);
         eapply Bad; [reflexivity | intros; discriminate]).
  clear Bad.
  assert (Only : forall a,
             names_app E path a ->
             exists module,
               Flask.import_module E m = inr module /\ module attr = Some a /\
               Flask.truth a = inr true).
  { intros a Hn. apply names_app_split in Hn as (m' & attr' & module & Hs' & Hn).
    rewrite Hs in Hs'. injection Hs' as <- <-. eauto. }
  assert (Leaf : forall ev,
             passes E w w' ev -> bar ev = 0%nat -> written ev = [] ->
             verdict ev = [] -> imported ev = [m] ->
             match r with
             | inl x => x = SystemExit 1 /\ forall a, ~ names_app E path a
             | inr (inl _) => forall a, ~ names_app E path a
             | inr (inr a) => names_app E path a
             end ->
             exists ev,
               passes E w w' ev /\ bar ev = 0%nat /\ written ev = [] /\
               verdict ev = [] /\ (length (imported ev) <= 1)%nat /\
               (forall m0, In m0 (imported ev) -> exists attr0, [m; attr] = [m0; attr0]) /\
               match r with
               | inl x => x = SystemExit 1 /\ forall a, ~ names_app E path a
               | inr (inl _) => forall a, ~ names_app E path a
               | inr (inr a) => names_app E path a
               end).
  { intros ev P Hb Hw Hv Hi Hr. exists ev. rewrite Hi. split; [exact P|].
    repeat split; auto. intros m0 [<- | []]. eauto. }
  destruct (Flask.import_module E m) as [e | module] eqn:Hi.
  { destruct e; flask_calls H; injection H as <- <-;
      (eapply Leaf; [flask_chain | flask_trace; try reflexivity ..]);
      try split; try reflexivity;
      intros a Hn; apply Only in Hn as (? & ? & _); discriminate. }
  destruct (module attr) as [a|] eqn:Hg.
  2: { flask_calls H; injection H as <- <-.
       eapply Leaf; [flask_chain | flask_trace; try reflexivity ..].
       split; [reflexivity|].
       intros a Hn. apply Only in Hn as (? & Hm & Hg' & _). congruence. }
  destruct (Flask.truth a) as [e | []] eqn:Ht;
    flask_calls H; injection H as <- <-;
    (eapply Leaf; [flask_chain | flask_trace; try reflexivity ..]).
  - split; [reflexivity|].
    intros a' Hn. apply Only in Hn as (? & Hm & Hg' & Ht'). congruence.
  - apply names_app_split. exists m, attr, module. auto.
  - split; [reflexivity|].
    intros a' Hn. apply Only in Hn as (? & Hm & Hg' & Ht'). congruence.
Qed.

(** Lines 19-74: up to the call of the fetcher nothing is collected and
    nothing is written; the fetcher is called exactly when the import path
    names an application, and the command then returns whatever the fetcher
    did. *)
Lemma flask_endpoints_run E path output get post put delete patch bp w :
  let run := Flask.flask_endpoints E path output get post put delete patch bp w in
  exists ev w0,
    passes E w w0 ev /\
    bar ev = 0%nat /\ written ev = [] /\ verdict ev = [] /\
    (length (imported ev) <= 1)%nat /\
    (forall m, In m (imported ev) -> exists attr, Flask.split ":" path = [m; attr]) /\
    ((exists a,
        names_app E path a /\
        run = (Returns,
               Flask.flask_endpoint_fetcher E a (Some get) (Some post) (Some put)
                 (Some delete) (Some patch) bp output w0))
     \/
     ((forall a, ~ names_app E path a) /\ run = (SystemExit 1, w0))).
Proof.
  intros run. subst run. unfold Flask.flask_endpoints, Flask.log_to_file, Flask.error.
  destruct (passes_call E Flask.Getcwd w ltac:(discriminate)) as (t & P & Hi).
  generalize dependent (Flask.call E Flask.Getcwd w). intros w1 P.
  destruct (passes_call E (Flask.LogFile Info (Flask.MsgCwd (Flask.getcwd E))) w1
              ltac:(discriminate)) as (t0 & P0 & Hi0).
  generalize dependent
    (Flask.call E (Flask.LogFile Info (Flask.MsgCwd (Flask.getcwd E))) w1).
  intros w2 P0.
  set (w3 := if bool_decide (Flask.getcwd E ∈ Flask.sys_path w2) then w2
             else Flask.set_sys_path (Flask.getcwd E :: Flask.sys_path w2) w2).
  assert (P1 : passes E w2 w3 []).
  { subst w3. destruct (bool_decide _);
      [apply passes_refl | apply passes_set_sys_path]. }
  clearbody w3.
  destruct (load_app_run E path w3) as (evl & Pl & Hb & Hw & Hv & Hn & Him & Hres).
  destruct (Flask.load_app E path w3) as [[x | [e | a]] w4]; simpl in *.
  - destruct Hres as [-> Hno]. eexists. exists w4. split; [flask_chain|].
    flask_trace. rewrite Hb, Hw, Hv. repeat split; auto.
  - destruct (passes_call E (Flask.Log Error Flask.MsgUnexpected) w4
                ltac:(discriminate)) as (t1 & P2 & Hi1).
    eexists. exists (Flask.call E (Flask.Log Error Flask.MsgUnexpected) w4).
    split; [flask_chain|].
    flask_trace. rewrite Hb, Hw, Hv, ?app_nil_r. repeat split; auto.
  - eexists. exists w4. split; [flask_chain|].
    flask_trace. rewrite Hb, Hw, Hv. repeat split; eauto.
Qed.

(** ** What is listed *)

Lemma writer_outcome_written E output endpoints wr r :
  writer_outcome E output endpoints wr r ->
  (wr = [] \/ wr = [endpoints]) /\
  (output = "excel"%string -> endpoints = [] -> wr = []).
Proof.
  unfold writer_outcome. intros H. split.
  - intuition auto.
  - intros -> ->. intuition congruence.
Qed.

Lemma writer_outcome_fault E output endpoints wr e :
  writer_outcome E output endpoints wr (Some e) ->
  (output = "excel"%string /\ Flask.excel_fault E <> None) \/
  (output = "json"%string /\ Flask.json_fault E <> None).
Proof. unfold writer_outcome. intuition congruence. Qed.

(** The rows of a list of rules, in elementary terms (lines 79-98). *)
Lemma in_rows allowed bp rules row :
  In row (flat_map (rows_of allowed bp) rules) <->
  exists r ms m,
    In r rules /\ Flask.methods r = Some ms /\ In m ms /\ In m allowed /\
    Flask.endpoint r <> "static"%string /\
    (bp = ""%string \/ String.prefix (bp ++ ".") (Flask.endpoint r) = true \/
     Flask.blueprint r = Some bp) /\
    row = Flask.make_row r m.
Proof.
  rewrite in_flat_map. unfold rows_of, kept, Flask.in_blueprint, Flask.is_allowed.
  split.
  - intros (r & Hr & Hin).
    destruct ((bp =? "")%string
              || (String.prefix (bp ++ ".") (Flask.endpoint r)
                  || match Flask.blueprint r with
                     | Some b => (b =? bp)%string
                     | None => false
                     end)) eqn:Hb; [|destruct Hin].
    destruct (Flask.endpoint r =? "static")%string eqn:Hs; [destruct Hin|].
    simpl in Hin. destruct (Flask.methods r) as [ms|] eqn:Hm; [|destruct Hin].
    simpl in Hin. apply in_map_iff in Hin as (m & <- & Hin).
    apply filter_In in Hin as [Hin Ha]. apply bool_decide_eq_true in Ha.
    exists r, ms, m. repeat split; auto.
    + now apply list_elem_of_In.
    + now apply String.eqb_neq.
    + apply orb_prop in Hb as [Hb | Hb]; [left; now apply String.eqb_eq|].
      apply orb_prop in Hb as [Hb | Hb]; [auto|].
      destruct (Flask.blueprint r) as [b|]; [|discriminate].
      apply String.eqb_eq in Hb as ->. auto.
  - intros (r & ms & m & Hr & Hm & Hin & Ha & Hs & Hb & ->).
    exists r. split; [exact Hr|].
    replace ((bp =? "")%string
             || (String.prefix (bp ++ ".") (Flask.endpoint r)
                 || match Flask.blueprint r with
                    | Some b => (b =? bp)%string
                    | None => false
                    end)) with true.
    + apply String.eqb_neq in Hs. rewrite Hs, Hm. simpl.
      apply in_map. apply filter_In. split; [exact Hin|].
      apply bool_decide_eq_true. now apply list_elem_of_In.
    + symmetry. destruct Hb as [-> | [Hb | Hb]].
      * reflexivity.
      * rewrite Hb. apply orb_true_r.
      * rewrite Hb, String.eqb_refl. rewrite !orb_true_r. reflexivity.
Qed.

Lemma rows_of_nothing bp rules : flat_map (rows_of [] bp) rules = [].
Proof.
  induction rules as [|r rest IH]; simpl; [reflexivity|]. rewrite IH, app_nil_r.
  unfold rows_of. destruct (kept bp r); [|reflexivity].
  destruct (Flask.methods r) as [ms|]; simpl; [|reflexivity].
  induction ms as [|m ms IHm]; simpl; [reflexivity|]. exact IHm.
Qed.

(** What every run of the fetcher shows of the rows it collected. *)
Lemma fetcher_writes E a get post put delete patch bp output w :
  let allowed := Flask.allowed_methods get post put delete patch in
  let rules := match Flask.iter_rules a with inr rules => rules | inl _ => [] end in
  exists ev k,
    passes E w (Flask.flask_endpoint_fetcher E a get post put delete patch bp output w) ev /\
    (k <= length rules)%nat /\ bar ev = k /\ imported ev = [] /\
    (Flask._stop w = true -> k = 0%nat) /\
    (written ev = [] \/ written ev = [flat_map (rows_of allowed bp) (take k rules)]) /\
    (output = "excel"%string -> flat_map (rows_of allowed bp) (take k rules) = [] ->
     written ev = []) /\
    (forall n, In (Flask.MsgCollected n) (verdict ev) ->
               n = length (flat_map (rows_of allowed bp) (take k rules))).
Proof.
  intros allowed rules. subst allowed rules.
  destruct (Flask.iter_rules a) as [e | rules] eqn:Hr.
  - destruct (fetcher_run_no_rules E a get post put delete patch bp output w e Hr)
      as (ev & P & Hb & Hw & Hv & Hi).
    exists ev, 0%nat. rewrite Hv, Hw. split; [exact P|]. repeat split; auto.
    intros n [Hn | []]. discriminate.
  - destruct (fetcher_run E a get post put delete patch bp output w rules Hr)
      as (ev & k & P & Hk & Hb & Hi & Hs & [(_ & _ & Hw & Hv) | (r & _ & Ho & Hv)]);
      exists ev, k.
    + rewrite Hv, Hw. split; [exact P|]. repeat split; auto.
      intros n [Hn | []]. discriminate.
    + apply writer_outcome_written in Ho as [Hw He]. rewrite Hv.
      split; [exact P|]. repeat split; auto.
      intros n [Hn | Hn]; [now injection Hn|].
      destruct r; [destruct Hn as [Hn | []]; discriminate | destruct Hn].
Qed.

(** ** The fetcher *)

(** X12.  What [flask_endpoint_fetcher] collects is what the filters keep of
    the first [k] rules of the application, in the order of the rules and,
    within a rule, of its methods; the progress bar has been advanced [k]
    times, and [k] is less than the number of rules only if the flag was
    set, the interrupt arrived, or rule [k] has no methods.  The writer is
    handed that list, at most once, and the count that is logged is its
    length.  The error of line 136 is logged only when the rules cannot be
    listed, a rule has no methods, or the writer of the Excel or of the JSON
    file fails. *)
Theorem fetcher_lists_a_prefix_of_the_rules E a get post put delete patch bp output w :
  let allowed := Flask.allowed_methods get post put delete patch in
  let w' := Flask.flask_endpoint_fetcher E a get post put delete patch bp output w in
  let rules := match Flask.iter_rules a with inr rules => rules | inl _ => [] end in
  exists ev k,
    passes E w w' ev /\ (k <= length rules)%nat /\ bar ev = k /\
    let endpoints := flat_map (rows_of allowed bp) (take k rules) in
    (written ev = [] \/ written ev = [endpoints]) /\
    (verdict ev = [Flask.MsgFetchFailed] \/
     verdict ev = [Flask.MsgCollected (length endpoints)] \/
     verdict ev = [Flask.MsgCollected (length endpoints); Flask.MsgFetchFailed]) /\
    ((k < length rules)%nat ->
     Flask._stop w = true \/ In Flask.Sigint ev \/
     exists r, rules !! k = Some r /\ kept bp r = true /\ Flask.methods r = None) /\
    (In Flask.MsgFetchFailed (verdict ev) ->
     (exists e, Flask.iter_rules a = inl e) \/
     (exists r, rules !! k = Some r /\ kept bp r = true /\ Flask.methods r = None) \/
     (output = "excel"%string /\ Flask.excel_fault E <> None) \/
     (output = "json"%string /\ Flask.json_fault E <> None)).
Proof.
  intros allowed w' rules. subst allowed w' rules.
  destruct (Flask.iter_rules a) as [e | rules] eqn:Hr.
  - destruct (fetcher_run_no_rules E a get post put delete patch bp output w e Hr)
      as (ev & P & Hb & Hw & Hv & _).
    exists ev, 0%nat. rewrite Hv, Hw. split; [exact P|]. simpl.
    repeat split; eauto; try lia.
  - destruct (fetcher_run E a get post put delete patch bp output w rules Hr)
      as (ev & k & P & Hk & Hb & _ & _ &
          [(Hs & Hbad & Hw & Hv) | (r & Hlt & Ho & Hv)]);
      exists ev, k; (split; [exact P|]); rewrite Hv;
      (split; [exact Hk|]); (split; [exact Hb|]); cbv zeta.
    + rewrite Hw. repeat split; auto.
    + destruct (writer_outcome_written _ _ _ _ _ Ho) as [Hw _].
      split; [exact Hw|]. split; [destruct r; auto|].
      split; [intros H; destruct (Hlt H); auto|].
      intros Hin. destruct r as [e|].
      * apply writer_outcome_fault in Ho. tauto.
      * destruct Hin as [? | []]. discriminate.
Qed.

(** X13.  When the flag is not set, no interrupt arrives and every rule has
    its methods, every rule is examined: a row is listed exactly when its
    rule is not [static], belongs to the blueprint asked for (by the prefix
    of its endpoint or by its attribute; every rule if no blueprint is
    asked for) and the method is one of the rule and one of those allowed.
    The rows come in the order of the rules; the console and json are handed
    them even if there is none, pandas only if there is one. *)
Theorem uninterrupted_fetch_is_complete E a get post put delete patch bp output w rules :
  Flask._stop w = false ->
  (forall n, Flask.sigint E n = false) ->
  Flask.iter_rules a = inr rules ->
  Forall (fun r => Flask.methods r <> None) rules ->
  let allowed := Flask.allowed_methods get post put delete patch in
  let w' := Flask.flask_endpoint_fetcher E a get post put delete patch bp output w in
  exists ev endpoints,
    passes E w w' ev /\ Flask._stop w' = false /\ bar ev = length rules /\
    endpoints = flat_map (rows_of allowed bp) rules /\
    (forall row,
       In row endpoints <->
       exists r ms m,
         In r rules /\ Flask.methods r = Some ms /\ In m ms /\ In m allowed /\
         Flask.endpoint r <> "static"%string /\
         (bp = ""%string \/ String.prefix (bp ++ ".") (Flask.endpoint r) = true \/
          Flask.blueprint r = Some bp) /\
         row = Flask.make_row r m) /\
    In (Flask.MsgCollected (length endpoints)) (verdict ev) /\
    (output = "console"%string \/ output = "json"%string -> written ev = [endpoints]) /\
    (output = "excel"%string -> endpoints <> [] -> written ev = [endpoints]) /\
    (output = "excel"%string -> endpoints = [] -> written ev = []).
Proof.
  intros Hs Hcalm Hr Hm allowed w'. subst allowed w'.
  destruct (fetcher_run E a get post put delete patch bp output w rules Hr)
    as (ev & k & P & Hk & Hb & _ & _ & [(_ & Hbad & _) | (r & Hlt & Ho & Hv)]).
  { destruct Hbad as (r & Hl & _ & Hnone). exfalso.
    rewrite Forall_forall in Hm. apply (Hm r); [|exact Hnone].
    eapply list_elem_of_lookup_2. exact Hl. }
  assert (Quiet : ~ In Flask.Sigint ev).
  { intros Hin. destruct P as (_ & _ & _ & Hsig). destruct (Hsig Hin) as [n Hn].
    rewrite Hcalm in Hn. discriminate. }
  assert (k = length rules) as ->.
  { destruct (Nat.eq_dec k (length rules)) as [|Hne]; [assumption|].
    destruct Hlt as [Hlt | Hlt]; [lia | congruence | contradiction]. }
  rewrite firstn_all in Ho, Hv.
  exists ev, (flat_map (rows_of (Flask.allowed_methods get post put delete patch) bp) rules).
  split; [exact P|]. split.
  { destruct P as (_ & _ & Hset & _).
    destruct (Flask._stop (Flask.flask_endpoint_fetcher E a get post put delete patch bp
                             output w)); [|reflexivity].
    destruct (Hset eq_refl); [congruence | contradiction]. }
  split; [exact Hb|]. split; [reflexivity|]. split; [intros row; apply in_rows|].
  split; [rewrite Hv; now left|].
  unfold writer_outcome in Ho.
  repeat split.
  - intros [-> | ->]; intuition (try discriminate; auto).
  - intros -> Hne. intuition (try discriminate; try contradiction; auto).
  - intros -> He. intuition (try discriminate; try contradiction; auto).
Qed.

Lemma uninterrupted_fetch_is_complete_witness :
  let allowed := Flask.allowed_methods (Some true) None None None None in
  let w' := Flask.flask_endpoint_fetcher FlaskDemo.quiet FlaskDemo.app
              (Some true) None None None None "" "console" FlaskDemo.fresh in
  exists ev endpoints,
    passes FlaskDemo.quiet FlaskDemo.fresh w' ev /\ Flask._stop w' = false /\
    bar ev = length FlaskDemo.rules /\
    endpoints = flat_map (rows_of allowed "") FlaskDemo.rules /\
    (forall row,
       In row endpoints <->
       exists r ms m,
         In r FlaskDemo.rules /\ Flask.methods r = Some ms /\ In m ms /\ In m allowed /\
         Flask.endpoint r <> "static"%string /\
         (""%string = ""%string \/ String.prefix ("" ++ ".") (Flask.endpoint r) = true \/
          Flask.blueprint r = Some ""%string) /\
         row = Flask.make_row r m) /\
    In (Flask.MsgCollected (length endpoints)) (verdict ev) /\
    ("console"%string = "console"%string \/ "console"%string = "json"%string ->
     written ev = [endpoints]) /\
    ("console"%string = "excel"%string -> endpoints <> [] -> written ev = [endpoints]) /\
    ("console"%string = "excel"%string -> endpoints = [] -> written ev = []).
Proof.
  apply (uninterrupted_fetch_is_complete FlaskDemo.quiet FlaskDemo.app
           (Some true) None None None None "" "console" FlaskDemo.fresh FlaskDemo.rules).
  - reflexivity.
  - intros n. reflexivity.
  - reflexivity.
  - repeat constructor; discriminate.
Defined.

(** X14.  Once the flag is set it stays set, and every later call of the
    fetcher in the process lists nothing: no rule is examined, the bar does
    not move, the count that is logged is 0, and the console or json is
    handed the empty list. *)
Theorem stale_flag_lists_nothing E a get post put delete patch bp output w :
  Flask._stop w = true ->
  let w' := Flask.flask_endpoint_fetcher E a get post put delete patch bp output w in
  exists ev,
    passes E w w' ev /\ Flask._stop w' = true /\ bar ev = 0%nat /\
    Forall (fun rows => rows = []) (written ev) /\
    (output = "excel"%string -> written ev = []) /\
    (forall n, In (Flask.MsgCollected n) (verdict ev) -> n = 0%nat).
Proof.
  intros Hs w'. subst w'.
  destruct (fetcher_writes E a get post put delete patch bp output w)
    as (ev & k & P & _ & Hb & _ & Hk & Hw & He & Hv).
  rewrite (Hk Hs) in *. rewrite take_0 in *. simpl in *.
  exists ev. split; [exact P|].
  split; [destruct P as (_ & Hkeep & _); auto|].
  split; [exact Hb|].
  split; [destruct Hw as [-> | ->]; repeat constructor|].
  split; [auto|exact Hv].
Qed.

Lemma stale_flag_lists_nothing_witness :
  let w' := Flask.flask_endpoint_fetcher FlaskDemo.quiet FlaskDemo.app
              (Some true) (Some true) None None None "" "json" FlaskDemo.stopped in
  exists ev,
    passes FlaskDemo.quiet FlaskDemo.stopped w' ev /\ Flask._stop w' = true /\
    bar ev = 0%nat /\
    Forall (fun rows => rows = []) (written ev) /\
    ("json"%string = "excel"%string -> written ev = []) /\
    (forall n, In (Flask.MsgCollected n) (verdict ev) -> n = 0%nat).
Proof.
  apply (stale_flag_lists_nothing FlaskDemo.quiet FlaskDemo.app
           (Some true) (Some true) None None None "" "json" FlaskDemo.stopped).
  reflexivity.
Defined.

Lemma prefix_cons a s1 b s2 :
  String.prefix (String a s1) (String b s2)
  = if ascii_dec a b then String.prefix s1 s2 else false.
Proof. reflexivity. Qed.

(** An endpoint that starts with a name without a dot, and a dot: the part
    before its first dot is that name. *)
Lemma blueprint_of_prefix bp e :
  Flask.contains "." bp = false ->
  String.prefix (bp ++ ".") e = true ->
  Flask.contains "." e = true /\
  match Flask.split "." e with x :: _ => x | [] => EmptyString end = bp.
Proof.
  revert e. induction bp as [|c bp IH]; intros e Hc Hp.
  - destruct e as [|d e]; [discriminate|].
    change (String.prefix (String "." "") (String d e) = true) in Hp.
    rewrite prefix_cons in Hp.
    destruct (ascii_dec "." d) as [<- | ]; [|discriminate]. split; reflexivity.
  - destruct e as [|d e]; [discriminate|].
    change (String.prefix (String c (bp ++ ".")) (String d e) = true) in Hp.
    rewrite prefix_cons in Hp. cbn [Flask.contains] in Hc.
    apply orb_false_elim in Hc as [Hcd Hc].
    destruct (ascii_dec c d) as [<- | ]; [|discriminate].
    destruct (IH e Hc Hp) as [He Hx]. cbn [Flask.contains Flask.split].
    rewrite Hcd, He. split; [reflexivity|].
    destruct (Flask.split "." e) as [|x xs] eqn:Hsp;
      [now apply split_nonempty in Hsp|].
    now subst x.
Qed.

(** X15.  The blueprint column agrees with the filter: for a blueprint name
    without a dot, every row of a rule whose endpoint starts with that name
    and a dot carries that name. *)
Theorem filtered_rows_carry_the_blueprint bp r m :
  Flask.contains "." bp = false ->
  String.prefix (bp ++ ".") (Flask.endpoint r) = true ->
  Flask.row_blueprint (Flask.make_row r m) = bp.
Proof.
  intros Hc Hp. destruct (blueprint_of_prefix bp (Flask.endpoint r) Hc Hp) as [He Hx].
  simpl. unfold Flask.blueprint_of. now rewrite He.
Qed.

Lemma filtered_rows_carry_the_blueprint_witness :
  Flask.row_blueprint
    (Flask.make_row (Flask.Rule "api.items" None (Some ["GET"%string]) "/api/items") "GET")
  = "api"%string.
Proof.
  apply (filtered_rows_carry_the_blueprint "api"
           (Flask.Rule "api.items" None (Some ["GET"%string]) "/api/items") "GET");
    reflexivity.
Defined.

(** ** The command *)

(** X16.  Without a method flag the command lists nothing, whatever the
    application: no row is ever handed to a writer, the count that is logged
    is 0, and no Excel file is written. *)
Theorem no_method_flag_lists_nothing E path output bp w :
  let run := Flask.flask_endpoints E path output false false false false false bp w in
  exists ev,
    passes E w (snd run) ev /\
    Forall (fun rows => rows = []) (written ev) /\
    (output = "excel"%string -> written ev = []) /\
    (forall n, In (Flask.MsgCollected n) (verdict ev) -> n = 0%nat).
Proof.
  intros run. subst run.
  destruct (flask_endpoints_run E path output false false false false false bp w)
    as (ev0 & w0 & P0 & _ & Hw0 & Hv0 & _ & _ & [(a & _ & ->) | (_ & ->)]); simpl.
  - destruct (fetcher_writes E a (Some false) (Some false) (Some false) (Some false)
                (Some false) bp output w0)
      as (ev & k & P & _ & _ & _ & _ & Hw & He & Hv).
    change (Flask.allowed_methods (Some false) (Some false) (Some false) (Some false)
              (Some false)) with (@nil string) in *.
    rewrite rows_of_nothing in *. simpl in *.
    exists (ev0 ++ ev). split; [exact (passes_trans _ _ _ _ _ _ P0 P)|].
    rewrite written_app, verdict_app, Hw0, Hv0. simpl.
    split; [destruct Hw as [-> | ->]; repeat constructor|].
    split; [auto|exact Hv].
  - exists ev0. split; [exact P0|]. rewrite Hw0, Hv0.
    repeat split; auto. intros n [].
Qed.

(** X17.  The command returns normally exactly when the import path names an
    application: one colon, a module that can be imported, an attribute
    that is there and is true.  In every other case it ends with
    [sys.exit(1)] before the fetcher is called.  A failure inside the
    fetcher does not change the exit status.  At most one module is
    imported, and only for a path with exactly one colon. *)
Theorem exit_status_tells_whether_the_app_was_found E path output
    get post put delete patch bp w :
  let run := Flask.flask_endpoints E path output get post put delete patch bp w in
  (fst run = Returns <-> exists a, names_app E path a) /\
  (fst run = Returns \/ fst run = SystemExit 1) /\
  exists ev,
    passes E w (snd run) ev /\
    (length (imported ev) <= 1)%nat /\
    (forall m, In m (imported ev) ->
       exists attr, path = (m ++ ":" ++ attr)%string /\
                    Flask.contains ":" m = false /\ Flask.contains ":" attr = false) /\
    (fst run = SystemExit 1 -> bar ev = 0%nat /\ written ev = [] /\ verdict ev = []).
Proof.
  intros run. subst run.
  destruct (flask_endpoints_run E path output get post put delete patch bp w)
    as (ev0 & w0 & P0 & Hb0 & Hw0 & Hv0 & Hn0 & Hi0 & [(a & Ha & ->) | (Hno & ->)]);
    simpl.
  - split; [split; eauto|]. split; [now left|].
    destruct (fetcher_writes E a (Some get) (Some post) (Some put) (Some delete)
                (Some patch) bp output w0)
      as (ev & k & P & _ & _ & Hi & _).
    exists (ev0 ++ ev). split; [exact (passes_trans _ _ _ _ _ _ P0 P)|].
    rewrite imported_app, Hi, app_nil_r. split; [exact Hn0|].
    split; [|discriminate].
    intros m Hm. destruct (Hi0 m Hm) as [attr Hs]. exists attr.
    now apply split_two in Hs.
  - split; [split; [discriminate | intros [a Ha]; now apply Hno in Ha]|].
    split; [now right|].
    exists ev0. split; [exact P0|]. split; [exact Hn0|].
    split; [|auto].
    intros m Hm. destruct (Hi0 m Hm) as [attr Hs]. exists attr.
    now apply split_two in Hs.
Qed.
